(** * tide: the Window-TinyLFU read cache and the block write pipeline

    A shallow embedding of [src/wtinylfu/wtinylfu.hpp] (the [lru], [slru] and
    [wtinylfu_cache] classes) and of the parts of [include/tide/disk_io.hpp]
    and [include/tide/disk_io_error.hpp] that the verified properties need,
    followed by the properties themselves.

    Conventions of the embedding.
    - A C++ [int] is a [Z], and the sums that [size()] and [capacity()]
      make are sums in [Z].  They are the program's values as long as no
      [int] addition overflows; [size_int] and [capacity_int] are the same
      sums with the overflow (undefined behaviour) made explicit.  On the
      caches reached from a constructor with a capacity up to 2^31 - 1024,
      by calls with [int] arguments, nothing overflows
      ([reached_within_int]); a cache constructed with a capacity close to
      [INT_MAX] has segment capacities whose sum exceeds [INT_MAX].  List
      sizes stay far below 2^31 (every page is a heap node), so the
      [size_t -> int] conversion in [lru::size] is exact.
    - Undefined behaviour (dereferencing the position before [end()] of an
      empty [std::list], using an iterator that does not point into the list
      it is used with) is the [None] of the [option] monad: an operation
      that returns [None] has no resulting state.
    - A [std::list<page>::iterator] is the identity of a list node
      ([page_position]).  The nodes live in a store shared by the three
      segments and by the page map, so that a write through one iterator
      ([page->cache_type = ...], [it->second->data = ...]) is seen through
      every other copy of it. *)

From Stdlib Require Import ZArith Lia.
From stdpp Require Import base option list gmap.

#[local] Open Scope Z_scope.

(* ================================================================== *)
(** * Part I: the embedding *)
(* ================================================================== *)

(** ** binary32 arithmetic of the capacity computations

    [0.01f * n], [0.8f * n] and [n - 0.8f * n] are evaluated in [float].
    A value is kept as the exact dyadic rational [num / 2^scale]; every
    operation rounds the exact result to a 24 bit significand, to nearest,
    ties to even.  The exponent range of binary32 is never reached by
    products and differences of an [int] with these two constants, so no
    overflow or subnormal case is modelled. *)
Module F32.

Record t := mk { num : Z; scale : Z }.

(** [v / 2^s] rounded to the nearest integer, ties to even. *)
Definition rne (v s : Z) : Z :=
  let q := v / 2 ^ s in
  let r := v mod 2 ^ s in
  let h := 2 ^ (s - 1) in
  if (h <? r) || ((r =? h) && Z.odd q) then q + 1 else q.

(** The integer nearest to [v] that has at most 24 significant bits. *)
Definition round24 (v : Z) : Z :=
  if Z.abs v <? 2 ^ 24 then v
  else let s := Z.log2 (Z.abs v) - 23 in rne v s * 2 ^ s.

(** [static_cast<float>(n)] of an [int]. *)
Definition of_int (n : Z) : t := mk (round24 n) 0.

Definition mul (a b : t) : t :=
  mk (round24 (num a * num b)) (scale a + scale b).

Definition sub (a b : t) : t :=
  let k := Z.max (scale a) (scale b) in
  mk (round24 (num a * 2 ^ (k - scale a) - num b * 2 ^ (k - scale b))) k.

(** [std::ceil]: the result is an integer of at most 24 significant bits
    whenever the argument is a binary32 value, so it is exact. *)
Definition ceil (a : t) : t :=
  mk (- ((- num a) / 2 ^ scale a) * 2 ^ scale a) (scale a).

(** The conversion [float -> int] truncates toward zero. *)
Definition to_int (a : t) : Z := Z.quot (num a) (2 ^ scale a).

(** The literals [0.01f] (0x3C23D70A) and [0.8f] (0x3F4CCCCD). *)
Definition c0_01 : t := mk 10737418 30.
Definition c0_8 : t := mk 13421773 24.

End F32.

(** ** Pages and list nodes *)

Inductive cache_t : Set := window | probationary | safe.

#[global] Instance cache_t_eq_dec : EqDecision cache_t.
Proof. solve_decision. Defined.

Record page (K V : Type) : Type :=
  Page { key : K; cache_type : cache_t; data : V }.
Arguments Page {K V} _ _ _.
Arguments key {K V} _.
Arguments cache_type {K V} _.
Arguments data {K V} _.

(** A list iterator: the identity of the node it points to. *)
Definition page_position : Set := nat.

(** [std::list::erase(it)] and the source side of [splice]: the node is
    taken out of the list; an iterator that does not point into the list
    is undefined. *)
Fixpoint unlink (pos : page_position) (l : list page_position)
  : option (list page_position) :=
  match l with
  | [] => None
  | x :: l' => if decide (x = pos) then Some l' else cons x <$> unlink pos l'
  end.

(** The store of list nodes: what [*page] and [page->member] read and
    write.  An iterator that points to no node cannot be dereferenced. *)
Definition set_cache_type {K V} (ct : cache_t) (pos : page_position)
    (nodes : gmap page_position (page K V))
  : option (gmap page_position (page K V)) :=
  p ← nodes !! pos; Some (<[pos := Page (key p) ct (data p)]> nodes).

Definition set_data {K V} (d : V) (pos : page_position)
    (nodes : gmap page_position (page K V))
  : option (gmap page_position (page K V)) :=
  p ← nodes !! pos; Some (<[pos := Page (key p) (cache_type p) d]> nodes).

Definition key_at {K V} (nodes : gmap page_position (page K V))
    (pos : page_position) : option K :=
  key <$> nodes !! pos.

(** ** class lru *)
Module lru.

Record t : Set := mk { m_lru : list page_position; m_capacity : Z }.

Definition new (capacity : Z) : t := mk [] capacity.

Definition size (c : t) : Z := Z.of_nat (length (m_lru c)).

Definition capacity (c : t) : Z := m_capacity c.

Definition is_full (c : t) : bool := bool_decide (capacity c <= size c).

(** Only sets the capacity, removes nothing. *)
Definition set_capacity (n : Z) (c : t) : t := mk (m_lru c) n.

(** [begin()]; on an empty list this is [end()], here [None]. *)
Definition get_mru_pos (c : t) : option page_position := head (m_lru c).

(** [--end()]: undefined on an empty list. *)
Definition get_lru_pos (c : t) : option page_position := last (m_lru c).

Definition erase (pos : page_position) (c : t) : option t :=
  l ← unlink pos (m_lru c); Some (mk l (m_capacity c)).

Definition get_victim_key {K V} (nodes : gmap page_position (page K V))
    (c : t) : option K :=
  pos ← get_lru_pos c; key_at nodes pos.

Definition evict (c : t) : option t :=
  pos ← get_lru_pos c; erase pos c.

(** [emplace(begin(), ...)]: the new node [pos] becomes the first one. *)
Definition insert (pos : page_position) (c : t) : t :=
  mk (pos :: m_lru c) (m_capacity c).

(** [m_lru.splice(begin(), source.m_lru, page)] with two distinct lists:
    the result is the pair (this, source). *)
Definition transfer_page_from (pos : page_position) (c source : t)
  : option (t * t) :=
  source' ← erase pos source; Some (insert pos c, source').

(** [transfer_page_from(page, *this)]: the splice within one list. *)
Definition handle_hit (pos : page_position) (c : t) : option t :=
  c' ← erase pos c; Some (insert pos c').

End lru.

(** ** class slru *)
Module slru.

Record t : Set := mk { m_safe : lru.t; m_probationary : lru.t }.

(** [slru(int capacity)] delegates to [slru(int, int)] with the two
    [float] arguments [0.8f * capacity] and [capacity - 0.8f * capacity],
    each converted to [int] on its own. *)
Definition new (capacity : Z) : t :=
  let c := F32.of_int capacity in
  mk (lru.new (F32.to_int (F32.mul F32.c0_8 c)))
     (lru.new (F32.to_int (F32.sub c (F32.mul F32.c0_8 c)))).

Definition size (s : t) : Z := lru.size (m_safe s) + lru.size (m_probationary s).

Definition capacity (s : t) : Z :=
  lru.capacity (m_safe s) + lru.capacity (m_probationary s).

Definition is_full (s : t) : bool := bool_decide (capacity s <= size s).

Definition set_capacity (n : Z) (s : t) : t :=
  let sf := lru.set_capacity
              (F32.to_int (F32.mul F32.c0_8 (F32.of_int n))) (m_safe s) in
  mk sf (lru.set_capacity (n - lru.capacity sf) (m_probationary s)).

Definition get_victim_pos (s : t) : option page_position :=
  lru.get_lru_pos (m_probationary s).

Definition get_victim_key {K V} (nodes : gmap page_position (page K V))
    (s : t) : option K :=
  pos ← get_victim_pos s; key_at nodes pos.

Definition evict (s : t) : option t :=
  p ← lru.evict (m_probationary s); Some (mk (m_safe s) p).

(** The source reads [page.cache_type] here, on a [std::list] iterator,
    which names no member: [slru::erase], and with it
    [wtinylfu_cache::erase], does not compile once it is instantiated, so
    no program calls them as they are written.  The embedding reads
    [page->cache_type], as every other function of the file does: it is
    [erase] with that one token repaired, and what is proved of a run
    through [erase] is proved of the repaired function. *)
Definition erase {K V} (pos : page_position)
    (nodes : gmap page_position (page K V)) (s : t) : option t :=
  p ← nodes !! pos;
  if decide (cache_type p = safe)
  then sf ← lru.erase pos (m_safe s); Some (mk sf (m_probationary s))
  else pr ← lru.erase pos (m_probationary s); Some (mk (m_safe s) pr).

(** Moves the page to the MRU position of the probationary segment; the
    result is (nodes, this, source). *)
Definition transfer_page_from {K V} (pos : page_position) (source : lru.t)
    (nodes : gmap page_position (page K V)) (s : t)
  : option (gmap page_position (page K V) * t * lru.t) :=
  '(pr, source') ← lru.transfer_page_from pos (m_probationary s) source;
  nodes' ← set_cache_type probationary pos nodes;
  Some (nodes', mk (m_safe s) pr, source').

Definition promote_to_safe {K V} (pos : page_position)
    (nodes : gmap page_position (page K V)) (s : t)
  : option (gmap page_position (page K V) * t) :=
  '(sf, pr) ← lru.transfer_page_from pos (m_safe s) (m_probationary s);
  nodes' ← set_cache_type safe pos nodes;
  Some (nodes', mk sf pr).

Definition demote_to_probationary {K V} (pos : page_position)
    (nodes : gmap page_position (page K V)) (s : t)
  : option (gmap page_position (page K V) * t) :=
  '(pr, sf) ← lru.transfer_page_from pos (m_probationary s) (m_safe s);
  nodes' ← set_cache_type probationary pos nodes;
  Some (nodes', mk sf pr).

(** The [assert] of the second branch is a failure when the page is a
    window page; without it the splice would use an iterator of another
    list.  Both are [None]. *)
Definition handle_hit {K V} (pos : page_position)
    (nodes : gmap page_position (page K V)) (s : t)
  : option (gmap page_position (page K V) * t) :=
  p ← nodes !! pos;
  match cache_type p with
  | probationary =>
      '(nodes1, s1) ← promote_to_safe pos nodes s;
      if lru.is_full (m_safe s1)
      then l ← lru.get_lru_pos (m_safe s1); demote_to_probationary l nodes1 s1
      else Some (nodes1, s1)
  | safe =>
      sf ← lru.handle_hit pos (m_safe s); Some (nodes, mk sf (m_probationary s))
  | window => None
  end.

End slru.

(** ** The frequency sketch

    [frequency_sketch.hpp] is not part of the verified sources; the cache
    uses the sketch only through its constructor and these three member
    functions, which are taken as an interface. *)
Class FrequencySketch (K F : Type) : Type := {
  sketch_new : Z -> F;
  record_access : K -> F -> F;
  get_frequency : F -> K -> Z;
  sketch_change_capacity : Z -> F -> F
}.

(** ** class wtinylfu_cache *)
Module wtinylfu_cache.
Section defs.
Context {K : Type} `{Countable K} {V F : Type} `{!FrequencySketch K F}.

Record t : Type := mk {
  m_filter : F;
  m_page_map : gmap K page_position;
  m_window : lru.t;
  m_main : slru.t;
  (** the nodes of the three lists, and the next node to be allocated *)
  nodes : gmap page_position (page K V);
  next_node : page_position
}.

Definition get_window_capacity (total_capacity : Z) : Z :=
  Z.max 1 (F32.to_int (F32.ceil (F32.mul F32.c0_01 (F32.of_int total_capacity)))).

Definition new (capacity : Z) : t :=
  let w := lru.new (get_window_capacity capacity) in
  mk (sketch_new capacity) ∅ w (slru.new (capacity - lru.capacity w)) ∅ 0%nat.

(** The sums of [size()] and [capacity()], here and in [slru], are taken
    in [Z]: the value of the [int] sum where that does not overflow
    ([size_int], [capacity_int]). *)
Definition size (c : t) : Z := lru.size (m_window c) + slru.size (m_main c).

Definition capacity (c : t) : Z :=
  lru.capacity (m_window c) + slru.capacity (m_main c).

Definition contains (k : K) (c : t) : bool :=
  bool_decide (is_Some (m_page_map c !! k)).

(** The node of the evicted page goes with it ([std::list::erase]
    destroys it). *)
Definition evict_from_main (c : t) : option t :=
  k ← slru.get_victim_key (nodes c) (m_main c);
  pos ← slru.get_victim_pos (m_main c);
  m ← slru.evict (m_main c);
  Some (mk (m_filter c) (delete k (m_page_map c)) (m_window c) m
           (delete pos (nodes c)) (next_node c)).

Definition evict_from_window (c : t) : option t :=
  k ← lru.get_victim_key (nodes c) (m_window c);
  pos ← lru.get_lru_pos (m_window c);
  w ← lru.evict (m_window c);
  Some (mk (m_filter c) (delete k (m_page_map c)) w (m_main c)
           (delete pos (nodes c)) (next_node c)).

(** [m_main.transfer_page_from(m_window.get_lru_pos(), m_window)] *)
Definition transfer_window_victim (c : t) : option t :=
  pos ← lru.get_lru_pos (m_window c);
  '(n, m, w) ← slru.transfer_page_from pos (m_window c) (nodes c) (m_main c);
  Some (mk (m_filter c) (m_page_map c) w m n (next_node c)).

Definition evict_from_window_or_main (c : t) : option t :=
  wk ← lru.get_victim_key (nodes c) (m_window c);
  mk_ ← slru.get_victim_key (nodes c) (m_main c);
  let window_victim_freq := get_frequency (m_filter c) wk in
  let main_victim_freq := get_frequency (m_filter c) mk_ in
  if bool_decide (main_victim_freq < window_victim_freq)
  then c' ← evict_from_main c; transfer_window_victim c'
  else evict_from_window c.

Definition evict (c : t) : option t :=
  if bool_decide (capacity c <= size c)
  then evict_from_window_or_main c
  else transfer_window_victim c.

(** The second half of [insert]: the lookup of the key and its two
    branches, [it->second->data = data] and the [emplace] of a new window
    page. *)
Definition assign_or_emplace (k : K) (d : V) (c1 : t) : option t :=
  match m_page_map c1 !! k with
  | Some pos =>
      n ← set_data d pos (nodes c1);
      Some (mk (m_filter c1) (m_page_map c1) (m_window c1) (m_main c1) n
               (next_node c1))
  | None =>
      let pos := next_node c1 in
      Some (mk (m_filter c1) (<[k := pos]> (m_page_map c1))
               (lru.insert pos (m_window c1)) (m_main c1)
               (<[pos := Page k window d]> (nodes c1)) (S pos))
  end.

(** The private [insert(const K&, std::shared_ptr<V>)], to which the
    public one forwards. *)
Definition insert (k : K) (d : V) (c : t) : option t :=
  c1 ← (if lru.is_full (m_window c) then evict c else Some c);
  assign_or_emplace k d c1.

Definition handle_hit (pos : page_position) (c : t) : option t :=
  p ← nodes c !! pos;
  if decide (cache_type p = window)
  then w ← lru.handle_hit pos (m_window c);
       Some (mk (m_filter c) (m_page_map c) w (m_main c) (nodes c) (next_node c))
  else '(n, m) ← slru.handle_hit pos (nodes c) (m_main c);
       Some (mk (m_filter c) (m_page_map c) (m_window c) m n (next_node c)).

(** [get]: the result is the cache and the returned pointer, [None] for
    [nullptr]. *)
Definition get (k : K) (c : t) : option (t * option V) :=
  let c0 := mk (record_access k (m_filter c)) (m_page_map c) (m_window c)
               (m_main c) (nodes c) (next_node c) in
  match m_page_map c0 !! k with
  | Some pos =>
      c1 ← handle_hit pos c0;
      p ← nodes c1 !! pos;
      Some (c1, Some (data p))
  | None => Some (c0, None)
  end.

Definition erase (k : K) (c : t) : option t :=
  match m_page_map c !! k with
  | Some pos =>
      p ← nodes c !! pos;
      if decide (cache_type p = window)
      then w ← lru.erase pos (m_window c);
           Some (mk (m_filter c) (delete k (m_page_map c)) w (m_main c)
                    (delete pos (nodes c)) (next_node c))
      else m ← slru.erase pos (nodes c) (m_main c);
           Some (mk (m_filter c) (delete k (m_page_map c)) (m_window c) m
                    (delete pos (nodes c)) (next_node c))
  | None => Some c
  end.

(** [get_and_insert_if_missing]: the result is the cache and the returned
    pointer, which is never [nullptr] (every pointer the cache stores comes
    from [std::make_shared], here and in the public [insert]); the loader
    is called on a miss only. *)
Definition get_and_insert_if_missing (k : K) (value_loader : K -> V) (c : t)
  : option (t * V) :=
  '(c1, value) ← get k c;
  match value with
  | Some v => Some (c1, v)
  | None =>
      let v := value_loader k in
      c2 ← insert k v c1; Some (c2, v)
  end.

(** [while(m_window.is_full()) evict_from_window();] Every round takes a
    node out of the window, so [length (m_lru (m_window c))] rounds are
    all the loop can make before it evicts from an empty window, which
    is undefined. *)
Fixpoint evict_window_loop (rounds : nat) (c : t) : option t :=
  if lru.is_full (m_window c)
  then match rounds with
       | O => None
       | S r => c' ← evict_from_window c; evict_window_loop r c'
       end
  else Some c.

(** [while(m_main.is_full()) evict_from_main();] likewise, on the
    probationary segment. *)
Fixpoint evict_main_loop (rounds : nat) (c : t) : option t :=
  if slru.is_full (m_main c)
  then match rounds with
       | O => None
       | S r => c' ← evict_from_main c; evict_main_loop r c'
       end
  else Some c.

Inductive invalid_argument : Set := InvalidArgument.

(** [change_capacity]: [inl] is the exception thrown for [n <= 0]. *)
Definition change_capacity (n : Z) (c : t) : option (invalid_argument + t) :=
  if bool_decide (n <= 0) then Some (inl InvalidArgument)
  else
    let w := lru.set_capacity (get_window_capacity n) (m_window c) in
    let c0 := mk (sketch_change_capacity n (m_filter c)) (m_page_map c) w
                 (slru.set_capacity (n - lru.capacity w) (m_main c))
                 (nodes c) (next_node c) in
    c1 ← evict_window_loop (length (lru.m_lru (m_window c0))) c0;
    c2 ← evict_main_loop
           (length (lru.m_lru (slru.m_probationary (m_main c1)))) c1;
    Some (inr c2).

(** The public operations, as a caller issues them. *)
Inductive op : Type :=
  | Get (k : K)
  | Insert (k : K) (d : V)
  | Erase (k : K)
  | ChangeCapacity (n : Z).

(** One call; an exception leaves the cache as it was (it is thrown
    before anything is written). *)
Definition step (o : op) (c : t) : option t :=
  match o with
  | Get k => fst <$> get k c
  | Insert k d => insert k d c
  | Erase k => erase k c
  | ChangeCapacity n =>
      r ← change_capacity n c;
      match r with inl _ => Some c | inr c' => Some c' end
  end.

Fixpoint run (os : list op) (c : t) : option t :=
  match os with
  | [] => Some c
  | o :: os' => c' ← step o c; run os' c'
  end.

End defs.
Arguments t K {_ _} V F.
Arguments op K V : clear implicits.
End wtinylfu_cache.

(** ** A frequency sketch for closed examples *)
Module count_min.

(** Modelled from the spec: [frequency_sketch.hpp] is missing from the
    sources.  Section 4.A: a count-min sketch of 4 bit counters whose
    width is the capacity rounded up to a power of two; [record_access]
    increments the (up to four) counters of the key, saturating at 15, and
    the tick, and halves every counter once the tick reaches the width;
    [get_frequency] is the minimum of the key's counters;
    [change_capacity] rebuilds the table zeroed.  The four index functions
    ("derived by mixing") are not given by the spec; [slot] stands for
    them. *)
Record t : Type := mk { cells : gmap Z Z; ticks : Z; width : Z }.

Definition new (capacity : Z) : t :=
  mk ∅ 0 (if bool_decide (capacity <= 1) then 1 else 2 ^ Z.log2_up capacity).

Definition slot (w i k : Z) : Z := (k * (2 * i + 1) + i) mod w.

Definition cell (s : t) (j : Z) : Z := default 0 (cells s !! j).

Definition bump (j : Z) (m : gmap Z Z) : gmap Z Z :=
  let v := default 0 (m !! j) in
  if bool_decide (v < 15) then <[j := v + 1]> m else m.

Definition record_access (k : Z) (s : t) : t :=
  let w := width s in
  let m := bump (slot w 3 k) (bump (slot w 2 k) (bump (slot w 1 k)
             (bump (slot w 0 k) (cells s)))) in
  if bool_decide (w <= ticks s + 1)
  then mk ((λ v, v / 2) <$> m) 0 w
  else mk m (ticks s + 1) w.

Definition get_frequency (s : t) (k : Z) : Z :=
  let w := width s in
  Z.min (Z.min (cell s (slot w 0 k)) (cell s (slot w 1 k)))
        (Z.min (cell s (slot w 2 k)) (cell s (slot w 3 k))).

Definition change_capacity (n : Z) (_ : t) : t := new n.

End count_min.

#[global] Instance count_min_sketch : FrequencySketch Z count_min.t := {
  sketch_new := count_min.new;
  record_access := count_min.record_access;
  get_frequency := count_min.get_frequency;
  sketch_change_capacity := count_min.change_capacity
}.

(** ** Predicates and state descriptions used by the statements *)

(** A non-negative integer of at most 24 significant bits: a value
    [F32.round24] leaves as it is. *)
Definition repr24 (b : Z) : Prop :=
  exists m e, 0 <= m <= 2 ^ 24 /\ 0 <= e /\ b = m * 2 ^ e.

(** The cache over integer keys and values with the sketch above, for the
    closed examples. *)
Definition zcache : Type := wtinylfu_cache.t Z Z count_min.t.

Section predicates.
Context {K : Type} `{Countable K} {V F : Type} `{!FrequencySketch K F}.
Import wtinylfu_cache.
Implicit Types c : wtinylfu_cache.t K V F.

(** Both segments of the cache are within their capacities. *)
Definition bounded c : Prop :=
  lru.size (m_window c) <= lru.capacity (m_window c) /\
  slru.size (m_main c) <= slru.capacity (m_main c).

(** What an internal step does to the four numbers [size()] and
    [capacity()] are made of: [dw] and [dm] are the changes of the window's
    and the main cache's size. *)
Definition resized (dw dm : Z) c c' : Prop :=
  lru.size (m_window c') = lru.size (m_window c) + dw /\
  slru.size (m_main c') = slru.size (m_main c) + dm /\
  lru.capacity (m_window c') = lru.capacity (m_window c) /\
  slru.capacity (m_main c') = slru.capacity (m_main c).

(** The list of a segment. *)
Definition segment (ct : cache_t) c : list page_position :=
  match ct with
  | window => lru.m_lru (m_window c)
  | probationary => lru.m_lru (slru.m_probationary (m_main c))
  | safe => lru.m_lru (slru.m_safe (m_main c))
  end.

(** The representation invariant of the cache: every node is linked once,
    in the segment its [cache_type] names; the page map holds exactly the
    keys of the nodes and maps each to its node; the nodes not yet
    allocated are unused. *)
Record wf c : Prop := {
  wf_nodup : forall ct, NoDup (segment ct c);
  wf_segment : forall ct pos,
    pos ∈ segment ct c <->
    exists p, nodes c !! pos = Some p /\ cache_type p = ct;
  wf_page_map : forall k pos,
    m_page_map c !! k = Some pos <->
    exists p, nodes c !! pos = Some p /\ key p = k;
  wf_next : forall pos, is_Some (nodes c !! pos) -> (pos < next_node c)%nat
}.

(** What holds of every cache a caller can have: the representation
    invariant, both segments within their capacities, and a window of
    capacity at least one. *)
Definition sound c : Prop :=
  wf c /\ bounded c /\ 1 <= lru.capacity (m_window c).

(** The cache with the list of one segment replaced. *)
Definition with_segment (ct : cache_t) (l : list page_position) c
  : wtinylfu_cache.t K V F :=
  let w := m_window c in
  let sf := slru.m_safe (m_main c) in
  let pr := slru.m_probationary (m_main c) in
  match ct with
  | window =>
      mk (m_filter c) (m_page_map c) (lru.mk l (lru.m_capacity w)) (m_main c)
         (nodes c) (next_node c)
  | probationary =>
      mk (m_filter c) (m_page_map c) w
         (slru.mk sf (lru.mk l (lru.m_capacity pr))) (nodes c) (next_node c)
  | safe =>
      mk (m_filter c) (m_page_map c) w
         (slru.mk (lru.mk l (lru.m_capacity sf)) pr) (nodes c) (next_node c)
  end.

(** The cache without the node [pos] of page [p] and without its key. *)
Definition without_page (pos : page_position) (p : page K V) c
  : wtinylfu_cache.t K V F :=
  mk (m_filter c) (delete (key p) (m_page_map c)) (m_window c) (m_main c)
     (delete pos (nodes c)) (next_node c).

(** The cache with the page at [pos] replaced. *)
Definition with_page (pos : page_position) (p : page K V) c
  : wtinylfu_cache.t K V F :=
  mk (m_filter c) (m_page_map c) (m_window c) (m_main c)
     (<[pos := p]> (nodes c)) (next_node c).

(** The cache with the main cache and the nodes replaced. *)
Definition with_main (n : gmap page_position (page K V)) (m : slru.t) c
  : wtinylfu_cache.t K V F :=
  mk (m_filter c) (m_page_map c) (m_window c) m n (next_node c).

(** The cache after the node [pos] of page [p], unlinked from its segment
    (which leaves [l']), is linked at the MRU position of [ct']. *)
Definition moved (pos : page_position) (p : page K V) (ct' : cache_t)
    (l' : list page_position) c : wtinylfu_cache.t K V F :=
  let c1 := with_segment (cache_type p) l' c in
  with_page pos (Page (key p) ct' (data p))
    (with_segment ct' (pos :: segment ct' c1) c1).

(** The key whose entry the eviction of an [insert] into [c] removes: the
    window is full, [size() >= capacity()], and the key is the main
    victim's when its frequency is lower than the window victim's, the
    window victim's otherwise. *)
Definition evicts_key (k : K) c : Prop :=
  lru.is_full (m_window c) = true /\ capacity c <= size c /\
  exists wk mk_,
    lru.get_victim_key (nodes c) (m_window c) = Some wk /\
    slru.get_victim_key (nodes c) (m_main c) = Some mk_ /\
    k = if bool_decide (get_frequency (m_filter c) mk_
                        < get_frequency (m_filter c) wk)
        then mk_ else wk.

(** The calls that can take the entry of [k] out of the cache [c]. *)
Definition may_remove (k : K) (o : op K V) c : Prop :=
  match o with
  | Get _ => False
  | Insert k' _ => k' ≠ k /\ evicts_key k c
  | Erase k' => k' = k
  | ChangeCapacity n => 0 < n
  end.

(** The hit handler of [slru] as the specification words it: the LRU page
    of the safe segment is demoted when the segment is over its capacity
    after the promotion. *)
Definition handle_hit_as_specified (pos : page_position)
    (nodes : gmap page_position (page K V)) (s : slru.t)
  : option (gmap page_position (page K V) * slru.t) :=
  p ← nodes !! pos;
  match cache_type p with
  | probationary =>
      '(nodes1, s1) ← slru.promote_to_safe pos nodes s;
      if bool_decide (lru.capacity (slru.m_safe s1) < lru.size (slru.m_safe s1))
      then l ← lru.get_lru_pos (slru.m_safe s1);
           slru.demote_to_probationary l nodes1 s1
      else Some (nodes1, s1)
  | safe =>
      sf ← lru.handle_hit pos (slru.m_safe s);
      Some (nodes, slru.mk sf (slru.m_probationary s))
  | window => None
  end.

End predicates.

(** ** Runs and states of the closed examples *)

(** Six distinct keys inserted into a cache of capacity six: the window
    holds the last one, the probationary segment the five before it. *)
Definition six_inserts : list (wtinylfu_cache.op Z Z) :=
  [wtinylfu_cache.Insert 1 10; wtinylfu_cache.Insert 2 20;
   wtinylfu_cache.Insert 3 30; wtinylfu_cache.Insert 4 40;
   wtinylfu_cache.Insert 5 50; wtinylfu_cache.Insert 6 60].

Definition full_cache : zcache :=
  wtinylfu_cache.mk (count_min.new 6)
    (list_to_map [(1, 0%nat); (2, 1%nat); (3, 2%nat); (4, 3%nat);
                  (5, 4%nat); (6, 5%nat)])
    (lru.mk [5%nat] 1)
    (slru.mk (lru.mk [] 4) (lru.mk [4%nat; 3%nat; 2%nat; 1%nat; 0%nat] 1))
    (list_to_map [(0%nat, Page 1 probationary 10);
                  (1%nat, Page 2 probationary 20);
                  (2%nat, Page 3 probationary 30);
                  (3%nat, Page 4 probationary 40);
                  (4%nat, Page 5 probationary 50);
                  (5%nat, Page 6 window 60)])
    6%nat.

(** Hits that fill the safe segment up to one below its capacity, and a
    page left in the probationary segment. *)
Definition hits_and_inserts : list (wtinylfu_cache.op Z Z) :=
  [wtinylfu_cache.Insert 1 10; wtinylfu_cache.Insert 2 20;
   wtinylfu_cache.Get 1; wtinylfu_cache.Insert 3 30; wtinylfu_cache.Get 2;
   wtinylfu_cache.Get 1; wtinylfu_cache.Get 2; wtinylfu_cache.Insert 4 40;
   wtinylfu_cache.Get 3; wtinylfu_cache.Insert 5 50].

Definition hot_cache : zcache :=
  wtinylfu_cache.mk
    (count_min.record_access 3 (count_min.record_access 2
       (count_min.record_access 1 (count_min.record_access 2
          (count_min.record_access 1 (count_min.new 6))))))
    (list_to_map [(1, 0%nat); (2, 1%nat); (3, 2%nat); (4, 3%nat); (5, 4%nat)])
    (lru.mk [4%nat] 1)
    (slru.mk (lru.mk [2%nat; 1%nat; 0%nat] 4) (lru.mk [3%nat] 1))
    (list_to_map [(0%nat, Page 1 safe 10); (1%nat, Page 2 safe 20);
                  (2%nat, Page 3 safe 30); (3%nat, Page 4 probationary 40);
                  (4%nat, Page 5 window 50)])
    5%nat.

(** One page, in the probationary segment, and an empty window. *)
Definition one_page_cache : zcache :=
  wtinylfu_cache.mk (count_min.new 6)
    (list_to_map [(1, 0%nat)])
    (lru.mk [] 1)
    (slru.mk (lru.mk [] 4) (lru.mk [0%nat] 1))
    (list_to_map [(0%nat, Page 1 probationary 10)])
    2%nat.

(* ================================================================== *)
(** ** The block write pipeline of [disk_io]

    [include/tide/disk_io.hpp] declares the pipeline; the definitions of
    its member functions ([disk_io.cpp]) are not among the sources.  The
    data below follows the header; every function is modelled from the
    specification and says so.

    A [std::function] handler is the identity of a callable ([nat]); a
    call of it is an [effect] of the operation that makes it.  A
    [disk_buffer] is the list of its bytes. *)
(* ================================================================== *)

(** [disk_io_errc] of [include/tide/disk_io_error.hpp]. *)
Inductive disk_io_errc : Set :=
  | unknown
  | block_dropped
  | duplicate_block
  | invalid_block
  | corrupt_data_dropped
  | operation_aborted.

(** The enumerators start at [unknown = 1]. *)
Definition errc_value (e : disk_io_errc) : Z :=
  match e with
  | unknown => 1
  | block_dropped => 2
  | duplicate_block => 3
  | invalid_block => 4
  | corrupt_data_dropped => 5
  | operation_aborted => 6
  end.

(** A [std::error_code] as a handler receives it: [None] is success. *)
Definition error_code : Set := option disk_io_errc.

(** Blocks are 16 KiB (0x4000 bytes). *)
Definition block_size : Z := 16384.

(** [sha1_hasher] of [include/tide/sha1_hasher.hpp]: the context is
    determined by the arguments of the [update] calls made since the
    construction, in their order. *)
Module sha1_hasher.
Record t : Set := mk { context_ : list (list Byte.byte) }.
Definition new : t := mk [].
Definition update (buffer : list Byte.byte) (h : t) : t :=
  mk (context_ h ++ [buffer]).
End sha1_hasher.

(** [disk_io::partial_piece::block]. *)
Module block.
Record t : Set :=
  mk { buffer : list Byte.byte; offset : Z; save_handler : nat }.
Definition size (b : t) : Z := Z.of_nat (length (buffer b)).
End block.

(** The jobs the pipeline posts to the thread pool. *)
Inductive job : Set :=
  | handle_complete_piece
  | hash_and_save_blocks
  | flush_buffer.

(** What an operation does besides changing the state, in the order it
    does it, on the thread that runs the operation. *)
Inductive effect : Set :=
  | InvokeSaveHandler (h : nat) (e : error_code)
  | InvokeCompletionHandler (h : nat) (is_valid : bool)
  | Post (j : job)
  | ArmTimer.

(** [disk_io::partial_piece]: the fields of the header ([timer_armed]
    stands for the state of [buffer_expiry_timer]). *)
Module partial_piece.

Record t : Set := mk {
  buffer : list block.t;
  work_buffer : list block.t;
  save_progress : list bool;
  is_busy : bool;
  num_saved_blocks : Z;
  unhashed_offset : Z;
  index : Z;
  length : Z;
  completion_handler : nat;
  hasher : sha1_hasher.t;
  timer_armed : bool
}.

(** Modelled from the spec: [partial_piece::num_blocks] is only declared.
    "The total number of blocks in piece", blocks being 16 KiB. *)
Definition num_blocks (p : t) : Z := (length p + block_size - 1) / block_size.

(** Modelled from the spec: the constructor is only declared.  The header
    preallocates [save_progress] to the number of blocks and initialises
    [is_busy], [num_saved_blocks] and [unhashed_offset] in place. *)
Definition new (index_ length_ : Z) (completion_handler_ : nat) : t :=
  mk [] [] (replicate (Z.to_nat ((length_ + block_size - 1) / block_size)) false)
     false 0 0 index_ length_ completion_handler_ sha1_hasher.new false.

(** Modelled from the spec: [partial_piece::is_complete] is only declared.
    Section 3: "The piece is complete when the union of in-buffer blocks
    and saved-bit positions covers all [num_blocks()] positions." *)
Definition is_complete (p : t) : bool :=
  forallb
    (λ i : nat,
       default false (save_progress p !! i)
       || existsb (λ b, bool_decide (block.offset b = Z.of_nat i * block_size))
            (buffer p))
    (seq 0 (Z.to_nat (num_blocks p))).

(** The number of leading blocks of [l] that start at [start] and follow
    one another without a gap. *)
Fixpoint contiguous_from (start : Z) (l : list block.t) : nat :=
  match l with
  | [] => O
  | b :: l' =>
      if bool_decide (block.offset b = start)
      then S (contiguous_from (start + block.size b) l')
      else O
  end.

(** Modelled from the spec: [partial_piece::hashable_range] is only
    declared.  Glossary: "maximal prefix of a piece's buffered blocks that
    starts exactly at [unhashed_offset] and is strictly contiguous"; the
    result is the length of that prefix. *)
Definition hashable_range (p : t) : nat :=
  contiguous_from (unhashed_offset p) (buffer p).

(** Section 4.F, step 4: "Insert the new block into [buffer] at the
    position preserving offset order." *)
Fixpoint insert_block (b : block.t) (l : list block.t) : list block.t :=
  match l with
  | [] => [b]
  | x :: l' =>
      if bool_decide (block.offset b < block.offset x)
      then b :: l
      else x :: insert_block b l'
  end.

(** Modelled from the spec: [partial_piece::restore_buffer] is only
    declared.  Section 4.F: "the attempted blocks are moved back from
    [work_buffer] into [buffer] (restoring offset order)". *)
Definition restore_buffer (failed : list block.t) (p : t) : t :=
  mk (foldr insert_block (buffer p) failed) [] (save_progress p) (is_busy p)
     (num_saved_blocks p) (unhashed_offset p) (index p) (length p)
     (completion_handler p) (hasher p) (timer_armed p).

End partial_piece.

Module disk_io.
Section pipeline.

(** [settings.write_cache_line_size] and [settings.write_buffer_capacity],
    in blocks; SHA-1 and the expected digest of a piece (20 bytes, as a
    number), which the pipeline only compares. *)
Variable write_cache_line_size write_buffer_capacity : Z.
Variable sha1 : list Byte.byte -> Z.
Variable expected_hash : Z -> Z.

Import partial_piece.

(** The blocks of [buffer] from [n] on stay; the first [n] (all of them
    for [n >= length]) go to [work_buffer], and the piece is busy. *)
Definition transfer_to_work_buffer (n : nat) (p : partial_piece.t)
  : partial_piece.t :=
  mk (drop n (buffer p)) (work_buffer p ++ take n (buffer p))
     (save_progress p) true (num_saved_blocks p) (unhashed_offset p)
     (index p) (length p) (completion_handler p) (hasher p) (timer_armed p).

(** Modelled from the spec: [disk_io::dispatch_write] is only declared.
    Section 4.F, "dispatch_write policy": a busy piece is left alone; a
    complete piece moves all its blocks to [work_buffer] and dispatches
    [handle_complete_piece]; otherwise, with [L] hashable blocks or more
    the hashable blocks are transferred and [hash_and_save_blocks] is
    dispatched, else with [C] buffered blocks or more all blocks are
    transferred and [flush_buffer] is dispatched, else the expiry timer
    is armed if it is not. *)
Definition dispatch_write (p : partial_piece.t)
  : partial_piece.t * list effect :=
  if is_busy p then (p, [])
  else if is_complete p
  then (transfer_to_work_buffer (List.length (buffer p)) p,
        [Post handle_complete_piece])
  else
    let hashable := hashable_range p in
    if bool_decide (write_cache_line_size <= Z.of_nat hashable)
    then (transfer_to_work_buffer hashable p, [Post hash_and_save_blocks])
    else if bool_decide (write_buffer_capacity
                         <= Z.of_nat (List.length (buffer p)))
    then (transfer_to_work_buffer (List.length (buffer p)) p,
          [Post flush_buffer])
    else if timer_armed p then (p, [])
    else (mk (buffer p) (work_buffer p) (save_progress p) (is_busy p)
             (num_saved_blocks p) (unhashed_offset p) (index p) (length p)
             (completion_handler p) (hasher p) true, [ArmTimer]).

(** Step 3 of [save_block]: the [save_progress] bit of the block. *)
Definition is_saved (b : block.t) (p : partial_piece.t) : bool :=
  default false (save_progress p !! Z.to_nat (block.offset b / block_size)).

(** Modelled from the spec: steps 4 and 5 of [disk_io::save_block]
    (section 4.F): the block is inserted into [buffer] in offset order and
    [dispatch_write] is called. *)
Definition buffer_block (b : block.t) (p : partial_piece.t)
  : partial_piece.t * list effect :=
  dispatch_write
    (mk (insert_block b (buffer p)) (work_buffer p) (save_progress p)
        (is_busy p) (num_saved_blocks p) (unhashed_offset p) (index p)
        (length p) (completion_handler p) (hasher p) (timer_armed p)).

(** Modelled from the spec: steps 3 to 5 of [disk_io::save_block], on the
    piece the block belongs to: "If [save_progress[block_index] == true],
    call [save_cb(duplicate_block)] and return." *)
Definition accept_block (b : block.t) (p : partial_piece.t)
  : partial_piece.t * list effect :=
  if is_saved b p
  then (p, [InvokeSaveHandler (block.save_handler b) (Some duplicate_block)])
  else buffer_block b p.

(** Modelled from the spec: [on_write_buffer_expiry] is only declared.
    Section 4.F: "On expiry, flush whatever is there." *)
Definition on_write_buffer_expiry (p : partial_piece.t)
  : partial_piece.t * list effect :=
  let p' := mk (buffer p) (work_buffer p) (save_progress p) (is_busy p)
               (num_saved_blocks p) (unhashed_offset p) (index p) (length p)
               (completion_handler p) (hasher p) false in
  if is_busy p || (if buffer p is [] then true else false) then (p', [])
  else (transfer_to_work_buffer (List.length (buffer p)) p', [Post flush_buffer]).

(** *** The worker's side *)

(** [hasher.update] on each of the blocks, and [unhashed_offset] advanced
    by the length fed. *)
Definition hash_blocks (bs : list block.t) (p : partial_piece.t)
  : partial_piece.t :=
  mk (buffer p) (work_buffer p) (save_progress p) (is_busy p)
     (num_saved_blocks p)
     (unhashed_offset p + foldr (λ b n, block.size b + n) 0 bs)
     (index p) (length p) (completion_handler p)
     (foldl (λ h b, sha1_hasher.update (block.buffer b) h) (hasher p) bs)
     (timer_armed p).

(** What the storage holds of the piece: the bytes written at an offset. *)
Definition write_blocks (bs : list block.t) (st : gmap Z (list Byte.byte))
  : gmap Z (list Byte.byte) :=
  foldl (λ s b, <[block.offset b := block.buffer b]> s) st bs.

(** The maximal runs of blocks that follow one another without a gap. *)
Fixpoint contiguous_runs (rounds : nat) (l : list block.t)
  : list (list block.t) :=
  match rounds, l with
  | S r, b :: _ =>
      let n := contiguous_from (block.offset b) l in
      take n l :: contiguous_runs r (drop n l)
  | _, _ => []
  end.

(** What a worker hands to the completion handler: the blocks it wrote
    and those whose write failed, or the verdict on a complete piece. *)
Inductive outcome : Set :=
  | Saved (saved failed : list block.t)
  | Hashed (is_valid : bool).

(** Modelled from the spec: [disk_io::hash_and_save_blocks] is only
    declared.  Section 4.F: "Feed each block in [work_buffer] into
    [hasher]. Advance [unhashed_offset] by the total length fed. Call
    [storage.write]"; [ok] says whether that one write succeeds. *)
Definition run_hash_and_save_blocks (ok : bool) (p : partial_piece.t)
    (st : gmap Z (list Byte.byte))
  : partial_piece.t * gmap Z (list Byte.byte) * outcome :=
  let p' := hash_blocks (work_buffer p) p in
  if ok then (p', write_blocks (work_buffer p) st, Saved (work_buffer p) [])
  else (p', st, Saved [] (work_buffer p)).

(** Modelled from the spec: [disk_io::flush_buffer] and
    [save_maybe_contiguous_blocks] are only declared.  Section 4.F: "Hash
    the prefix of [work_buffer] whose offsets are contiguous and begin at
    [unhashed_offset]; advance [unhashed_offset] accordingly", then "group
    runs of contiguous-offset blocks and write each run with a single
    vectored write; each run independently may fail"; [oks] says which of
    the writes succeed (a run without an entry succeeds). *)
Definition run_flush_buffer (oks : list bool) (p : partial_piece.t)
    (st : gmap Z (list Byte.byte))
  : partial_piece.t * gmap Z (list Byte.byte) * outcome :=
  let wb := work_buffer p in
  let p' := hash_blocks (take (contiguous_from (unhashed_offset p) wb) wb) p in
  let runs := contiguous_runs (List.length wb) wb in
  let tagged := zip_with (λ r (i : nat), (r, default true (oks !! i)))
                  runs (seq 0 (List.length runs)) in
  let saved := concat (fst <$> filter (λ x, snd x = true) tagged) in
  let failed := concat (fst <$> filter (λ x, snd x = false) tagged) in
  (p', write_blocks saved st, Saved saved failed).

(** Modelled from the spec: [disk_io::finish_hashing] is only declared.
    Section 4.F: the blocks from [unhashed_offset] on are fed "strictly by
    piece offset", a block still in [work_buffer] from there, a block
    "saved unhashed" read back from the storage.  Section 3 defines
    [unhashed_offset] as "byte offset of the first not-yet-hashed block",
    so it advances with every block fed.  The loop stops at the end of the
    piece, or at a block that is neither buffered nor saved. *)
Fixpoint finish_hashing (rounds : nat) (st : gmap Z (list Byte.byte))
    (p : partial_piece.t) : partial_piece.t :=
  match rounds with
  | O => p
  | S r =>
      let o := unhashed_offset p in
      if bool_decide (length p <= o) then p
      else
        let buffered :=
          block.buffer
            <$> find (λ b, bool_decide (block.offset b = o)) (work_buffer p) in
        let read_back :=
          if default false (save_progress p !! Z.to_nat (o / block_size))
          then st !! o else None in
        match (if buffered is Some d then Some d else read_back) with
        | Some d =>
            finish_hashing r st
              (hash_blocks [block.mk d o O] p)
        | None => p
        end
  end.

(** Modelled from the spec: [disk_io::handle_complete_piece] is only
    declared.  Section 4.F: the remaining blocks are hashed, then "Finish
    hash; compare to expected digest." *)
Definition run_handle_complete_piece (p : partial_piece.t)
    (st : gmap Z (list Byte.byte))
  : partial_piece.t * gmap Z (list Byte.byte) * outcome :=
  let p' := finish_hashing (Z.to_nat (num_blocks p)) st p in
  (p', st,
   Hashed (bool_decide (length p <= unhashed_offset p') &&
           bool_decide (sha1 (concat (sha1_hasher.context_ (hasher p')))
                        = expected_hash (index p)))).

(** *** Completion, on the network thread *)

Definition mark_saved (bs : list block.t) (progress : list bool) : list bool :=
  foldl (λ pr b, <[Z.to_nat (block.offset b / block_size) := true]> pr)
    progress bs.

(** Modelled from the spec: [disk_io::on_blocks_saved] is only declared.
    Sections 3, 4.F and 9: the bits of the written blocks are set and
    their [save_cb(ok)] fired; the blocks whose write failed go back to
    [buffer], without a call of their handler; [is_busy] is cleared, and
    [dispatch_write] is called again. *)
Definition on_blocks_saved (saved failed : list block.t)
    (p : partial_piece.t) : partial_piece.t * list effect :=
  let progress := mark_saved saved (save_progress p) in
  let p1 := restore_buffer failed
              (mk (buffer p) [] progress false
                  (Z.of_nat (List.length (filter (λ b, b = true) progress)))
                  (unhashed_offset p) (index p) (length p)
                  (completion_handler p) (hasher p) (timer_armed p)) in
  let '(p2, es) := dispatch_write p1 in
  (p2, ((λ b, InvokeSaveHandler (block.save_handler b) None) <$> saved) ++ es).

(** Modelled from the spec: the completion of [handle_complete_piece].
    Section 4.F: "network thread calls [piece_completion_cb(is_valid)]";
    an invalid piece then has "each outstanding
    [save_cb(corrupt_data_dropped)]" fired and its blocks dropped.  The
    writes of the blocks of a valid piece that follow are not part of
    this model. *)
Definition on_piece_hashed (is_valid : bool) (p : partial_piece.t)
  : partial_piece.t * list effect :=
  if is_valid
  then (p, [InvokeCompletionHandler (completion_handler p) true])
  else (mk (buffer p) [] (save_progress p) (is_busy p) (num_saved_blocks p)
           (unhashed_offset p) (index p) (length p) (completion_handler p)
           (hasher p) (timer_armed p),
        InvokeCompletionHandler (completion_handler p) false
        :: ((λ b, InvokeSaveHandler (block.save_handler b)
                    (Some corrupt_data_dropped)) <$> work_buffer p)).

(** *** The life of one piece *)

(** Where the piece's one job is. *)
Inductive phase : Set :=
  | Idle
  | Posted (j : job)
  | Ran (j : job) (o : outcome)
  | Finished.

(** A piece with the part of the storage it is written to, and the blocks
    that [save_block] has taken for it so far (offset and bytes). *)
Record world : Type := World {
  piece : partial_piece.t;
  storage : gmap Z (list Byte.byte);
  state : phase;
  accepted : list (Z * list Byte.byte)
}.

(** What happens to a piece: a block of it arrives in [save_block], its
    timer expires, the worker runs the posted job (with the results of
    its writes), the completion posted by the worker runs. *)
Inductive event : Set :=
  | BlockArrives (b : block.t)
  | TimerExpires
  | WorkerRuns (oks : list bool)
  | CompletionRuns.

(** Modelled from the spec: the validation of step 1 of [save_block]
    ("in-range, 16 KiB-aligned, <= 16 KiB"), for a block of the piece [p]
    whose buffer holds its bytes. *)
Definition block_in_piece (b : block.t) (p : partial_piece.t) : bool :=
  bool_decide (0 <= block.offset b) &&
  bool_decide (block.offset b mod block_size = 0) &&
  bool_decide (0 < block.size b) &&
  bool_decide (block.size b <= block_size) &&
  bool_decide (block.offset b + block.size b <= length p).

Definition posted (es : list effect) : option job :=
  head (omap (λ e, if e is Post j then Some j else None) es).

Definition after_dispatch (es : list effect) (old : phase) : phase :=
  match posted es with Some j => Posted j | None => old end.

(** One event; [None] when the event cannot happen in the state. *)
Definition step (e : event) (w : world) : option (world * list effect) :=
  match e, state w with
  | _, Finished => None
  | BlockArrives b, s =>
      if block_in_piece b (piece w)
      then
        let '(p, es) := accept_block b (piece w) in
        Some (World p (storage w) (after_dispatch es s)
                (if is_saved b (piece w) then accepted w
                 else (block.offset b, block.buffer b) :: accepted w), es)
      else None
  | TimerExpires, s =>
      if timer_armed (piece w)
      then
        let '(p, es) := on_write_buffer_expiry (piece w) in
        Some (World p (storage w) (after_dispatch es s) (accepted w), es)
      else None
  | WorkerRuns oks, Posted j =>
      let '(p, st, o) :=
        match j with
        | hash_and_save_blocks =>
            run_hash_and_save_blocks (default true (head oks))
              (piece w) (storage w)
        | flush_buffer => run_flush_buffer oks (piece w) (storage w)
        | handle_complete_piece =>
            run_handle_complete_piece (piece w) (storage w)
        end in
      Some (World p st (Ran j o) (accepted w), [])
  | CompletionRuns, Ran j (Saved saved failed) =>
      let '(p, es) := on_blocks_saved saved failed (piece w) in
      Some (World p (storage w) (after_dispatch es Idle) (accepted w), es)
  | CompletionRuns, Ran j (Hashed is_valid) =>
      let '(p, es) := on_piece_hashed is_valid (piece w) in
      Some (World p (storage w) Finished (accepted w), es)
  | _, _ => None
  end.

Fixpoint run (es : list event) (w : world) : option world :=
  match es with
  | [] => Some w
  | e :: es' => '(w', _) ← step e w; run es' w'
  end.

(** The piece as its first block finds it. *)
Definition fresh (index_ length_ : Z) (completion_handler_ : nat) : world :=
  World (partial_piece.new index_ length_ completion_handler_) ∅ Idle [].

(** *** save_block *)

(** [disk_io::torrent_entry], as far as [save_block] uses it: the id,
    the lengths of the torrent's pieces (of the storage), and the pieces
    in progress. *)
Record torrent_entry : Type := TorrentEntry {
  id : Z;
  piece_lengths : list Z;
  write_buffer : list partial_piece.t
}.

Definition with_piece (p : partial_piece.t) (t : torrent_entry)
  : torrent_entry :=
  TorrentEntry (id t) (piece_lengths t)
    (if existsb (λ q, bool_decide (index q = index p)) (write_buffer t)
     then (λ q, if bool_decide (index q = index p) then p else q)
            <$> write_buffer t
     else write_buffer t ++ [p]).

(** Modelled from the spec: [disk_io::save_block] is only declared.
    Section 4.F, steps 1 to 5.  The torrent is located by its id (an id
    that names no torrent fails an assertion: [None]); an invalid block
    gets [save_cb(invalid_block)]; the piece is located, or created with
    the caller's completion handler; a block that is saved already gets
    [save_cb(duplicate_block)] and the call returns; otherwise steps 4 and
    5 on the piece. *)
Definition save_block (torrents : list torrent_entry) (tid : Z)
    (piece_index : Z) (b : block.t) (piece_completion_handler : nat)
  : option (list torrent_entry * list effect) :=
  t ← find (λ t, bool_decide (id t = tid)) torrents;
  match piece_lengths t !! Z.to_nat piece_index with
  | Some len =>
      let p := default (partial_piece.new piece_index len
                          piece_completion_handler)
                 (find (λ q, bool_decide (index q = piece_index))
                    (write_buffer t)) in
      if bool_decide (0 <= piece_index) && block_in_piece b p
      then
        if is_saved b p
        then Some (torrents,
                   [InvokeSaveHandler (block.save_handler b)
                      (Some duplicate_block)])
        else
          let '(p', es) := buffer_block b p in
          Some ((λ t', if bool_decide (id t' = tid)
                       then with_piece p' t' else t') <$> torrents, es)
      else Some (torrents,
                 [InvokeSaveHandler (block.save_handler b) (Some invalid_block)])
  | None => Some (torrents,
                  [InvokeSaveHandler (block.save_handler b) (Some invalid_block)])
  end.

(** *** The order of hashing *)

(** The chunks fed to a hasher are blocks taken for the piece, each
    beginning where the one before it ends, the first at [start]. *)
Fixpoint in_offset_order (taken : list (Z * list Byte.byte)) (start : Z)
    (chunks : list (list Byte.byte)) : Prop :=
  match chunks with
  | [] => True
  | d :: rest =>
      (start, d) ∈ taken /\ d ≠ [] /\
      in_offset_order taken (start + Z.of_nat (List.length d)) rest
  end.

(** The number of bytes fed. *)
Definition fed_length (chunks : list (list Byte.byte)) : Z :=
  Z.of_nat (List.length (concat chunks)).

(** A block of the piece: it was taken by [save_block], and it has
    bytes. *)
Definition taken_block (taken : list (Z * list Byte.byte)) (b : block.t)
  : Prop :=
  (block.offset b, block.buffer b) ∈ taken /\ block.buffer b ≠ [].

(** The blocks in the piece's buffers and in its storage are blocks of the
    piece, and the hasher was fed blocks of the piece in offset order from
    0 up to [unhashed_offset]. *)
Definition blocks_taken (taken : list (Z * list Byte.byte))
    (p : partial_piece.t) (st : gmap Z (list Byte.byte)) : Prop :=
  in_offset_order taken 0 (sha1_hasher.context_ (hasher p)) /\
  unhashed_offset p = fed_length (sha1_hasher.context_ (hasher p)) /\
  Forall (taken_block taken) (buffer p ++ work_buffer p) /\
  (forall o d, st !! o = Some d -> (o, d) ∈ taken /\ d ≠ []).

(** A piece is busy while its job is posted or has run, and its
    [work_buffer] is empty while it is not busy; the blocks handed to
    [hash_and_save_blocks] are hashable, and once the job has run they are
    the chunks that the hasher was fed last; the blocks a worker reports
    as not written are blocks of the piece. *)
Definition phase_ok (taken : list (Z * list Byte.byte)) (s : phase)
    (p : partial_piece.t) : Prop :=
  match s with
  | Idle => is_busy p = false /\ work_buffer p = []
  | Posted j =>
      is_busy p = true /\
      (j = hash_and_save_blocks ->
       contiguous_from (unhashed_offset p) (work_buffer p)
       = List.length (work_buffer p))
  | Ran j (Saved saved failed) =>
      is_busy p = true /\ Forall (taken_block taken) failed /\
      (j = hash_and_save_blocks ->
       (block.buffer <$> saved ++ failed)
         `suffix_of` sha1_hasher.context_ (hasher p))
  | Ran j (Hashed _) => is_busy p = true
  | Finished => True
  end.

(** What the pipeline keeps true of a piece. *)
Definition hashing_invariant (w : world) : Prop :=
  blocks_taken (accepted w) (piece w) (storage w) /\
  phase_ok (accepted w) (state w) (piece w).

(** *** The bytes of the piece *)

(** The bytes of the block at [offset] of a piece whose bytes are [data]:
    16 KiB of them, fewer at the end of the piece. *)
Definition block_bytes (data : list Byte.byte) (offset : Z) : list Byte.byte :=
  take (Z.to_nat block_size) (drop (Z.to_nat offset) data).

(** The block that arrives, if one does, holds the bytes that the piece
    [data] has at the block's offset. *)
Definition carries (data : list Byte.byte) (e : event) : Prop :=
  match e with
  | BlockArrives b => block.buffer b = block_bytes data (block.offset b)
  | _ => True
  end.

(** A block of the piece [data]. *)
Definition block_of (data : list Byte.byte) (b : block.t) : Prop :=
  0 <= block.offset b < Z.of_nat (List.length data) /\
  block.offset b mod block_size = 0 /\
  block.buffer b = block_bytes data (block.offset b).

(** The hasher was fed the first [unhashed_offset] bytes of the piece, up
    to a block boundary or to the end of the piece. *)
Definition hashed_prefix (data : list Byte.byte) (p : partial_piece.t)
  : Prop :=
  0 <= unhashed_offset p <= Z.of_nat (List.length data) /\
  (unhashed_offset p mod block_size = 0 \/
   unhashed_offset p = Z.of_nat (List.length data)) /\
  concat (sha1_hasher.context_ (hasher p))
  = take (Z.to_nat (unhashed_offset p)) data.

(** Every block position of the piece is saved or has a block in
    [work_buffer]. *)
Definition covered (p : partial_piece.t) : Prop :=
  forall i : nat, (i < Z.to_nat (num_blocks p))%nat ->
    save_progress p !! i = Some true \/
    exists b, b ∈ work_buffer p /\ block.offset b = Z.of_nat i * block_size.

(** The worker has run [handle_complete_piece]. *)
Definition hashed (s : phase) : Prop :=
  match s with
  | Ran _ (Hashed _) | Finished => True
  | _ => False
  end.

(** What the pipeline keeps true of the piece [index_] while the blocks
    that arrive are blocks of [data]: the buffered blocks and the storage
    hold the piece's bytes, a saved position is in the storage, the hasher
    was fed a prefix of the piece; the blocks of a complete piece cover
    it, and once [handle_complete_piece] has run the whole piece is hashed
    and the verdict is that on the digest of [data]. *)
Definition piece_invariant (index_ : Z) (data : list Byte.byte) (w : world)
  : Prop :=
  let p := piece w in
  index p = index_ /\
  length p = Z.of_nat (List.length data) /\
  Forall (block_of data) (buffer p ++ work_buffer p) /\
  (forall o d, storage w !! o = Some d -> d = block_bytes data o) /\
  (forall i : nat, save_progress p !! i = Some true ->
     is_Some (storage w !! (Z.of_nat i * block_size))) /\
  hashed_prefix data p /\
  match state w with
  | Idle => True
  | Posted j => j = handle_complete_piece -> covered p
  | Ran _ (Saved saved failed) =>
      Forall (λ b, block_of data b /\ is_Some (storage w !! block.offset b))
        saved /\
      Forall (block_of data) failed
  | Ran _ (Hashed is_valid) =>
      unhashed_offset p = length p /\
      is_valid = bool_decide (sha1 data = expected_hash index_)
  | Finished => unhashed_offset p = length p
  end.

End pipeline.
End disk_io.

(** ** Closed examples of the write pipeline *)

(** A stand-in for SHA-1 in the examples: the order in which the pipeline
    feeds the hasher does not depend on the digest. *)
Definition byte_count (bytes : list Byte.byte) : Z :=
  Z.of_nat (List.length bytes).

(** A block of 16 KiB. *)
Definition full_block (offset : Z) (x : Byte.byte) (save_handler : nat)
  : block.t :=
  block.mk (replicate (Z.to_nat block_size) x) offset
    save_handler.

(** A piece of four blocks, with [L = 4] and [C = 3]: the blocks at 0,
    32768 and 49152 arrive and are flushed, then the block at 16384 arrives
    and the piece is hashed. *)
Definition out_of_order_blocks : list disk_io.event :=
  [disk_io.BlockArrives (full_block 0 Byte.x00 1);
   disk_io.BlockArrives (full_block 32768 Byte.x02 2);
   disk_io.BlockArrives (full_block 49152 Byte.x03 3);
   disk_io.WorkerRuns []; disk_io.CompletionRuns;
   disk_io.BlockArrives (full_block 16384 Byte.x01 4);
   disk_io.WorkerRuns []; disk_io.CompletionRuns].

(** The bytes of the piece whose blocks [out_of_order_blocks] brings. *)
Definition four_block_piece : list Byte.byte :=
  replicate (Z.to_nat block_size) Byte.x00
  ++ replicate (Z.to_nat block_size) Byte.x01
  ++ replicate (Z.to_nat block_size) Byte.x02
  ++ replicate (Z.to_nat block_size) Byte.x03.

(** The first block of a piece arrives, the expiry timer flushes it, and
    the block is saved. *)
Definition first_block_saved : list disk_io.event :=
  [disk_io.BlockArrives (full_block 0 Byte.x00 1); disk_io.TimerExpires;
   disk_io.WorkerRuns []; disk_io.CompletionRuns].

(** The torrent 7 of one piece of four blocks, with the piece [p] in
    progress. *)
Definition one_piece_torrent (p : partial_piece.t)
  : list disk_io.torrent_entry :=
  [disk_io.TorrentEntry 7 [65536] [p]].

(** ** Observations of the cache *)

Section observations.
Context {K : Type} `{Countable K} {V F : Type} `{!FrequencySketch K F}.
Import wtinylfu_cache.

(** The value the cache holds for a key: what [it->second->data] reads
    once [m_page_map.find(key)] has found the key. *)
Definition cached (k : K) (c : wtinylfu_cache.t K V F) : option V :=
  pos ← m_page_map c !! k; data <$> nodes c !! pos.

(** The value the calls [os], made in this order, have last given to [k]:
    that of the last [insert(k, d)], unless an [erase(k)] follows it. *)
Fixpoint written (k : K) (os : list (op K V)) (v : option V) : option V :=
  match os with
  | [] => v
  | Insert k' d :: os' => written k os' (if decide (k' = k) then Some d else v)
  | Erase k' :: os' => written k os' (if decide (k' = k) then None else v)
  | _ :: os' => written k os' v
  end.

(** The sketch after the calls [os]: a [get] records an access, a
    [change_capacity] that does not throw resizes the sketch, and no other
    call reaches it. *)
Definition sketch_after (os : list (op K V)) (f : F) : F :=
  foldl (λ f o, match o with
                | Get k => record_access k f
                | ChangeCapacity n =>
                    if bool_decide (n <= 0) then f
                    else sketch_change_capacity n f
                | _ => f
                end) f os.

End observations.

Section steady_caches.
Context {K : Type} `{Countable K} {V F : Type} `{!FrequencySketch K F}.
Import wtinylfu_cache.

(** The caches on which every [get] and [insert] is defined: a [sound]
    cache whose safe segment alone does not fill the main cache, the
    probationary segment having a capacity of 0 or more. *)
Definition steady (c : wtinylfu_cache.t K V F) : Prop :=
  sound c /\
  0 <= lru.capacity (slru.m_probationary (m_main c)) /\
  lru.size (slru.m_safe (m_main c)) < slru.capacity (m_main c).

End steady_caches.

(** ** [disk_io_errc] compared with an [int] *)

(** [operator==(disk_io_errc, int)] *)
Definition errc_eq (e : disk_io_errc) (i : Z) : bool :=
  bool_decide (errc_value e = i).

(** [operator!=(int, disk_io_errc)] *)
Definition errc_ne (i : Z) (e : disk_io_errc) : bool := negb (errc_eq e i).

(** ** The range of [int] *)

(** [INT_MIN] and [INT_MAX] of the 32 bit [int]. *)
Definition int_min : Z := - 2 ^ 31.
Definition int_max : Z := 2 ^ 31 - 1.

(** [a + b] on two [int]s: a sum outside the range of [int] is a signed
    overflow, which is undefined behaviour. *)
Definition int_add (a b : Z) : option Z :=
  if bool_decide (int_min <= a + b <= int_max) then Some (a + b) else None.

Section int_range.
Context {K : Type} `{Countable K} {V F : Type} `{!FrequencySketch K F}.
Import wtinylfu_cache.

(** [slru::capacity()], [wtinylfu_cache::capacity()] and
    [wtinylfu_cache::size()] with their additions made in [int]. *)
Definition slru_capacity_int (s : slru.t) : option Z :=
  int_add (lru.capacity (slru.m_safe s))
    (lru.capacity (slru.m_probationary s)).

Definition capacity_int (c : wtinylfu_cache.t K V F) : option Z :=
  m ← slru_capacity_int (m_main c); int_add (lru.capacity (m_window c)) m.

Definition size_int (c : wtinylfu_cache.t K V F) : option Z :=
  m ← int_add (lru.size (slru.m_safe (m_main c)))
        (lru.size (slru.m_probationary (m_main c)));
  int_add (lru.size (m_window c)) m.

(** The capacities of the three segments are not negative and sum to
    [INT_MAX] at most: no sum that [capacity()] makes overflows. *)
Definition within_int (c : wtinylfu_cache.t K V F) : Prop :=
  0 <= lru.capacity (m_window c) /\
  0 <= lru.capacity (slru.m_safe (m_main c)) /\
  0 <= lru.capacity (slru.m_probationary (m_main c)) /\
  capacity c <= int_max.

(** A call a program can make: the argument of [change_capacity] is an
    [int]. *)
Definition int_call (o : op K V) : Prop :=
  match o with ChangeCapacity n => n <= int_max | _ => True end.


End int_range.

(* ================================================================== *)
(** * Part II: the properties *)
(* ================================================================== *)

Section f32_facts.
Import F32.

Lemma rne_bounds v s : 0 <= s -> v / 2 ^ s <= rne v s <= v / 2 ^ s + 1.
Proof. intros _. unfold rne. destruct (_ || _); lia. Qed.

Lemma rne_exact_or_up v s :
  0 < s ->
  rne v s * 2 ^ s <= v \/ (rne v s = v / 2 ^ s + 1 /\ v / 2 ^ s * 2 ^ s < v).
Proof.
  intros Hs. unfold rne.
  assert (Hp : 0 < 2 ^ s) by (apply Z.pow_pos_nonneg; lia).
  assert (Hh : 0 < 2 ^ (s - 1)) by (apply Z.pow_pos_nonneg; lia).
  pose proof (Z.div_mod v (2 ^ s) ltac:(lia)) as Hdm.
  pose proof (Z.mod_pos_bound v (2 ^ s) Hp) as Hr.
  destruct (_ || _) eqn:E.
  - right. split; [done|].
    apply orb_true_iff in E as [E|E].
    + apply Z.ltb_lt in E. lia.
    + apply andb_true_iff in E as [E _]. apply Z.eqb_eq in E. lia.
  - left. lia.
Qed.

Lemma round24_nonneg v : 0 <= v -> 0 <= round24 v.
Proof.
  intros Hv. unfold round24. destruct (Z.abs v <? 2 ^ 24) eqn:E; [done|].
  apply Z.ltb_ge in E. rewrite Z.abs_eq in * by done.
  assert (24 <= Z.log2 v) by (apply Z.log2_le_pow2; lia).
  set (s := Z.log2 v - 23).
  assert (0 < 2 ^ s) by (apply Z.pow_pos_nonneg; lia).
  pose proof (rne_bounds v s ltac:(lia)).
  assert (0 <= v / 2 ^ s) by (apply Z.div_pos; lia).
  nia.
Qed.


Lemma round24_le_repr v b : 0 <= v -> v <= b -> repr24 b -> round24 v <= b.
Proof.
  intros Hv Hvb (m & e & Hm & He & ->). unfold round24.
  destruct (Z.abs v <? 2 ^ 24) eqn:E; [done|].
  apply Z.ltb_ge in E. rewrite Z.abs_eq in * by done.
  assert (H24 : 24 <= Z.log2 v) by (apply Z.log2_le_pow2; lia).
  set (s := Z.log2 v - 23).
  assert (Hp : 0 < 2 ^ s) by (apply Z.pow_pos_nonneg; lia).
  destruct (rne_exact_or_up v s ltac:(lia)) as [Hle | [-> Hlt]]; [lia|].
  assert (Hq : 2 ^ 23 <= v / 2 ^ s).
  { apply Z.div_le_lower_bound; [done|].
    rewrite Z.mul_comm, <- Z.pow_add_r by lia.
    replace (23 + s) with (Z.log2 v) by lia.
    apply Z.log2_spec. lia. }
  destruct (Z_lt_le_dec e s) as [Hes | Hes].
  - exfalso.
    assert (2 ^ e * 2 <= 2 ^ s).
    { replace s with (e + 1 + (s - e - 1)) by lia.
      rewrite !Z.pow_add_r by lia. 
      assert (0 < 2 ^ (s - e - 1)) by (apply Z.pow_pos_nonneg; lia).
      assert (0 < 2 ^ e) by (apply Z.pow_pos_nonneg; lia).
      change (2 ^ 1) with 2. nia. }
    assert (0 < 2 ^ e) by (apply Z.pow_pos_nonneg; lia).
    change (2 ^ 24) with (2 ^ 23 * 2) in Hm. nia.
  - replace e with (s + (e - s)) in * by lia.
    rewrite Z.pow_add_r in * by lia.
    assert (0 < 2 ^ (e - s)) by (apply Z.pow_pos_nonneg; lia).
    set (q := v / 2 ^ s) in *. set (t := 2 ^ (e - s)) in *.
    assert (q < m * t) by nia.
    nia.
Qed.

Lemma round24_repr v : 0 <= v -> repr24 (round24 v).
Proof.
  intros Hv. unfold round24.
  destruct (Z.abs v <? 2 ^ 24) eqn:E.
  - apply Z.ltb_lt in E. rewrite Z.abs_eq in E by done.
    exists v, 0. rewrite Z.mul_1_r. lia.
  - apply Z.ltb_ge in E. rewrite Z.abs_eq in * by done.
    assert (H24 : 24 <= Z.log2 v) by (apply Z.log2_le_pow2; lia).
    set (s := Z.log2 v - 23).
    assert (Hp : 0 < 2 ^ s) by (apply Z.pow_pos_nonneg; lia).
    exists (rne v s), s. split; [|split; [lia|done]].
    pose proof (rne_bounds v s ltac:(lia)).
    assert (0 <= v / 2 ^ s) by (apply Z.div_pos; lia).
    assert (v / 2 ^ s < 2 ^ 24).
    { apply Z.div_lt_upper_bound; [done|].
      rewrite <- Z.pow_add_r by lia.
      replace (s + 24) with (Z.succ (Z.log2 v)) by lia.
      apply Z.log2_spec. lia. }
    lia.
Qed.

Lemma repr24_shift b k : 0 <= k -> repr24 b -> repr24 (b * 2 ^ k).
Proof.
  intros Hk (m & e & Hm & He & ->). exists m, (e + k).
  rewrite Z.pow_add_r by lia. split; [done|]. split; [lia|ring].
Qed.


Lemma round24_of_int_le n : 1 <= n -> round24 n <= 2 * n.
Proof.
  intros Hn. destruct (Z.eq_dec n 1) as [->|Hne]; [done|].
  assert (Hs := Z.log2_up_spec n ltac:(lia)).
  assert (0 < Z.log2_up n) by (apply Z.log2_up_pos; lia).
  etrans.
  - apply (round24_le_repr n (2 ^ Z.log2_up n)); [lia|lia|].
    exists 1, (Z.log2_up n). split; [lia|]. split; [lia|ring].
  - replace (Z.log2_up n) with (Z.pred (Z.log2_up n) + 1) by lia.
    rewrite Z.pow_add_r by lia. lia.
Qed.

Lemma mul_const_le c x :
  0 <= c <= 2 ^ 24 -> 0 <= x -> repr24 x -> round24 (c * x) <= x * 2 ^ 24.
Proof.
  intros Hc Hx Hr. apply round24_le_repr; [nia|nia|].
  by apply repr24_shift.
Qed.

End f32_facts.

Lemma get_window_capacity_ge_1 n : 1 <= wtinylfu_cache.get_window_capacity n.
Proof. unfold wtinylfu_cache.get_window_capacity. lia. Qed.

Lemma get_window_capacity_le n :
  1 <= n -> wtinylfu_cache.get_window_capacity n <= n.
Proof.
  intros Hn. unfold wtinylfu_cache.get_window_capacity.
  apply Z.max_lub; [done|].
  unfold F32.to_int, F32.ceil, F32.mul, F32.of_int, F32.c0_01; simpl F32.num; simpl F32.scale.
  change (30 + 0) with 30.
  rewrite Z.quot_mul by lia.
  set (x := F32.round24 n).
  assert (Hx0 : 0 <= x) by (apply round24_nonneg; lia).
  assert (Hx : x <= 2 * n) by (by apply round24_of_int_le).
  assert (Hy : F32.round24 (10737418 * x) <= x * 2 ^ 24).
  { apply mul_const_le; [lia|done|]. apply round24_repr. lia. }
  set (y := F32.round24 (10737418 * x)) in *.
  assert (- n <= - y / 2 ^ 30); [|lia].
  apply Z.div_le_lower_bound; lia.
Qed.

Lemma slru_new_capacities c :
  0 <= c ->
  0 <= lru.capacity (slru.m_safe (slru.new c)) /\
  0 <= lru.capacity (slru.m_probationary (slru.new c)).
Proof.
  intros Hc. unfold slru.new, lru.capacity, lru.new; simpl.
  unfold F32.to_int, F32.sub, F32.mul, F32.of_int, F32.c0_8; simpl F32.num; simpl F32.scale.
  change (24 + 0) with 24. change (Z.max 0 24) with 24.
  change (24 - 0) with 24. change (24 - 24) with 0.
  set (x := F32.round24 c).
  assert (Hx0 : 0 <= x) by (apply round24_nonneg; lia).
  assert (Hy : F32.round24 (13421773 * x) <= x * 2 ^ 24).
  { apply mul_const_le; [lia|done|]. apply round24_repr. lia. }
  assert (Hy0 : 0 <= F32.round24 (13421773 * x)) by (apply round24_nonneg; lia).
  set (y := F32.round24 (13421773 * x)) in *.
  split.
  - apply Z.quot_pos; lia.
  - apply Z.quot_pos; [|lia]. apply round24_nonneg. lia.
Qed.
Lemma unlink_length pos l l' :
  unlink pos l = Some l' -> length l = S (length l').
Proof.
  revert l'. induction l as [|x l IH]; intros l' Hu; simpl in *; [done|].
  case_decide; simplify_option_eq; [done|].
  f_equal. by apply IH.
Qed.

Lemma unlink_Permutation pos l l' :
  unlink pos l = Some l' -> l ≡ₚ pos :: l'.
Proof.
  revert l'. induction l as [|x l IH]; intros l' Hu; simpl in *; [done|].
  case_decide; simplify_option_eq; [done|].
  rewrite (IH _ eq_refl). apply Permutation_swap.
Qed.

Lemma unlink_is_Some pos l : pos ∈ l -> is_Some (unlink pos l).
Proof.
  induction l as [|x l IH]; intros Hin; simpl.
  - by apply elem_of_nil in Hin.
  - case_decide; [by eexists|].
    apply elem_of_cons in Hin as [->|Hin]; [done|].
    destruct (IH Hin) as [l' ->]. by eexists.
Qed.

Lemma unlink_last pos l : pos ∉ l -> unlink pos (l ++ [pos]) = Some l.
Proof.
  induction l as [|x l IH]; intros Hin; simpl.
  - by rewrite decide_True.
  - apply not_elem_of_cons in Hin as [Hne Hin].
    rewrite decide_False by done. by rewrite IH.
Qed.

Section lru_facts.

Lemma lru_erase_size pos c c' :
  lru.erase pos c = Some c' ->
  lru.size c' = lru.size c - 1 /\ lru.capacity c' = lru.capacity c.
Proof.
  unfold lru.erase, lru.size, lru.capacity. intros Hc.
  destruct (unlink pos (lru.m_lru c)) as [l|] eqn:Hu; simplify_option_eq.
  apply unlink_length in Hu. lia.
Qed.

Lemma lru_evict_size c c' :
  lru.evict c = Some c' ->
  lru.size c' = lru.size c - 1 /\ lru.capacity c' = lru.capacity c.
Proof.
  unfold lru.evict. intros Hc.
  destruct (lru.get_lru_pos c); simplify_option_eq. by eapply lru_erase_size.
Qed.

Lemma lru_insert_size pos c :
  lru.size (lru.insert pos c) = lru.size c + 1 /\
  lru.capacity (lru.insert pos c) = lru.capacity c.
Proof. unfold lru.insert, lru.size, lru.capacity. simpl. lia. Qed.

Lemma lru_transfer_size pos c s c' s' :
  lru.transfer_page_from pos c s = Some (c', s') ->
  (lru.size c' = lru.size c + 1 /\ lru.capacity c' = lru.capacity c) /\
  (lru.size s' = lru.size s - 1 /\ lru.capacity s' = lru.capacity s).
Proof.
  unfold lru.transfer_page_from. intros Hc.
  destruct (lru.erase pos s) eqn:He; simplify_option_eq.
  split; [apply lru_insert_size | by eapply lru_erase_size].
Qed.

Lemma lru_handle_hit_size pos c c' :
  lru.handle_hit pos c = Some c' ->
  lru.size c' = lru.size c /\ lru.capacity c' = lru.capacity c.
Proof.
  unfold lru.handle_hit. intros Hc.
  destruct (lru.erase pos c) as [c1|] eqn:He; simplify_option_eq.
  apply lru_erase_size in He. pose proof (lru_insert_size pos c1) as Hi.
  unfold lru.capacity in *. simpl in *. lia.
Qed.

End lru_facts.

Section slru_facts.
Context {K V : Type}.
Implicit Types nodes : gmap page_position (page K V).

Lemma slru_evict_size s s' :
  slru.evict s = Some s' ->
  slru.size s' = slru.size s - 1 /\ slru.capacity s' = slru.capacity s.
Proof.
  unfold slru.evict, slru.size, slru.capacity. intros Hs.
  destruct (lru.evict _) eqn:He; simplify_option_eq.
  apply lru_evict_size in He. lia.
Qed.

Lemma slru_erase_size pos nodes s s' :
  slru.erase pos nodes s = Some s' ->
  slru.size s' = slru.size s - 1 /\ slru.capacity s' = slru.capacity s.
Proof.
  unfold slru.erase, slru.size, slru.capacity. intros Hs.
  destruct (nodes !! pos); simplify_option_eq;
    match goal with H : lru.erase _ _ = Some _ |- _ =>
      apply lru_erase_size in H end; lia.
Qed.

Lemma slru_transfer_size pos src nodes s nodes' s' src' :
  slru.transfer_page_from pos src nodes s = Some (nodes', s', src') ->
  (slru.size s' = slru.size s + 1 /\ slru.capacity s' = slru.capacity s) /\
  (lru.size src' = lru.size src - 1 /\ lru.capacity src' = lru.capacity src).
Proof.
  unfold slru.transfer_page_from, slru.size, slru.capacity. intros Hs.
  destruct (lru.transfer_page_from _ _ _) as [[pr src1]|] eqn:Ht;
    simplify_option_eq.
  apply lru_transfer_size in Ht. lia.
Qed.

Lemma slru_promote_size pos nodes s nodes' s' :
  slru.promote_to_safe pos nodes s = Some (nodes', s') ->
  slru.size s' = slru.size s /\ slru.capacity s' = slru.capacity s.
Proof.
  unfold slru.promote_to_safe, slru.size, slru.capacity. intros Hs.
  destruct (lru.transfer_page_from _ _ _) as [[sf pr]|] eqn:Ht;
    simplify_option_eq.
  apply lru_transfer_size in Ht. lia.
Qed.

Lemma slru_demote_size pos nodes s nodes' s' :
  slru.demote_to_probationary pos nodes s = Some (nodes', s') ->
  slru.size s' = slru.size s /\ slru.capacity s' = slru.capacity s.
Proof.
  unfold slru.demote_to_probationary, slru.size, slru.capacity. intros Hs.
  destruct (lru.transfer_page_from _ _ _) as [[sf pr]|] eqn:Ht;
    simplify_option_eq.
  apply lru_transfer_size in Ht. lia.
Qed.

Lemma slru_handle_hit_size pos nodes s nodes' s' :
  slru.handle_hit pos nodes s = Some (nodes', s') ->
  slru.size s' = slru.size s /\ slru.capacity s' = slru.capacity s.
Proof.
  unfold slru.handle_hit. intros Hs.
  destruct (nodes !! pos) as [p|]; simpl in Hs; [|done].
  destruct (cache_type p); [done| |].
  - destruct (slru.promote_to_safe _ _ _) as [[n1 s1]|] eqn:Hp;
      simpl in Hs; [|done].
    apply slru_promote_size in Hp.
    destruct (lru.is_full _); simplify_option_eq; [|done].
    match goal with H : slru.demote_to_probationary _ _ _ = Some _ |- _ =>
      apply slru_demote_size in H end. lia.
  - destruct (lru.handle_hit _ _) eqn:Hh; simplify_option_eq.
    apply lru_handle_hit_size in Hh.
    unfold slru.size, slru.capacity; simpl. lia.
Qed.

End slru_facts.

Section cache_size_facts.
Context {K : Type} `{Countable K} {V F : Type} `{!FrequencySketch K F}.
Import wtinylfu_cache.
Implicit Types c : wtinylfu_cache.t K V F.



Lemma evict_from_main_resized c c' :
  evict_from_main c = Some c' -> resized 0 (-1) c c'.
Proof.
  unfold evict_from_main, resized. intros Hc.
  destruct (slru.evict (m_main c)) eqn:He; simplify_option_eq.
  apply slru_evict_size in He. lia.
Qed.

Lemma evict_from_window_resized c c' :
  evict_from_window c = Some c' -> resized (-1) 0 c c'.
Proof.
  unfold evict_from_window, resized. intros Hc.
  destruct (lru.evict (m_window c)) eqn:He; simplify_option_eq.
  apply lru_evict_size in He. unfold lru.capacity in *. lia.
Qed.

Lemma transfer_window_victim_resized c c' :
  transfer_window_victim c = Some c' -> resized (-1) 1 c c'.
Proof.
  unfold transfer_window_victim, resized. intros Hc.
  destruct (lru.get_lru_pos _) as [pos|]; simpl in Hc; [|done].
  destruct (slru.transfer_page_from _ _ _ _) as [[[n m] w]|] eqn:Ht;
    simplify_option_eq.
  apply slru_transfer_size in Ht. unfold lru.capacity in *. lia.
Qed.

Lemma evict_from_window_or_main_resized c c' :
  evict_from_window_or_main c = Some c' ->
  resized (-1) 0 c c'.
Proof.
  unfold evict_from_window_or_main. intros Hc.
  destruct (lru.get_victim_key _ _) as [wk|]; simpl in Hc; [|done].
  destruct (slru.get_victim_key _ _) as [mk_|]; simpl in Hc; [|done].
  case_bool_decide.
  - destruct (evict_from_main c) as [c1|] eqn:He; simpl in Hc; [|done].
    apply evict_from_main_resized in He.
    apply transfer_window_victim_resized in Hc.
    unfold resized in *. lia.
  - by apply evict_from_window_resized.
Qed.

Lemma evict_resized c c' :
  evict c = Some c' ->
  resized (-1) 0 c c' \/ (size c < capacity c /\ resized (-1) 1 c c').
Proof.
  unfold evict. intros Hc. case_bool_decide.
  - left. by apply evict_from_window_or_main_resized.
  - right. split; [lia|]. by apply transfer_window_victim_resized.
Qed.

Lemma insert_bounded k d c c' :
  bounded c -> insert k d c = Some c' -> bounded c'.
Proof.
  unfold insert, assign_or_emplace, bounded. intros [Hw Hm] Hc.
  destruct (lru.is_full (m_window c)) eqn:Hfull.
  - apply bool_decide_eq_true in Hfull.
    destruct (evict c) as [c1|] eqn:He; simpl in Hc; [|done].
    assert (lru.size (m_window c1) = lru.size (m_window c) - 1 /\
            lru.capacity (m_window c1) = lru.capacity (m_window c) /\
            slru.size (m_main c1) <= slru.capacity (m_main c1)) as (?&?&?).
    { apply evict_resized in He as [He|[Hlt He]];
        unfold resized, size, capacity in *; lia. }
    destruct (m_page_map c1 !! k); simplify_option_eq;
      unfold lru.size, lru.capacity in *; simpl in *; lia.
  - apply bool_decide_eq_false in Hfull. simpl in Hc.
    destruct (m_page_map c !! k); simplify_option_eq;
      unfold lru.size, lru.capacity in *; simpl in *; lia.
Qed.

Lemma handle_hit_resized pos c c' :
  handle_hit pos c = Some c' -> resized 0 0 c c'.
Proof.
  unfold handle_hit, resized. intros Hc.
  destruct (nodes c !! pos) as [p|]; simpl in Hc; [|done].
  case_decide.
  - destruct (lru.handle_hit _ _) eqn:Hh; simplify_option_eq.
    apply lru_handle_hit_size in Hh. unfold lru.capacity in *. lia.
  - destruct (slru.handle_hit _ _ _) as [[n m]|] eqn:Hh; simplify_option_eq.
    apply slru_handle_hit_size in Hh. lia.
Qed.

Lemma get_bounded k c c' r :
  bounded c -> get k c = Some (c', r) -> bounded c'.
Proof.
  unfold get, bounded. simpl. intros Hb Hc.
  destruct (m_page_map c !! k) as [pos|]; [|by simplify_option_eq].
  destruct (handle_hit pos _) as [c1|] eqn:Hh; simplify_option_eq.
  apply handle_hit_resized in Hh. unfold resized in Hh. simpl in Hh. lia.
Qed.

Lemma erase_bounded k c c' :
  bounded c -> erase k c = Some c' -> bounded c'.
Proof.
  unfold erase, bounded. intros Hb Hc.
  destruct (m_page_map c !! k) as [pos|]; [|by simplify_option_eq].
  destruct (nodes c !! pos) as [p|]; simpl in Hc; [|done].
  case_decide.
  - destruct (lru.erase _ _) eqn:He; simplify_option_eq.
    apply lru_erase_size in He. unfold lru.capacity in *. lia.
  - destruct (slru.erase _ _ _) eqn:He; simplify_option_eq.
    apply slru_erase_size in He. lia.
Qed.

Lemma evict_window_loop_not_full rounds c c' :
  evict_window_loop rounds c = Some c' ->
  lru.size (m_window c') < lru.capacity (m_window c') /\
  slru.size (m_main c') = slru.size (m_main c) /\
  slru.capacity (m_main c') = slru.capacity (m_main c).
Proof.
  revert c. induction rounds as [|r IH]; intros c Hc; simpl in Hc.
  - destruct (lru.is_full _) eqn:Hf; [done|]. simplify_eq.
    apply bool_decide_eq_false in Hf. lia.
  - destruct (lru.is_full _) eqn:Hf.
    + destruct (evict_from_window c) as [c1|] eqn:He; simpl in Hc; [|done].
      apply evict_from_window_resized in He. apply IH in Hc.
      unfold resized in He. lia.
    + simplify_eq. apply bool_decide_eq_false in Hf. lia.
Qed.

Lemma evict_main_loop_not_full rounds c c' :
  evict_main_loop rounds c = Some c' ->
  slru.size (m_main c') < slru.capacity (m_main c') /\
  lru.size (m_window c') = lru.size (m_window c) /\
  lru.capacity (m_window c') = lru.capacity (m_window c).
Proof.
  revert c. induction rounds as [|r IH]; intros c Hc; simpl in Hc.
  - destruct (slru.is_full _) eqn:Hf; [done|]. simplify_eq.
    apply bool_decide_eq_false in Hf. lia.
  - destruct (slru.is_full _) eqn:Hf.
    + destruct (evict_from_main c) as [c1|] eqn:He; simpl in Hc; [|done].
      apply evict_from_main_resized in He. apply IH in Hc.
      unfold resized in He. lia.
    + simplify_eq. apply bool_decide_eq_false in Hf. lia.
Qed.

Lemma change_capacity_bounded n c c' :
  change_capacity n c = Some (inr c') -> bounded c'.
Proof.
  unfold change_capacity, bounded. intros Hc.
  case_bool_decide; [done|].
  destruct (evict_window_loop _ _) as [c1|] eqn:H1; simpl in Hc; [|done].
  destruct (evict_main_loop _ _) as [c2|] eqn:H2; simplify_option_eq.
  apply evict_window_loop_not_full in H1.
  apply evict_main_loop_not_full in H2. lia.
Qed.

Lemma step_bounded o c c' : bounded c -> step o c = Some c' -> bounded c'.
Proof.
  intros Hb Hs. destruct o as [k|k d|k|n]; simpl in Hs.
  - destruct (get k c) as [[c1 r]|] eqn:Hg; simplify_option_eq.
    by eapply get_bounded.
  - by eapply insert_bounded.
  - by eapply erase_bounded.
  - destruct (change_capacity n c) as [[e|c1]|] eqn:Hc; simplify_option_eq;
      [done|]. by eapply change_capacity_bounded.
Qed.

Lemma run_bounded os c c' : bounded c -> run os c = Some c' -> bounded c'.
Proof.
  revert c. induction os as [|o os IH]; intros c Hb Hr; simpl in Hr.
  - by simplify_eq.
  - destruct (step o c) as [c1|] eqn:Hs; simpl in Hr; [|done].
    eapply IH; [|done]. by eapply step_bounded.
Qed.

Lemma new_bounded (S : Z) : 1 <= S -> bounded (new S : wtinylfu_cache.t K V F).
Proof.
  intros HS. unfold bounded, new. simpl.
  pose proof (get_window_capacity_ge_1 S).
  pose proof (get_window_capacity_le S HS).
  destruct (slru_new_capacities (S - get_window_capacity S)) as [? ?];
    [unfold lru.capacity; simpl; lia|].
  unfold slru.size, slru.capacity, lru.size in *. simpl in *.
  unfold lru.capacity in *. simpl in *. lia.
Qed.


End cache_size_facts.

Lemma unlink_NoDup pos l l' :
  NoDup l -> unlink pos l = Some l' ->
  NoDup l' /\ forall x, x ∈ l' <-> x ∈ l /\ x ≠ pos.
Proof.
  intros Hnd Hu. pose proof (unlink_Permutation _ _ _ Hu) as Hp.
  rewrite Hp in Hnd. apply NoDup_cons in Hnd as [Hni Hnd].
  split; [done|]. intros x. rewrite Hp, elem_of_cons.
  split; [|by intros [[->|?] ?]]. intros Hx. split; [by right|]. by intros ->.
Qed.

Lemma unlink_Some_elem_of pos l l' : unlink pos l = Some l' -> pos ∈ l.
Proof.
  intros Hu. rewrite (unlink_Permutation _ _ _ Hu). apply elem_of_cons. by left.
Qed.

Lemma unlink_snoc pos l : NoDup (l ++ [pos]) -> unlink pos (l ++ [pos]) = Some l.
Proof.
  intros Hnd. apply unlink_last. apply NoDup_app in Hnd as (_ & Hd & _).
  intros Hin. apply (Hd _ Hin). apply elem_of_cons. by left.
Qed.

Section cache_wf.
Context {K : Type} `{Countable K} {V F : Type} `{!FrequencySketch K F}.
Import wtinylfu_cache.
Implicit Types c : wtinylfu_cache.t K V F.







Lemma segment_with_segment ct0 ct l c :
  segment ct0 (with_segment ct l c) =
  if decide (ct0 = ct) then l else segment ct0 c.
Proof. by destruct ct0, ct. Qed.

Lemma nodes_with_segment ct l c : nodes (with_segment ct l c) = nodes c.
Proof. by destruct ct. Qed.

Lemma page_map_with_segment ct l c :
  m_page_map (with_segment ct l c) = m_page_map c.
Proof. by destruct ct. Qed.

Lemma next_node_with_segment ct l c :
  next_node (with_segment ct l c) = next_node c.
Proof. by destruct ct. Qed.

Lemma wf_node_segment c pos p :
  wf c -> nodes c !! pos = Some p -> pos ∈ segment (cache_type p) c.
Proof. intros Hwf Hp. apply (wf_segment _ Hwf). eauto. Qed.

Lemma wf_segment_node c ct pos :
  wf c -> pos ∈ segment ct c ->
  exists p, nodes c !! pos = Some p /\ cache_type p = ct.
Proof. intros Hwf Hp. by apply (wf_segment _ Hwf). Qed.

Lemma wf_unlink_remove c pos p l' :
  wf c -> nodes c !! pos = Some p ->
  unlink pos (segment (cache_type p) c) = Some l' ->
  wf (without_page pos p (with_segment (cache_type p) l' c)).
Proof.
  intros Hwf Hp Hu.
  destruct (unlink_NoDup _ _ _ (wf_nodup _ Hwf _) Hu) as [Hnd Hmem].
  split.
  - intros ct. change (NoDup (segment ct (with_segment (cache_type p) l' c))).
    rewrite segment_with_segment. case_decide; [done|]. apply Hwf.
  - intros ct pos'.
    change (pos' ∈ segment ct (with_segment (cache_type p) l' c) <->
            exists p', delete pos (nodes (with_segment (cache_type p) l' c)) !! pos'
                       = Some p' /\ cache_type p' = ct).
    rewrite segment_with_segment, nodes_with_segment, lookup_delete.
    case_decide as Hct; case_decide as Hpos; subst.
    + rewrite Hmem. split; [by intros [_ ?]|]. by intros (? & ? & ?).
    + rewrite Hmem, (wf_segment _ Hwf). split; [tauto|].
      intros Hx. split; [done|congruence].
    + rewrite (wf_segment _ Hwf). split; [|by intros (? & ? & ?)].
      intros (p' & Hp' & Hct'). congruence.
    + apply Hwf.
  - intros k pos'.
    change (delete (key p) (m_page_map (with_segment (cache_type p) l' c)) !! k
            = Some pos' <->
            exists p', delete pos (nodes (with_segment (cache_type p) l' c)) !! pos'
                       = Some p' /\ key p' = k).
    rewrite page_map_with_segment, nodes_with_segment, !lookup_delete.
    case_decide as Hk; case_decide as Hpos; subst.
    + split; [done|]. by intros (? & ? & ?).
    + split; [done|]. intros (p' & Hp' & Hk').
      assert (m_page_map c !! key p = Some pos)
        by (apply (wf_page_map _ Hwf); eauto).
      assert (m_page_map c !! key p = Some pos')
        by (apply (wf_page_map _ Hwf); eauto).
      congruence.
    + rewrite (wf_page_map _ Hwf). split; [|by intros (? & ? & ?)].
      intros (p' & Hp' & Hk'). congruence.
    + apply Hwf.
  - intros pos'.
    change (is_Some (delete pos (nodes (with_segment (cache_type p) l' c)) !! pos')
            -> (pos' < next_node (with_segment (cache_type p) l' c))%nat).
    rewrite nodes_with_segment, next_node_with_segment, lookup_delete.
    case_decide; [by intros [? ?]|]. apply Hwf.
Qed.

Lemma wf_unlink_push c pos p l' ct' :
  wf c -> nodes c !! pos = Some p ->
  unlink pos (segment (cache_type p) c) = Some l' ->
  let c1 := with_segment (cache_type p) l' c in
  wf (with_page pos (Page (key p) ct' (data p))
        (with_segment ct' (pos :: segment ct' c1) c1)).
Proof.
  intros Hwf Hp Hu c1.
  destruct (unlink_NoDup _ _ _ (wf_nodup _ Hwf _) Hu) as [Hnd Hmem].
  assert (Hn1 : nodes c1 = nodes c) by apply nodes_with_segment.
  assert (Hm1 : m_page_map c1 = m_page_map c) by apply page_map_with_segment.
  assert (Hx1 : next_node c1 = next_node c) by apply next_node_with_segment.
  assert (Hseg1 : forall ct x, x ∈ segment ct c1 <-> x ∈ segment ct c /\ x ≠ pos).
  { intros ct x. unfold c1. rewrite segment_with_segment.
    case_decide; subst; [apply Hmem|]. split; [|tauto].
    intros Hx. split; [done|]. intros ->.
    apply wf_segment_node in Hx as (p' & ? & ?); [|done]. congruence. }
  split.
  - intros ct.
    change (NoDup (segment ct (with_segment ct' (pos :: segment ct' c1) c1))).
    rewrite segment_with_segment. case_decide; subst.
    + apply NoDup_cons. split; [rewrite Hseg1; tauto|].
      unfold c1. rewrite segment_with_segment. case_decide; [done|apply Hwf].
    + unfold c1. rewrite segment_with_segment. case_decide; [done|apply Hwf].
  - intros ct pos'.
    change (pos' ∈ segment ct (with_segment ct' (pos :: segment ct' c1) c1) <->
            exists p', <[pos := Page (key p) ct' (data p)]>
                         (nodes (with_segment ct' (pos :: segment ct' c1) c1)) !! pos'
                       = Some p' /\ cache_type p' = ct).
    rewrite segment_with_segment, nodes_with_segment, Hn1, lookup_insert.
    case_decide as Hct; case_decide as Hpos; subst.
    + split; [eauto|]. intros _. apply elem_of_cons. by left.
    + rewrite elem_of_cons, Hseg1, (wf_segment _ Hwf).
      split; [|intros Hx; right; split; [done|congruence]].
      intros [?|[? ?]]; [congruence|done].
    + rewrite Hseg1. split; [by intros [_ ?]|]. intros (? & ? & ?). by simplify_eq.
    + rewrite Hseg1, (wf_segment _ Hwf). split; [tauto|].
      intros Hx. split; [done|]. congruence.
  - intros k pos'.
    change (m_page_map (with_segment ct' (pos :: segment ct' c1) c1) !! k
            = Some pos' <->
            exists p', <[pos := Page (key p) ct' (data p)]>
                         (nodes (with_segment ct' (pos :: segment ct' c1) c1)) !! pos'
                       = Some p' /\ key p' = k).
    rewrite page_map_with_segment, nodes_with_segment, Hn1, Hm1, lookup_insert.
    rewrite (wf_page_map _ Hwf).
    case_decide as Hpos; subst; [|done].
    split; intros (p' & Hp' & Hk'); simplify_eq; eauto.
  - intros pos'.
    change (is_Some (<[pos := Page (key p) ct' (data p)]>
                       (nodes (with_segment ct' (pos :: segment ct' c1) c1)) !! pos')
            -> (pos' < next_node (with_segment ct' (pos :: segment ct' c1) c1))%nat).
    rewrite nodes_with_segment, next_node_with_segment, Hn1, Hx1, lookup_insert.
    case_decide; subst; [|apply Hwf]. intros _. apply Hwf. eauto.
Qed.


Lemma wf_same_structure c c' :
  (forall ct, segment ct c' = segment ct c) ->
  nodes c' = nodes c -> m_page_map c' = m_page_map c ->
  next_node c' = next_node c ->
  wf c -> wf c'.
Proof.
  intros Hs Hn Hm Hx Hwf. split.
  - intros ct. rewrite Hs. apply Hwf.
  - intros ct pos. rewrite Hs, Hn. apply Hwf.
  - intros k pos. rewrite Hm, Hn. apply Hwf.
  - intros pos. rewrite Hn, Hx. apply Hwf.
Qed.

Lemma wf_set_data c pos p d :
  wf c -> nodes c !! pos = Some p ->
  wf (with_page pos (Page (key p) (cache_type p) d) c).
Proof.
  intros Hwf Hp. split.
  - intros ct. apply (wf_nodup _ Hwf ct).
  - intros ct pos'.
    change (pos' ∈ segment ct c <->
            exists p', <[pos := Page (key p) (cache_type p) d]> (nodes c) !! pos'
                       = Some p' /\ cache_type p' = ct).
    rewrite lookup_insert, (wf_segment _ Hwf). case_decide; subst; [|done].
    split; intros (p' & Hp' & Hk'); simplify_eq; eauto.
  - intros k pos'.
    change (m_page_map c !! k = Some pos' <->
            exists p', <[pos := Page (key p) (cache_type p) d]> (nodes c) !! pos'
                       = Some p' /\ key p' = k).
    rewrite lookup_insert, (wf_page_map _ Hwf). case_decide; subst; [|done].
    split; intros (p' & Hp' & Hk'); simplify_eq; eauto.
  - intros pos'.
    change (is_Some (<[pos := Page (key p) (cache_type p) d]> (nodes c) !! pos')
            -> (pos' < next_node c)%nat).
    rewrite lookup_insert. case_decide; subst; [|apply Hwf].
    intros _. apply Hwf. eauto.
Qed.

Lemma wf_next_unused c : wf c -> nodes c !! next_node c = None.
Proof.
  intros Hwf. destruct (nodes c !! next_node c) eqn:E; [|done].
  assert (next_node c < next_node c)%nat by (apply Hwf; eauto). lia.
Qed.

Lemma wf_emplace c k d :
  wf c -> m_page_map c !! k = None ->
  wf (mk (m_filter c) (<[k := next_node c]> (m_page_map c))
         (lru.insert (next_node c) (m_window c)) (m_main c)
         (<[next_node c := Page k window d]> (nodes c)) (S (next_node c))).
Proof.
  intros Hwf Hk. pose proof (wf_next_unused _ Hwf) as Hnone.
  set (n := next_node c) in *.
  assert (Hnin : forall ct, n ∉ segment ct c).
  { intros ct Hin. apply wf_segment_node in Hin as (p & Hp & _); [|done].
    congruence. }
  split.
  - intros [| |]; simpl; [|apply (wf_nodup _ Hwf probationary)
                           |apply (wf_nodup _ Hwf safe)].
    apply NoDup_cons. split; [apply (Hnin window)|apply (wf_nodup _ Hwf window)].
  - intros ct pos.
    assert (Hseg : pos ∈ segment ct
              (mk (m_filter c) (<[k := n]> (m_page_map c))
                  (lru.insert n (m_window c)) (m_main c)
                  (<[n := Page k window d]> (nodes c)) (S n))
            <-> (pos = n /\ ct = window) \/ pos ∈ segment ct c).
    { destruct ct; simpl; rewrite ?elem_of_cons; [tauto| |];
        (split; [by right|]; by intros [[_ ?]|?]). }
    rewrite Hseg. simpl. rewrite lookup_insert, (wf_segment _ Hwf).
    case_decide; subst.
    + split; [intros [[_ ->]|(p & Hp & _)]; [eauto|congruence]|].
      intros (p & Hp & Hct). simplify_eq. by left.
    + split; [by intros [[-> _]|?]|by right].
  - intros k' pos. simpl.
    rewrite !lookup_insert. case_decide as Hkk; case_decide as Hpp; subst.
    + split; [eauto|done].
    + split; [congruence|]. intros (p & Hp & Hk').
      assert (m_page_map c !! key p = Some pos)
        by (apply (wf_page_map _ Hwf); eauto). congruence.
    + split; [|by intros (p & ? & ?); simplify_eq].
      intros Hpm. apply (wf_page_map _ Hwf) in Hpm as (p & ? & ?). congruence.
    + apply Hwf.
  - intros pos. simpl. rewrite lookup_insert. case_decide; subst; [lia|].
    intros Hp. apply (wf_next _ Hwf) in Hp. lia.
Qed.


Lemma get_lru_pos_elem_of (l : lru.t) pos :
  lru.get_lru_pos l = Some pos -> pos ∈ lru.m_lru l.
Proof.
  unfold lru.get_lru_pos. intros Hl. apply last_Some in Hl as [l' ->].
  apply elem_of_app. right. apply elem_of_cons. by left.
Qed.

(** A linked node can be unlinked from its segment, and it is a node. *)
Lemma wf_linked c ct pos :
  wf c -> pos ∈ segment ct c ->
  exists p l', nodes c !! pos = Some p /\ cache_type p = ct /\
               unlink pos (segment ct c) = Some l'.
Proof.
  intros Hwf Hin. destruct (wf_segment_node _ _ _ Hwf Hin) as (p & Hp & Hct).
  destruct (unlink_is_Some _ _ Hin) as [l' Hl']. eauto.
Qed.

Lemma evict_from_window_Some c pos :
  wf c -> lru.get_lru_pos (m_window c) = Some pos ->
  exists p l', nodes c !! pos = Some p /\ cache_type p = window /\
    unlink pos (segment window c) = Some l' /\
    evict_from_window c = Some (without_page pos p (with_segment window l' c)).
Proof.
  intros Hwf Hpos.
  destruct (wf_linked c window pos Hwf) as (p & l' & Hp & Hct & Hu);
    [by apply get_lru_pos_elem_of|].
  exists p, l'. repeat split; try done.
  unfold evict_from_window, lru.get_victim_key, lru.evict, lru.erase, key_at.
  simpl in Hu. rewrite Hpos. simpl. rewrite Hp. simpl. rewrite Hu. done.
Qed.

Lemma evict_from_main_Some c pos :
  wf c -> slru.get_victim_pos (m_main c) = Some pos ->
  exists p l', nodes c !! pos = Some p /\ cache_type p = probationary /\
    unlink pos (segment probationary c) = Some l' /\
    evict_from_main c
    = Some (without_page pos p (with_segment probationary l' c)).
Proof.
  intros Hwf Hpos.
  destruct (wf_linked c probationary pos Hwf) as (p & l' & Hp & Hct & Hu);
    [by apply get_lru_pos_elem_of|].
  exists p, l'. repeat split; try done.
  unfold evict_from_main, slru.get_victim_key, slru.evict, lru.evict,
    lru.erase, key_at, slru.get_victim_pos in *.
  simpl in Hu. rewrite Hpos. simpl. rewrite Hp. simpl. rewrite Hu. done.
Qed.

Lemma transfer_window_victim_Some c pos :
  wf c -> lru.get_lru_pos (m_window c) = Some pos ->
  exists p l', nodes c !! pos = Some p /\ cache_type p = window /\
    unlink pos (segment window c) = Some l' /\
    transfer_window_victim c
    = Some (with_page pos (Page (key p) probationary (data p))
              (with_segment probationary (pos :: segment probationary c)
                 (with_segment window l' c))).
Proof.
  intros Hwf Hpos.
  destruct (wf_linked c window pos Hwf) as (p & l' & Hp & Hct & Hu);
    [by apply get_lru_pos_elem_of|].
  exists p, l'. repeat split; try done.
  unfold transfer_window_victim, slru.transfer_page_from,
    lru.transfer_page_from, lru.erase, set_cache_type.
  simpl in Hu. rewrite Hpos. simpl. rewrite Hu. simpl. rewrite Hp. done.
Qed.

Lemma wf_evict_from_window c c' : wf c -> evict_from_window c = Some c' -> wf c'.
Proof.
  intros Hwf Hc.
  destruct (lru.get_lru_pos (m_window c)) as [pos|] eqn:Hpos.
  - destruct (evict_from_window_Some c pos Hwf Hpos)
      as (p & l' & Hp & Hct & Hu & He).
    rewrite He in Hc. simplify_eq. rewrite <- Hct in *.
    by apply wf_unlink_remove.
  - unfold evict_from_window, lru.get_victim_key in Hc. by rewrite Hpos in Hc.
Qed.

Lemma wf_evict_from_main c c' : wf c -> evict_from_main c = Some c' -> wf c'.
Proof.
  intros Hwf Hc.
  destruct (slru.get_victim_pos (m_main c)) as [pos|] eqn:Hpos.
  - destruct (evict_from_main_Some c pos Hwf Hpos)
      as (p & l' & Hp & Hct & Hu & He).
    rewrite He in Hc. simplify_eq. rewrite <- Hct in *.
    by apply wf_unlink_remove.
  - unfold evict_from_main, slru.get_victim_key in Hc. by rewrite Hpos in Hc.
Qed.

Lemma wf_transfer_window_victim c c' :
  wf c -> transfer_window_victim c = Some c' -> wf c'.
Proof.
  intros Hwf Hc.
  destruct (lru.get_lru_pos (m_window c)) as [pos|] eqn:Hpos.
  - destruct (transfer_window_victim_Some c pos Hwf Hpos)
      as (p & l' & Hp & Hct & Hu & He).
    rewrite He in Hc. simplify_eq. rewrite <- Hct in Hu.
    pose proof (wf_unlink_push c pos p l' probationary Hwf Hp Hu) as Hw.
    cbv zeta in Hw. rewrite Hct, segment_with_segment in Hw.
    by rewrite decide_False in Hw.
  - unfold transfer_window_victim in Hc. by rewrite Hpos in Hc.
Qed.

Lemma wf_evict c c' : wf c -> evict c = Some c' -> wf c'.
Proof.
  intros Hwf Hc. unfold evict, evict_from_window_or_main in Hc.
  case_bool_decide; [|by eapply wf_transfer_window_victim].
  destruct (lru.get_victim_key _ _); simpl in Hc; [|done].
  destruct (slru.get_victim_key _ _); simpl in Hc; [|done].
  case_bool_decide; [|by eapply wf_evict_from_window].
  destruct (evict_from_main c) as [c1|] eqn:He; simpl in Hc; [|done].
  eapply wf_transfer_window_victim; [|done]. by eapply wf_evict_from_main.
Qed.

Lemma wf_assign_or_emplace k d c c' :
  wf c -> assign_or_emplace k d c = Some c' -> wf c'.
Proof.
  intros Hwf Hc. unfold assign_or_emplace, set_data in Hc.
  destruct (m_page_map c !! k) as [pos|] eqn:Hk.
  - destruct (nodes c !! pos) as [p|] eqn:Hp; simpl in Hc; [|done].
    simplify_eq. by apply (wf_set_data c pos p d).
  - simplify_eq. by apply wf_emplace.
Qed.

Lemma wf_insert k d c c' : wf c -> insert k d c = Some c' -> wf c'.
Proof.
  intros Hwf Hc. unfold insert in Hc.
  destruct (lru.is_full _).
  - destruct (evict c) as [c1|] eqn:He; simpl in Hc; [|done].
    eapply wf_assign_or_emplace; [|done]. by eapply wf_evict.
  - by eapply wf_assign_or_emplace.
Qed.




#[local] Arguments moved : simpl never.

Lemma wf_moved c pos p l' ct' :
  wf c -> nodes c !! pos = Some p ->
  unlink pos (segment (cache_type p) c) = Some l' ->
  wf (moved pos p ct' l' c).
Proof. apply wf_unlink_push. Qed.

Lemma page_map_moved pos p ct' l' c :
  m_page_map (moved pos p ct' l' c) = m_page_map c.
Proof. by destruct p as [? [] ?], ct'. Qed.

Lemma nodes_moved pos p ct' l' c :
  nodes (moved pos p ct' l' c) = <[pos := Page (key p) ct' (data p)]> (nodes c).
Proof. by destruct p as [? [] ?], ct'. Qed.

Lemma promote_to_safe_Some c pos p :
  wf c -> nodes c !! pos = Some p -> cache_type p = probationary ->
  exists l', unlink pos (segment probationary c) = Some l' /\
    slru.promote_to_safe pos (nodes c) (m_main c)
    = Some (nodes (moved pos p safe l' c), m_main (moved pos p safe l' c)) /\
    with_main (nodes (moved pos p safe l' c)) (m_main (moved pos p safe l' c)) c
    = moved pos p safe l' c.
Proof.
  intros Hwf Hp Hct.
  destruct (wf_linked c probationary pos Hwf) as (p' & l' & Hp' & _ & Hu).
  { rewrite <- Hct. by apply wf_node_segment. }
  exists l'. split; [done|]. simpl in Hu.
  unfold slru.promote_to_safe, lru.transfer_page_from, lru.erase,
    set_cache_type, moved.
  rewrite Hu. simpl. rewrite Hp. simpl. rewrite Hct. done.
Qed.

Lemma demote_to_probationary_Some c pos :
  wf c -> lru.get_lru_pos (slru.m_safe (m_main c)) = Some pos ->
  exists p l', nodes c !! pos = Some p /\ cache_type p = safe /\
    unlink pos (segment safe c) = Some l' /\
    slru.demote_to_probationary pos (nodes c) (m_main c)
    = Some (nodes (moved pos p probationary l' c),
            m_main (moved pos p probationary l' c)) /\
    with_main (nodes (moved pos p probationary l' c))
      (m_main (moved pos p probationary l' c)) c
    = moved pos p probationary l' c.
Proof.
  intros Hwf Hpos.
  destruct (wf_linked c safe pos Hwf) as (p & l' & Hp & Hct & Hu);
    [by apply get_lru_pos_elem_of|].
  exists p, l'. repeat split; try done; simpl in Hu;
  unfold slru.demote_to_probationary, lru.transfer_page_from, lru.erase,
    set_cache_type, moved; rewrite ?Hu; simpl; rewrite ?Hp; simpl;
    rewrite Hct; done.
Qed.

(** A hit on a node of a well-formed cache is defined; it keeps the page
    map, the key and the data of the page. *)
Lemma handle_hit_Some c pos p :
  wf c -> nodes c !! pos = Some p ->
  exists c', handle_hit pos c = Some c' /\ wf c' /\
    m_page_map c' = m_page_map c /\ m_filter c' = m_filter c /\
    exists p', nodes c' !! pos = Some p' /\ key p' = key p /\ data p' = data p.
Proof.
  intros Hwf Hp. unfold handle_hit. rewrite Hp. simpl.
  destruct (wf_linked c (cache_type p) pos Hwf) as (p' & l' & Hp' & _ & Hu);
    [by apply wf_node_segment|].
  destruct (cache_type p) eqn:Hct.
  - (* window *)
    rewrite decide_True by done.
    pose proof Hu as Hu'. simpl in Hu'. rewrite <- Hct in Hu.
    unfold lru.handle_hit, lru.erase. rewrite Hu'. simpl.
    eexists. split; [done|].
    pose proof (wf_moved c pos p l' window Hwf Hp Hu) as Hw.
    split; [|split; [done|split; [done|by exists p]]].
    eapply wf_same_structure; [..|exact Hw].
    + intros ct. unfold moved. rewrite Hct. by destruct ct.
    + rewrite nodes_moved. simpl. rewrite insert_id; [done|].
      rewrite Hp. by destruct p; simplify_eq/=.
    + by rewrite page_map_moved.
    + unfold moved. rewrite Hct. done.
  - (* probationary *)
    rewrite decide_False by done.
    destruct (promote_to_safe_Some c pos p Hwf Hp Hct) as (l1 & Hu1 & Hpr & Hm1).
    rewrite <- Hct in Hu1.
    pose proof (wf_moved c pos p l1 safe Hwf Hp Hu1) as Hw1.
    assert (Hn1 : nodes (moved pos p safe l1 c) !! pos
                  = Some (Page (key p) safe (data p))).
    { rewrite nodes_moved. apply lookup_insert_eq. }
    assert (Hpm1 : m_page_map (moved pos p safe l1 c) = m_page_map c)
      by apply page_map_moved.
    assert (Hrest : m_filter (moved pos p safe l1 c) = m_filter c /\
                    m_window (moved pos p safe l1 c) = m_window c /\
                    next_node (moved pos p safe l1 c) = next_node c).
    { unfold moved. rewrite Hct. done. }
    assert (Hne : lru.get_lru_pos (slru.m_safe (m_main (moved pos p safe l1 c)))
                  ≠ None).
    { unfold moved. rewrite Hct. unfold lru.get_lru_pos. simpl.
      intros Hl. by apply last_None in Hl. }
    remember (moved pos p safe l1 c) as c1 eqn:Hc1.
    destruct Hrest as (Hf1 & Hwin1 & Hnx1).
    unfold slru.handle_hit. rewrite Hp. simpl. rewrite Hct, Hpr. simpl.
    destruct (lru.is_full _).
    + destruct (lru.get_lru_pos (slru.m_safe (m_main c1))) as [l|] eqn:Hl;
        [|done].
      simpl.
      destruct (demote_to_probationary_Some c1 l Hw1 Hl)
        as (pl & l2 & Hpl & Hctl & Hu2 & Hde & Hm2).
      rewrite Hde. eexists. split; [reflexivity|].
      rewrite <- Hctl in Hu2.
      pose proof (wf_moved c1 l pl l2 probationary Hw1 Hpl Hu2) as Hw2.
      assert (Heq : mk (m_filter c) (m_page_map c) (m_window c)
                      (m_main (moved l pl probationary l2 c1))
                      (nodes (moved l pl probationary l2 c1)) (next_node c)
                    = moved l pl probationary l2 c1).
      { rewrite <- Hm2. unfold with_main. by rewrite Hf1, Hpm1, Hwin1, Hnx1. }
      rewrite Heq. split; [done|].
      rewrite page_map_moved. split; [done|].
      split; [by destruct pl as [? [] ?]; simplify_eq/=|].
      rewrite nodes_moved, lookup_insert. case_decide as Hlp; [subst l|].
      * rewrite Hn1 in Hpl. simplify_eq. eexists. by split.
      * rewrite Hn1. eexists. by split.
    + eexists. split; [done|].
      assert (Heq : mk (m_filter c) (m_page_map c) (m_window c)
                      (m_main c1) (nodes c1) (next_node c) = c1).
      { rewrite <- Hf1, <- Hpm1, <- Hwin1, <- Hnx1. by destruct c1. }
      rewrite Heq. split; [done|]. split; [done|]. split; [done|].
      rewrite Hn1. eexists. by split.
  - (* safe *)
    rewrite decide_False by done.
    pose proof Hu as Hu'. simpl in Hu'. rewrite <- Hct in Hu.
    unfold slru.handle_hit. rewrite Hp. simpl. rewrite Hct.
    unfold lru.handle_hit, lru.erase. rewrite Hu'. simpl.
    eexists. split; [done|].
    pose proof (wf_moved c pos p l' safe Hwf Hp Hu) as Hw.
    split; [|split; [done|split; [done|by exists p]]].
    eapply wf_same_structure; [..|exact Hw].
    + intros ct. unfold moved. rewrite Hct. by destruct ct.
    + rewrite nodes_moved. simpl. rewrite insert_id; [done|].
      rewrite Hp. by destruct p; simplify_eq/=.
    + by rewrite page_map_moved.
    + unfold moved. rewrite Hct. done.
Qed.


Lemma get_Some k c :
  wf c ->
  exists c' r, get k c = Some (c', r) /\ wf c' /\
    m_page_map c' = m_page_map c /\
    m_filter c' = record_access k (m_filter c).
Proof.
  intros Hwf. unfold get.
  set (c0 := mk (record_access k (m_filter c)) (m_page_map c) (m_window c)
                (m_main c) (nodes c) (next_node c)).
  assert (Hwf0 : wf c0) by (by apply (wf_same_structure c); [intros []|..]).
  change (m_page_map c0) with (m_page_map c).
  destruct (m_page_map c !! k) as [pos|] eqn:Hk.
  - apply (wf_page_map _ Hwf) in Hk as (p & Hp & Hkp).
    destruct (handle_hit_Some c0 pos p Hwf0 Hp)
      as (c1 & Hh & Hwf1 & Hpm & Hf & p' & Hp' & _ & _).
    rewrite Hh. simpl. rewrite Hp'. simpl. by eexists _, _.
  - by eexists _, _.
Qed.

Lemma erase_Some k c :
  wf c -> exists c', erase k c = Some c' /\ wf c'.
Proof.
  intros Hwf. unfold erase.
  destruct (m_page_map c !! k) as [pos|] eqn:Hk; [|by eexists].
  apply (wf_page_map _ Hwf) in Hk as (p & Hp & Hkp). rewrite Hp. simpl.
  destruct (wf_linked c (cache_type p) pos Hwf) as (p' & l' & Hp' & _ & Hu);
    [by apply wf_node_segment|].
  pose proof (wf_unlink_remove c pos p l' Hwf Hp Hu) as Hw.
  unfold slru.erase, lru.erase. rewrite Hp. subst k.
  destruct (cache_type p) eqn:Hct; simpl in Hu; simpl; rewrite ?Hct; simpl;
    rewrite Hu; simpl; (eexists; split; [reflexivity|exact Hw]).
Qed.

(** ** The two loops of [change_capacity] *)

Lemma segment_without_page ct pos p c :
  segment ct (without_page pos p c) = segment ct c.
Proof. by destruct ct. Qed.

Lemma wf_unlink_remove_at c pos p l' ct :
  wf c -> nodes c !! pos = Some p -> cache_type p = ct ->
  unlink pos (segment ct c) = Some l' ->
  wf (without_page pos p (with_segment ct l' c)).
Proof. intros Hwf Hp <- Hu. by apply wf_unlink_remove. Qed.

Lemma length_segment_removed c pos p l' ct r :
  S r = length (segment ct c) -> unlink pos (segment ct c) = Some l' ->
  r = length (segment ct (without_page pos p (with_segment ct l' c))).
Proof.
  intros Hr Hu. rewrite segment_without_page, segment_with_segment.
  rewrite decide_True by done. apply unlink_length in Hu. lia.
Qed.

Lemma evict_window_loop_Some c :
  wf c -> 1 <= lru.capacity (m_window c) ->
  exists c', evict_window_loop (length (segment window c)) c = Some c' /\ wf c'.
Proof.
  remember (length (segment window c)) as r eqn:Hr.
  revert c Hr. induction r as [|r IH]; intros c Hr Hwf Hcap; simpl.
  - destruct (lru.is_full _) eqn:Hf; [|by eexists].
    apply bool_decide_eq_true in Hf. unfold lru.size in Hf.
    simpl in Hr. lia.
  - destruct (lru.is_full _) eqn:Hf; [|by eexists].
    destruct (lru.get_lru_pos (m_window c)) as [pos|] eqn:Hpos.
    2:{ apply last_None in Hpos. simpl in Hr. by rewrite Hpos in Hr. }
    destruct (evict_from_window_Some c pos Hwf Hpos)
      as (p & l' & Hp & Hct & Hu & He).
    rewrite He. simpl. apply IH.
    + exact (length_segment_removed c pos p l' window r Hr Hu).
    + exact (wf_unlink_remove_at c pos p l' window Hwf Hp Hct Hu).
    + done.
Qed.

(** More rounds than the window has nodes change nothing: the loop ends,
    or it evicts from an empty window. *)
Lemma evict_window_loop_rounds c extra :
  wf c ->
  evict_window_loop (length (segment window c) + extra) c
  = evict_window_loop (length (segment window c)) c.
Proof.
  remember (length (segment window c)) as r eqn:Hr.
  revert c Hr. induction r as [|r IH]; intros c Hr Hwf; simpl.
  - destruct (lru.is_full _) eqn:Hf; [|by destruct extra; simpl; rewrite Hf].
    destruct extra as [|e]; simpl; rewrite Hf; [done|].
    unfold evict_from_window, lru.get_victim_key, lru.get_lru_pos.
    simpl in Hr. symmetry in Hr. apply nil_length_inv in Hr. by rewrite Hr.
  - destruct (lru.is_full _) eqn:Hf; [|done].
    destruct (evict_from_window c) as [c1|] eqn:He; simpl; [|done].
    destruct (lru.get_lru_pos (m_window c)) as [pos|] eqn:Hpos.
    2:{ unfold evict_from_window, lru.get_victim_key in He.
        by rewrite Hpos in He. }
    destruct (evict_from_window_Some c pos Hwf Hpos)
      as (p & l' & Hp & Hct & Hu & He').
    rewrite He' in He. simplify_eq. apply IH.
    + exact (length_segment_removed c pos p l' window r Hr Hu).
    + exact (wf_unlink_remove_at c pos p l' window Hwf Hp Hct Hu).
Qed.

Lemma evict_main_loop_Some c :
  wf c ->
  lru.size (slru.m_safe (m_main c)) < slru.capacity (m_main c) ->
  exists c', evict_main_loop (length (segment probationary c)) c = Some c' /\
             wf c'.
Proof.
  remember (length (segment probationary c)) as r eqn:Hr.
  revert c Hr. induction r as [|r IH]; intros c Hr Hwf Hcap; simpl.
  - destruct (slru.is_full _) eqn:Hf; [|by eexists].
    apply bool_decide_eq_true in Hf. unfold slru.size, lru.size in *.
    simpl in Hr. lia.
  - destruct (slru.is_full _) eqn:Hf; [|by eexists].
    destruct (slru.get_victim_pos (m_main c)) as [pos|] eqn:Hpos.
    2:{ apply last_None in Hpos. simpl in Hr. by rewrite Hpos in Hr. }
    destruct (evict_from_main_Some c pos Hwf Hpos)
      as (p & l' & Hp & Hct & Hu & He).
    rewrite He. simpl. apply IH.
    + exact (length_segment_removed c pos p l' probationary r Hr Hu).
    + exact (wf_unlink_remove_at c pos p l' probationary Hwf Hp Hct Hu).
    + done.
Qed.

Lemma evict_main_loop_None rounds c :
  slru.capacity (m_main c) <= lru.size (slru.m_safe (m_main c)) ->
  evict_main_loop rounds c = None.
Proof.
  revert c. induction rounds as [|r IH]; intros c Hcap; simpl;
    (destruct (slru.is_full _) eqn:Hf;
     [|apply bool_decide_eq_false in Hf; unfold slru.size, lru.size in *; lia]);
    [done|].
  destruct (evict_from_main c) as [c1|] eqn:He; simpl; [|done].
  apply IH. unfold evict_from_main in He.
  destruct (slru.get_victim_key _ _); simpl in He; [|done].
  destruct (slru.get_victim_pos _); simpl in He; [|done].
  unfold slru.evict in He.
  destruct (lru.evict _) eqn:Hev; simplify_option_eq.
  apply lru_evict_size in Hev. unfold slru.capacity, lru.capacity in *.
  simpl. lia.
Qed.

Lemma evict_main_loop_rounds c extra :
  wf c ->
  evict_main_loop (length (segment probationary c) + extra) c
  = evict_main_loop (length (segment probationary c)) c.
Proof.
  remember (length (segment probationary c)) as r eqn:Hr.
  revert c Hr. induction r as [|r IH]; intros c Hr Hwf; simpl.
  - destruct (slru.is_full _) eqn:Hf; [|by destruct extra; simpl; rewrite Hf].
    destruct extra as [|e]; simpl; rewrite Hf; [done|].
    unfold evict_from_main, slru.get_victim_key, slru.get_victim_pos,
      lru.get_lru_pos.
    simpl in Hr. symmetry in Hr. apply nil_length_inv in Hr. by rewrite Hr.
  - destruct (slru.is_full _) eqn:Hf; [|done].
    destruct (evict_from_main c) as [c1|] eqn:He; simpl; [|done].
    destruct (slru.get_victim_pos (m_main c)) as [pos|] eqn:Hpos.
    2:{ unfold evict_from_main, slru.get_victim_key in He.
        by rewrite Hpos in He. }
    destruct (evict_from_main_Some c pos Hwf Hpos)
      as (p & l' & Hp & Hct & Hu & He').
    rewrite He' in He. simplify_eq. apply IH.
    + exact (length_segment_removed c pos p l' probationary r Hr Hu).
    + exact (wf_unlink_remove_at c pos p l' probationary Hwf Hp Hct Hu).
Qed.


(** ** Which calls are defined *)

Lemma assign_or_emplace_Some k d c :
  wf c -> is_Some (assign_or_emplace k d c).
Proof.
  intros Hwf. unfold assign_or_emplace, set_data.
  destruct (m_page_map c !! k) as [pos|] eqn:Hk; [|by eexists].
  apply (wf_page_map _ Hwf) in Hk as (p & Hp & _). rewrite Hp. by eexists.
Qed.

Lemma full_window_has_victim c :
  1 <= lru.capacity (m_window c) -> lru.is_full (m_window c) = true ->
  is_Some (lru.get_lru_pos (m_window c)).
Proof.
  intros Hcap Hf. apply bool_decide_eq_true in Hf.
  unfold lru.get_lru_pos, lru.size in *.
  destruct (last (lru.m_lru (m_window c))) eqn:Hl; [by eexists|].
  apply last_None in Hl. rewrite Hl in Hf. simpl in Hf. lia.
Qed.

Lemma victim_key_Some c ct pos :
  wf c -> pos ∈ segment ct c -> is_Some (key_at (nodes c) pos).
Proof.
  intros Hwf Hin. apply wf_segment_node in Hin as (p & Hp & _); [|done].
  unfold key_at. rewrite Hp. by eexists.
Qed.

Lemma evict_is_Some c :
  wf c -> is_Some (lru.get_lru_pos (m_window c)) ->
  is_Some (evict c) <->
  ~ (capacity c <= size c /\ segment probationary c = []).
Proof.
  intros Hwf [wpos Hw]. unfold evict.
  destruct (transfer_window_victim_Some c wpos Hwf Hw)
    as (pw & lw & Hpw & Hctw & Huw & Ht).
  case_bool_decide as Hsz.
  2:{ rewrite Ht. split; [intros _ [? _]; lia|by eexists]. }
  unfold evict_from_window_or_main, lru.get_victim_key, key_at.
  rewrite Hw. simpl. rewrite Hpw. simpl.
  unfold slru.get_victim_key.
  destruct (slru.get_victim_pos (m_main c)) as [mpos|] eqn:Hm; simpl.
  - assert (Hne : segment probationary c ≠ []).
    { intros Hnil. unfold slru.get_victim_pos, lru.get_lru_pos in Hm.
      simpl in Hnil. by rewrite Hnil in Hm. }
    destruct (evict_from_main_Some c mpos Hwf Hm)
      as (pm & lm & Hpm & Hctm & Hum & Hem).
    unfold key_at. rewrite Hpm. simpl.
    split; [by intros _ [_ ?]|]. intros _.
    case_bool_decide.
    + rewrite Hem. cbn [mbind option_bind].
      pose proof (wf_unlink_remove_at c mpos pm lm probationary
                    Hwf Hpm Hctm Hum) as Hwf1.
      destruct (transfer_window_victim_Some _ wpos Hwf1 Hw)
        as (? & ? & _ & _ & _ & ->). by eexists.
    + destruct (evict_from_window_Some c wpos Hwf Hw)
        as (? & ? & _ & _ & _ & ->). by eexists.
  - apply last_None in Hm.
    split; [by intros [? ?]|]. intros Hn. exfalso. apply Hn. by split.
Qed.

(** [insert] is undefined exactly when it has to consult the main cache's
    victim and the probationary segment is empty. *)
Lemma insert_is_Some k d c :
  wf c -> 1 <= lru.capacity (m_window c) ->
  is_Some (insert k d c) <->
  ~ (lru.is_full (m_window c) = true /\ capacity c <= size c /\
     segment probationary c = []).
Proof.
  intros Hwf Hcap. unfold insert.
  destruct (lru.is_full (m_window c)) eqn:Hf.
  - pose proof (full_window_has_victim c Hcap Hf) as Hv.
    pose proof (evict_is_Some c Hwf Hv) as He.
    destruct (evict c) as [c1|] eqn:Hev; simpl.
    + split; [|intros _; eapply assign_or_emplace_Some, wf_evict; eauto].
      intros _ (_ & ? & ?). apply He; [by eexists|done].
    + split; [by intros [? ?]|]. intros Hn. exfalso.
      assert (is_Some (None : option (t K V F))) as [? ?]; [|done].
      apply He. intros [? ?]. apply Hn. done.
  - simpl. split; [by intros _ [? _]|]. intros _.
    by apply assign_or_emplace_Some.
Qed.

Lemma evict_from_window_main c c' :
  evict_from_window c = Some c' ->
  m_main c' = m_main c /\
  lru.capacity (m_window c') = lru.capacity (m_window c).
Proof.
  unfold evict_from_window. intros Hc.
  destruct (lru.evict (m_window c)) eqn:He; simplify_option_eq.
  apply lru_evict_size in He as [_ He]. split; [done|].
  unfold lru.capacity in *. done.
Qed.

Lemma evict_window_loop_main rounds c c' :
  evict_window_loop rounds c = Some c' ->
  m_main c' = m_main c /\
  lru.capacity (m_window c') = lru.capacity (m_window c).
Proof.
  revert c. induction rounds as [|r IH]; intros c Hc; simpl in Hc;
    (destruct (lru.is_full _); [|by simplify_eq]); [done|].
  destruct (evict_from_window c) as [c1|] eqn:He; simpl in Hc; [|done].
  apply IH in Hc as [Hm Hk]. apply evict_from_window_main in He as [Hm' Hk'].
  split; congruence.
Qed.

Lemma slru_set_capacity_capacity n s :
  slru.capacity (slru.set_capacity n s) = n.
Proof. unfold slru.capacity, slru.set_capacity, lru.capacity. simpl. lia. Qed.

(** [change_capacity n] is undefined exactly when the safe segment alone
    fills the new main cache: the second loop then evicts from an empty
    probationary segment. *)
Lemma change_capacity_is_Some n c :
  wf c -> 0 < n ->
  is_Some (change_capacity n c) <->
  lru.size (slru.m_safe (m_main c)) < n - get_window_capacity n.
Proof.
  intros Hwf Hn. unfold change_capacity.
  rewrite bool_decide_eq_false_2 by lia.
  set (c0 := mk _ _ _ _ _ _).
  assert (Hwf0 : wf c0) by (by apply (wf_same_structure c); [intros []|..]).
  destruct (evict_window_loop_Some c0 Hwf0) as (c1 & H1 & Hwf1).
  { apply get_window_capacity_ge_1. }
  change (length (lru.m_lru (m_window c0))) with (length (segment window c0)).
  rewrite H1. simpl.
  apply evict_window_loop_main in H1 as [Hm1 _].
  change (length (lru.m_lru (slru.m_probationary (m_main c1))))
    with (length (segment probationary c1)).
  assert (Hcap : slru.capacity (m_main c1) = n - get_window_capacity n).
  { rewrite Hm1. unfold c0. simpl. apply slru_set_capacity_capacity. }
  assert (Hsafe : lru.size (slru.m_safe (m_main c1))
                  = lru.size (slru.m_safe (m_main c))).
  { rewrite Hm1. done. }
  rewrite <- Hsafe, <- Hcap.
  destruct (Z_lt_le_dec (lru.size (slru.m_safe (m_main c1)))
              (slru.capacity (m_main c1))) as [Hlt|Hge].
  - destruct (evict_main_loop_Some c1 Hwf1 Hlt) as (c2 & -> & _).
    simpl. split; [done|by eexists].
  - rewrite (evict_main_loop_None _ c1 Hge). simpl.
    split; [by intros [? ?]|lia].
Qed.

Lemma wf_change_capacity n c c' :
  wf c -> change_capacity n c = Some (inr c') -> wf c'.
Proof.
  intros Hwf. unfold change_capacity. case_bool_decide; [done|].
  set (c0 := mk _ _ _ _ _ _).
  assert (Hwf0 : wf c0) by (by apply (wf_same_structure c); [intros []|..]).
  destruct (evict_window_loop_Some c0 Hwf0) as (c1 & H1 & Hwf1).
  { apply get_window_capacity_ge_1. }
  change (length (lru.m_lru (m_window c0))) with (length (segment window c0)).
  rewrite H1. simpl.
  change (length (lru.m_lru (slru.m_probationary (m_main c1))))
    with (length (segment probationary c1)).
  destruct (Z_lt_le_dec (lru.size (slru.m_safe (m_main c1)))
              (slru.capacity (m_main c1))) as [Hlt|Hge].
  - destruct (evict_main_loop_Some c1 Hwf1 Hlt) as (c2 & -> & ?).
    simpl. by intros; simplify_eq.
  - by rewrite (evict_main_loop_None _ c1 Hge).
Qed.

Lemma wf_new (S : Z) : wf (new S : wtinylfu_cache.t K V F).
Proof.
  split.
  - intros []; apply NoDup_nil_2.
  - intros ct pos. simpl. rewrite lookup_empty.
    split; [by destruct ct; intros ?%elem_of_nil|by intros (? & ? & _)].
  - intros k pos. simpl. rewrite !lookup_empty.
    split; [done|by intros (? & ? & _)].
  - intros pos. simpl. rewrite lookup_empty. by intros [? ?].
Qed.

End cache_wf.

Section cache_sound.
Context {K : Type} `{Countable K} {V F : Type} `{!FrequencySketch K F}.
Import wtinylfu_cache.
Implicit Types c : wtinylfu_cache.t K V F.


Lemma assign_or_emplace_window_capacity k d c c' :
  assign_or_emplace k d c = Some c' ->
  lru.capacity (m_window c') = lru.capacity (m_window c).
Proof.
  unfold assign_or_emplace. intros Hc.
  destruct (m_page_map c !! k); simplify_option_eq; done.
Qed.

Lemma insert_window_capacity k d c c' :
  insert k d c = Some c' ->
  lru.capacity (m_window c') = lru.capacity (m_window c).
Proof.
  unfold insert. intros Hc.
  destruct (lru.is_full _); simpl in Hc.
  - destruct (evict c) as [c1|] eqn:He; simpl in Hc; [|done].
    apply assign_or_emplace_window_capacity in Hc. rewrite Hc.
    apply evict_resized in He as [He|[_ He]]; unfold resized in He; lia.
  - by apply assign_or_emplace_window_capacity in Hc.
Qed.

Lemma get_keeps_window_capacity k c c' r :
  get k c = Some (c', r) ->
  lru.capacity (m_window c') = lru.capacity (m_window c).
Proof.
  unfold get. simpl. intros Hg.
  destruct (m_page_map c !! k) as [pos|]; [|by simplify_eq].
  destruct (handle_hit pos _) as [c2|] eqn:Hh; simplify_option_eq.
  apply handle_hit_resized in Hh. unfold resized in Hh. simpl in Hh. lia.
Qed.

Lemma erase_window_capacity k c c' :
  erase k c = Some c' ->
  lru.capacity (m_window c') = lru.capacity (m_window c).
Proof.
  unfold erase. intros Hc.
  destruct (m_page_map c !! k) as [pos|]; [|by simplify_eq].
  destruct (nodes c !! pos) as [p|]; simpl in Hc; [|done].
  case_decide.
  - destruct (lru.erase _ _) eqn:He; simplify_option_eq.
    apply lru_erase_size in He as [_ He]. unfold lru.capacity in *. done.
  - destruct (slru.erase _ _ _); by simplify_option_eq.
Qed.

Lemma change_capacity_window_capacity n c c' :
  change_capacity n c = Some (inr c') ->
  1 <= lru.capacity (m_window c').
Proof.
  unfold change_capacity. intros Hc. case_bool_decide; [done|].
  destruct (evict_window_loop _ _) as [c1|] eqn:H1; simpl in Hc; [|done].
  destruct (evict_main_loop _ _) as [c2|] eqn:H2; simplify_option_eq.
  apply evict_window_loop_main in H1 as [_ H1].
  apply evict_main_loop_not_full in H2 as (_ & _ & H2).
  rewrite H2, H1. apply get_window_capacity_ge_1.
Qed.

Lemma step_sound o c c' : sound c -> step o c = Some c' -> sound c'.
Proof.
  intros (Hwf & Hb & Hcap) Hs.
  split; [|split; [by eapply step_bounded|]];
    destruct o as [k|k d|k|n]; simpl in Hs.
  - destruct (get_Some k c Hwf) as (c1 & r & Hg & Hwf1 & _).
    rewrite Hg in Hs. by simplify_eq/=.
  - by eapply wf_insert.
  - destruct (erase_Some k c Hwf) as (c1 & He & Hwf1).
    rewrite He in Hs. by simplify_eq.
  - destruct (change_capacity n c) as [[e|c1]|] eqn:Hc; simplify_option_eq;
      [done|]. by eapply wf_change_capacity.
  - destruct (get k c) as [[c1 r]|] eqn:Hg; simplify_option_eq.
    apply get_keeps_window_capacity in Hg. lia.
  - apply insert_window_capacity in Hs. lia.
  - apply erase_window_capacity in Hs. lia.
  - destruct (change_capacity n c) as [[e|c1]|] eqn:Hc; simplify_option_eq;
      [done|]. by eapply change_capacity_window_capacity.
Qed.

Lemma run_sound os c c' : sound c -> run os c = Some c' -> sound c'.
Proof.
  revert c. induction os as [|o os IH]; intros c Hb Hr; simpl in Hr.
  - by simplify_eq.
  - destruct (step o c) as [c1|] eqn:Hs; simpl in Hr; [|done].
    eapply IH; [|done]. by eapply step_sound.
Qed.

Lemma new_sound (S : Z) : 1 <= S -> sound (new S : wtinylfu_cache.t K V F).
Proof.
  intros HS. split; [apply wf_new|]. split; [by apply new_bounded|].
  apply get_window_capacity_ge_1.
Qed.

End cache_sound.


Section cache_claims.
Context {K : Type} `{Countable K} {V F : Type} `{!FrequencySketch K F}.
Import wtinylfu_cache.
Implicit Types c : wtinylfu_cache.t K V F.

(** C10. A [get] of a key that is not in the cache returns [nullptr] and
    leaves the page map, the window and the main cache as they are; the
    only change is that the sketch has recorded one access of the key. *)
Theorem get_miss_only_records_access k c :
  contains k c = false ->
  get k c = Some (mk (record_access k (m_filter c)) (m_page_map c)
                     (m_window c) (m_main c) (nodes c) (next_node c), None).
Proof.
  unfold contains, get. intros Hk. apply bool_decide_eq_false in Hk.
  simpl. destruct (m_page_map c !! k) eqn:E; [|done].
  exfalso. apply Hk. by eexists.
Qed.

(** C7, as amended.  When the window is not full, [insert(k, v')] of a key
    the cache holds replaces the data of its page and nothing else: page
    map, segments, positions, the other pages and the size are unchanged.
    When the window is full the eviction of [insert] runs first, on any
    key, and the value is replaced in the cache it leaves. *)
Theorem insert_present_replaces_data k d c pos p :
  m_page_map c !! k = Some pos ->
  nodes c !! pos = Some p ->
  (lru.is_full (m_window c) = false ->
   insert k d c
   = Some (mk (m_filter c) (m_page_map c) (m_window c) (m_main c)
              (<[pos := Page (key p) (cache_type p) d]> (nodes c))
              (next_node c))) /\
  (lru.is_full (m_window c) = true ->
   insert k d c = evict c ≫= assign_or_emplace k d).
Proof.
  intros Hk Hp. unfold insert. split; intros ->; simpl; [|done].
  unfold assign_or_emplace, set_data. rewrite Hk. simpl. rewrite Hp. done.
Qed.

End cache_claims.

Section contains_claims.
Context {K : Type} `{Countable K} {V F : Type} `{!FrequencySketch K F}.
Import wtinylfu_cache.
Implicit Types c : wtinylfu_cache.t K V F.



Lemma handle_hit_page_map pos c c' :
  handle_hit pos c = Some c' -> m_page_map c' = m_page_map c.
Proof.
  unfold handle_hit. intros Hc.
  destruct (nodes c !! pos); simpl in Hc; [|done].
  case_decide.
  - destruct (lru.handle_hit _ _); by simplify_option_eq.
  - destruct (slru.handle_hit _ _ _) as [[? ?]|]; by simplify_option_eq.
Qed.

Lemma get_page_map k c c' r :
  get k c = Some (c', r) -> m_page_map c' = m_page_map c.
Proof.
  unfold get. simpl. intros Hg.
  destruct (m_page_map c !! k) as [pos|]; [|by simplify_eq].
  destruct (handle_hit pos _) as [c2|] eqn:Hh; simplify_option_eq.
  by apply handle_hit_page_map in Hh.
Qed.

Lemma transfer_window_victim_page_map c c' :
  transfer_window_victim c = Some c' -> m_page_map c' = m_page_map c.
Proof.
  unfold transfer_window_victim. intros Hc.
  destruct (lru.get_lru_pos _); simpl in Hc; [|done].
  destruct (slru.transfer_page_from _ _ _ _) as [[[? ?] ?]|];
    by simplify_option_eq.
Qed.

Lemma evict_page_map c c1 :
  evict c = Some c1 ->
  m_page_map c1 = m_page_map c \/
  (capacity c <= size c /\
   exists wk mk_,
     lru.get_victim_key (nodes c) (m_window c) = Some wk /\
     slru.get_victim_key (nodes c) (m_main c) = Some mk_ /\
     m_page_map c1
     = delete (if bool_decide (get_frequency (m_filter c) mk_
                               < get_frequency (m_filter c) wk)
               then mk_ else wk) (m_page_map c)).
Proof.
  unfold evict. intros Hc. case_bool_decide as Hsz.
  2:{ left. by apply transfer_window_victim_page_map. }
  right. split; [done|]. unfold evict_from_window_or_main in Hc.
  destruct (lru.get_victim_key _ _) as [wk|] eqn:Hwk; simpl in Hc; [|done].
  destruct (slru.get_victim_key _ _) as [mk_|] eqn:Hmk; simpl in Hc; [|done].
  exists wk, mk_. split; [done|]. split; [done|].
  case_bool_decide.
  - destruct (evict_from_main c) as [c'|] eqn:He; simpl in Hc; [|done].
    apply transfer_window_victim_page_map in Hc. rewrite Hc.
    unfold evict_from_main in He. rewrite Hmk in He. simpl in He.
    destruct (slru.get_victim_pos _); simpl in He; [|done].
    destruct (slru.evict _); by simplify_option_eq.
  - unfold evict_from_window in Hc. rewrite Hwk in Hc. simpl in Hc.
    destruct (lru.get_lru_pos _); simpl in Hc; [|done].
    destruct (lru.evict _); by simplify_option_eq.
Qed.

Lemma assign_or_emplace_page_map k d c c' :
  assign_or_emplace k d c = Some c' ->
  is_Some (m_page_map c' !! k) /\
  forall k', k' ≠ k -> m_page_map c' !! k' = m_page_map c !! k'.
Proof.
  unfold assign_or_emplace. intros Hc.
  destruct (m_page_map c !! k) as [pos|] eqn:Hk.
  - destruct (set_data _ _ _); simplify_option_eq. split; [by eexists|done].
  - simplify_eq. simpl. rewrite lookup_insert_eq. split; [by eexists|].
    intros k' Hne. by rewrite lookup_insert_ne.
Qed.

Lemma insert_contains k d c c' : insert k d c = Some c' -> contains k c' = true.
Proof.
  unfold insert, contains. intros Hc.
  destruct (if lru.is_full _ then _ else _) as [c1|]; simpl in Hc; [|done].
  apply assign_or_emplace_page_map in Hc as [Hk _].
  by apply bool_decide_eq_true.
Qed.

Lemma contains_true k c : contains k c = true <-> is_Some (m_page_map c !! k).
Proof. unfold contains. apply bool_decide_eq_true. Qed.

Lemma contains_false k c : contains k c = false <-> m_page_map c !! k = None.
Proof.
  unfold contains. rewrite bool_decide_eq_false. symmetry.
  apply eq_None_not_Some.
Qed.

Lemma step_keeps_key k o c c' :
  contains k c = true -> step o c = Some c' -> contains k c' = false ->
  may_remove k o c.
Proof.
  rewrite contains_true, contains_false. intros [pos Hk] Hs Hk'.
  destruct o as [k'|k' d|k'|n]; simpl in *.
  - destruct (get k' c) as [[c1 r]|] eqn:Hg; simplify_option_eq.
    apply get_page_map in Hg. congruence.
  - unfold insert in Hs.
    destruct (lru.is_full (m_window c)) eqn:Hf.
    + destruct (evict c) as [c1|] eqn:He; simpl in Hs; [|done].
      apply assign_or_emplace_page_map in Hs as [[? Hin] Hout].
      assert (Hne : k' ≠ k) by (intros ->; congruence).
      split; [done|]. rewrite Hout in Hk' by congruence.
      apply evict_page_map in He as [He|(Hsz & wk & mk_ & Hwk & Hmk & He)];
        [congruence|].
      split; [done|]. split; [done|]. exists wk, mk_.
      split; [done|]. split; [done|].
      rewrite He in Hk'. apply lookup_delete_None in Hk' as [?|?]; congruence.
    + simpl in Hs. apply assign_or_emplace_page_map in Hs as [[? Hin] Hout].
      assert (Hne : k' ≠ k) by (intros ->; congruence).
      rewrite Hout in Hk' by congruence. congruence.
  - unfold erase in Hs.
    destruct (m_page_map c !! k') as [pos'|] eqn:Hk''; [|by simplify_eq].
    destruct (nodes c !! pos') as [p|]; simpl in Hs; [|done].
    assert (m_page_map c' = delete k' (m_page_map c)) as Hpm.
    { case_decide.
      - destruct (lru.erase _ _); by simplify_option_eq.
      - destruct (slru.erase _ _ _); by simplify_option_eq. }
    rewrite Hpm in Hk'. apply lookup_delete_None in Hk' as [?|?]; congruence.
  - destruct (change_capacity n c) as [[e|c1]|] eqn:Hc; simpl in Hs;
      [| |done]; simplify_eq.
    unfold change_capacity in Hc. case_bool_decide; [done|lia].
Qed.

(** C4, as amended.  After [insert(k, v)] returns, [contains(k)] is true,
    and it stays true over any following calls until one of them is an
    [erase(k)], an [insert] of another key whose eviction removes the
    entry of [k], or a [change_capacity]. *)
Theorem contains_after_insert k d c c1 :
  insert k d c = Some c1 ->
  contains k c1 = true /\
  forall os c2, run os c1 = Some c2 -> contains k c2 = false ->
    exists os1 o os2 ca,
      os = os1 ++ o :: os2 /\ run os1 c1 = Some ca /\
      contains k ca = true /\ may_remove k o ca.
Proof.
  intros Hi. pose proof (insert_contains _ _ _ _ Hi) as Hin.
  split; [done|]. clear Hi. revert Hin. generalize c1. clear c1.
  intros c1 Hin os. revert c1 Hin.
  induction os as [|o os IH]; intros c1 Hin c2 Hr Hout; simpl in Hr.
  - simplify_eq. congruence.
  - destruct (step o c1) as [c'|] eqn:Hs; simpl in Hr; [|done].
    destruct (contains k c') eqn:Hc'.
    + destruct (IH c' Hc' c2 Hr Hout) as (os1 & o' & os2 & ca & -> & Hr1 & ? & ?).
      exists (o :: os1), o', os2, ca. split; [done|].
      split; [|done]. simpl. rewrite Hs. done.
    + exists [], o, os, c1. repeat split; try done.
      by eapply step_keeps_key.
Qed.

End contains_claims.

Section eviction_claims.
Context {K : Type} `{Countable K} {V F : Type} `{!FrequencySketch K F}.
Import wtinylfu_cache.
Implicit Types c : wtinylfu_cache.t K V F.

Lemma wf_snoc_unlink c ct l pos :
  wf c -> segment ct c = l ++ [pos] -> unlink pos (segment ct c) = Some l.
Proof.
  intros Hwf Hl. rewrite Hl. apply unlink_snoc. rewrite <- Hl. apply Hwf.
Qed.



(** ** slru::handle_hit *)


(** C6, as amended.  A hit on a probationary page (node [pos], page [p])
    moves it to the MRU position of the safe segment; if the safe segment
    has then reached its capacity ([size() >= capacity()]), its LRU node
    (page [pl]) is moved to the MRU position of the probationary segment.
    A hit on a safe page moves it to the MRU position of the safe segment.
    The victim is the LRU node of the probationary segment. *)
Theorem slru_handle_hit_moves c pos p :
  wf c ->
  nodes c !! pos = Some p ->
  (cache_type p = probationary ->
   forall l', unlink pos (segment probationary c) = Some l' ->
     let c1 := moved pos p safe l' c in
     (lru.size (slru.m_safe (m_main c1)) < lru.capacity (slru.m_safe (m_main c1)) ->
      slru.handle_hit pos (nodes c) (m_main c) = Some (nodes c1, m_main c1)) /\
     (lru.capacity (slru.m_safe (m_main c1)) <= lru.size (slru.m_safe (m_main c1)) ->
      forall sf l pl,
        segment safe c1 = sf ++ [l] -> nodes c1 !! l = Some pl ->
        let c2 := moved l pl probationary sf c1 in
        slru.handle_hit pos (nodes c) (m_main c) = Some (nodes c2, m_main c2))) /\
  (cache_type p = safe ->
   forall l', unlink pos (segment safe c) = Some l' ->
     slru.handle_hit pos (nodes c) (m_main c)
     = Some (nodes c,
             slru.mk (lru.mk (pos :: l') (lru.m_capacity (slru.m_safe (m_main c))))
                     (slru.m_probationary (m_main c)))) /\
  slru.get_victim_pos (m_main c) = last (segment probationary c).
Proof.
  intros Hwf Hp. split; [|split; [|done]].
  - intros Hct l' Hu c1.
    destruct (promote_to_safe_Some c pos p Hwf Hp Hct) as (l1 & Hu1 & Hpr & _).
    assert (l1 = l') as -> by congruence. fold c1 in Hpr.
    assert (Hwf1 : wf c1).
    { apply wf_moved; [done..|]. by rewrite Hct. }
    unfold slru.handle_hit. rewrite Hp. cbn [mbind option_bind].
    rewrite Hct, Hpr. cbn [mbind option_bind]. split.
    + intros Hlt. unfold lru.is_full.
      by rewrite bool_decide_eq_false_2 by lia.
    + intros Hge sf l pl Hsf Hpl. unfold lru.is_full.
      rewrite bool_decide_eq_true_2 by done.
      assert (Hl : lru.get_lru_pos (slru.m_safe (m_main c1)) = Some l).
      { unfold lru.get_lru_pos.
        change (lru.m_lru (slru.m_safe (m_main c1))) with (segment safe c1).
        rewrite Hsf. apply last_snoc. }
      rewrite Hl. cbn [mbind option_bind].
      destruct (demote_to_probationary_Some c1 l Hwf1 Hl)
        as (pl' & l2 & Hpl' & Hctl & Hu2 & Hde & _).
      assert (pl' = pl) as -> by congruence.
      pose proof (wf_snoc_unlink c1 safe sf l Hwf1 Hsf) as Hu2'.
      assert (l2 = sf) as -> by congruence.
      exact Hde.
  - intros Hct l' Hu. unfold slru.handle_hit. rewrite Hp. simpl. rewrite Hct.
    unfold lru.handle_hit, lru.erase. simpl in Hu. rewrite Hu. done.
Qed.

End eviction_claims.

(** ** Closed instances *)

Lemma full_cache_run :
  wtinylfu_cache.run six_inserts (wtinylfu_cache.new 6) = Some full_cache.
Proof. vm_compute. reflexivity. Qed.

Lemma hot_cache_run :
  wtinylfu_cache.run hits_and_inserts (wtinylfu_cache.new 6) = Some hot_cache.
Proof. vm_compute. reflexivity. Qed.

Lemma one_page_cache_run :
  wtinylfu_cache.run
    [wtinylfu_cache.Insert 1 10; wtinylfu_cache.Insert 2 20;
     wtinylfu_cache.Erase 2] (wtinylfu_cache.new 6)
  = Some one_page_cache.
Proof. vm_compute. reflexivity. Qed.


Lemma hot_cache_wf : wf hot_cache.
Proof.
  exact (proj1 (run_sound hits_and_inserts (wtinylfu_cache.new 6) hot_cache
                  (new_sound 6 ltac:(lia)) hot_cache_run)).
Qed.


(** C4, as stated, fails: [change_capacity] removes an entry that no
    [insert] evicted and no [erase] named.  Even with the capacity the
    cache already has, it empties a window of capacity one. *)
Lemma contains_lost_by_change_capacity :
  wtinylfu_cache.contains 1
    <$> wtinylfu_cache.run [wtinylfu_cache.Insert 1 10] (wtinylfu_cache.new 6)
  = Some true /\
  wtinylfu_cache.contains 1
    <$> wtinylfu_cache.run
          [wtinylfu_cache.Insert 1 10; wtinylfu_cache.ChangeCapacity 6]
          (wtinylfu_cache.new 6 : zcache)
  = Some false.
Proof. by vm_compute. Qed.

Lemma contains_after_insert_witness :
  wtinylfu_cache.contains 7
    <$> wtinylfu_cache.insert 7 70 full_cache = Some true.
Proof.
  destruct (wtinylfu_cache.insert 7 70 full_cache) as [c1|] eqn:Hi.
  - simpl. f_equal. exact (proj1 (contains_after_insert 7 70 full_cache c1 Hi)).
  - by vm_compute in Hi.
Defined.

(** C5: the constructor of [slru] converts both [0.8f * capacity] and
    [capacity - 0.8f * capacity] to [int], so the two segments can add up
    to less than the main cache's capacity, and [capacity()] to less than
    the capacity the cache was constructed with; [set_capacity] gives the
    probationary segment what the safe segment leaves. *)
Theorem constructed_capacity_is_short :
  wtinylfu_cache.capacity (wtinylfu_cache.new 2 : zcache) = 1 /\
  wtinylfu_cache.capacity (wtinylfu_cache.new 100 : zcache) = 99 /\
  slru.capacity (slru.new 99) = 98 /\
  slru.capacity (slru.set_capacity 99 (slru.new 0)) = 99.
Proof. by vm_compute. Qed.

(** C6, as stated, fails: in [hot_cache] the safe segment has capacity 4
    and holds 3 pages.  A hit on the probationary page (node 3) makes it
    hold 4, which is not over its capacity, and still its LRU page (node
    0) is moved to the probationary segment. *)
Lemma handle_hit_demotes_at_capacity :
  snd <$> slru.handle_hit 3%nat (wtinylfu_cache.nodes hot_cache)
            (wtinylfu_cache.m_main hot_cache)
  = Some (slru.mk (lru.mk [3%nat; 2%nat; 1%nat] 4) (lru.mk [0%nat] 1)) /\
  snd <$> handle_hit_as_specified 3%nat (wtinylfu_cache.nodes hot_cache)
            (wtinylfu_cache.m_main hot_cache)
  = Some (slru.mk (lru.mk [3%nat; 2%nat; 1%nat; 0%nat] 4) (lru.mk [] 1)).
Proof. by vm_compute. Qed.

Lemma slru_handle_hit_moves_witness :
  slru.handle_hit 3%nat (wtinylfu_cache.nodes hot_cache)
    (wtinylfu_cache.m_main hot_cache)
  = Some (wtinylfu_cache.nodes
            (moved 0%nat (Page 1 safe 10) probationary [3%nat; 2%nat; 1%nat]
               (moved 3%nat (Page 4 probationary 40) safe [] hot_cache)),
          wtinylfu_cache.m_main
            (moved 0%nat (Page 1 safe 10) probationary [3%nat; 2%nat; 1%nat]
               (moved 3%nat (Page 4 probationary 40) safe [] hot_cache))).
Proof.
  exact (proj2 (proj1 (slru_handle_hit_moves hot_cache 3%nat
                         (Page 4 probationary 40) hot_cache_wf eq_refl)
                  eq_refl [] eq_refl)
           ltac:(by vm_compute) [3%nat; 2%nat; 1%nat] 0%nat (Page 1 safe 10)
           eq_refl eq_refl).
Defined.

(** C7, as stated, fails.  A cache of capacity 6 has a window of capacity
    1, full as soon as it holds a page: the second [insert] of key 1 moves
    its page from the window to the probationary segment, and in the full
    cache an [insert] of the present key 3 removes the entry of key 6. *)
Lemma insert_present_moves_or_evicts :
  (λ c : zcache, (wtinylfu_cache.contains 1 c, segment window c,
                  segment probationary c))
    <$> wtinylfu_cache.run [wtinylfu_cache.Insert 1 10] (wtinylfu_cache.new 6)
  = Some (true, [0%nat], []) /\
  (λ c : zcache, (wtinylfu_cache.contains 1 c, segment window c,
                  segment probationary c))
    <$> wtinylfu_cache.run
          [wtinylfu_cache.Insert 1 10; wtinylfu_cache.Insert 1 11]
          (wtinylfu_cache.new 6)
  = Some (true, [], [0%nat]) /\
  (wtinylfu_cache.contains 3 full_cache, wtinylfu_cache.contains 6 full_cache,
   wtinylfu_cache.size full_cache) = (true, true, 6) /\
  (λ c : zcache, (wtinylfu_cache.contains 6 c, wtinylfu_cache.size c))
    <$> wtinylfu_cache.insert 3 31 full_cache
  = Some (false, 5).
Proof. by vm_compute. Qed.

Lemma insert_present_replaces_data_witness :
  wtinylfu_cache.insert 1 11 one_page_cache
  = Some (wtinylfu_cache.mk (count_min.new 6) (list_to_map [(1, 0%nat)])
            (lru.mk [] 1) (slru.mk (lru.mk [] 4) (lru.mk [0%nat] 1))
            (<[0%nat := Page 1 probationary 11]>
               (list_to_map [(0%nat, Page 1 probationary 10)]))
            2%nat).
Proof.
  exact (proj1 (insert_present_replaces_data 1 11 one_page_cache 0%nat
                  (Page 1 probationary 10) eq_refl eq_refl) eq_refl).
Defined.

(** C9: the second [insert] into a cache of capacity 1 consults the main
    cache's victim while the probationary segment is empty.  After the
    first [insert] the window is full and [size() >= capacity()], so
    [evict_from_window_or_main] runs; [m_main.get_victim_key()] then
    dereferences [--end()] of an empty list.  [change_capacity(1)] does the
    same on any cache: the main cache of capacity 0 is always full. *)
Theorem capacity_one_second_insert_undefined :
  (λ c : zcache,
     (lru.is_full (wtinylfu_cache.m_window c),
      bool_decide (wtinylfu_cache.capacity c <= wtinylfu_cache.size c),
      segment probationary c,
      slru.get_victim_pos (wtinylfu_cache.m_main c),
      wtinylfu_cache.evict_from_window_or_main c))
    <$> wtinylfu_cache.run [wtinylfu_cache.Insert 1 10] (wtinylfu_cache.new 1)
  = Some (true, true, [], None, None) /\
  wtinylfu_cache.run [wtinylfu_cache.Insert 1 10; wtinylfu_cache.Insert 2 20]
    (wtinylfu_cache.new 1 : zcache) = None /\
  wtinylfu_cache.change_capacity 1 (wtinylfu_cache.new 6 : zcache) = None.
Proof. by vm_compute. Qed.

Lemma get_miss_only_records_access_witness :
  wtinylfu_cache.get 9 full_cache
  = Some (wtinylfu_cache.mk
            (count_min.record_access 9 (wtinylfu_cache.m_filter full_cache))
            (wtinylfu_cache.m_page_map full_cache)
            (wtinylfu_cache.m_window full_cache)
            (wtinylfu_cache.m_main full_cache)
            (wtinylfu_cache.nodes full_cache)
            (wtinylfu_cache.next_node full_cache), None).
Proof.
  exact (get_miss_only_records_access 9 full_cache ltac:(by vm_compute)).
Defined.
(* ------------------------------------------------------------------ *)
(** ** The write pipeline of disk_io: the order of hashing *)
(* ------------------------------------------------------------------ *)

Section hashing_order.
Import partial_piece disk_io.
Implicit Types (taken : list (Z * list Byte.byte)) (chunks : list (list Byte.byte)).
Implicit Types (p : partial_piece.t) (bs : list block.t).

Lemma in_offset_order_mono taken taken' start chunks :
  taken ⊆ taken' -> in_offset_order taken start chunks ->
  in_offset_order taken' start chunks.
Proof.
  intros Hsub. revert start.
  induction chunks as [|d rest IH]; intros start; simpl; [done|].
  intros (Hin & Hne & Hrest). split; [by apply Hsub|]. split; [done|].
  by apply IH.
Qed.

Lemma fed_length_nil : fed_length [] = 0.
Proof. done. Qed.

Lemma fed_length_cons d chunks :
  fed_length (d :: chunks) = Z.of_nat (List.length d) + fed_length chunks.
Proof. unfold fed_length. simpl. rewrite length_app. lia. Qed.

Lemma fed_length_app chunks chunks' :
  fed_length (chunks ++ chunks') = fed_length chunks + fed_length chunks'.
Proof.
  induction chunks as [|d rest IH]; simpl.
  - rewrite fed_length_nil. lia.
  - rewrite !fed_length_cons, IH. lia.
Qed.

Lemma fed_length_nonneg chunks : 0 <= fed_length chunks.
Proof. unfold fed_length. lia. Qed.

Lemma in_offset_order_app taken start chunks chunks' :
  in_offset_order taken start chunks ->
  in_offset_order taken (start + fed_length chunks) chunks' ->
  in_offset_order taken start (chunks ++ chunks').
Proof.
  revert start. induction chunks as [|d rest IH]; intros start; simpl.
  - rewrite fed_length_nil, Z.add_0_r. done.
  - intros (Hin & Hne & Hrest) Hmore. split; [done|]. split; [done|].
    apply IH; [done|]. rewrite fed_length_cons in Hmore.
    by rewrite <- Z.add_assoc.
Qed.

Lemma taken_block_mono taken taken' b :
  taken ⊆ taken' -> taken_block taken b -> taken_block taken' b.
Proof. intros Hsub [Hin Hne]. split; [by apply Hsub|done]. Qed.

(** Blocks that follow one another from [start] are chunks in offset
    order from [start]. *)
Lemma contiguous_in_offset_order taken start bs :
  contiguous_from start bs = List.length bs ->
  Forall (taken_block taken) bs ->
  in_offset_order taken start (block.buffer <$> bs).
Proof.
  revert start. induction bs as [|b bs IH]; intros start Hc Hall; simpl;
    [done|].
  simpl in Hc. case_bool_decide as Ho; [|done].
  apply Forall_cons in Hall as [[Hin Hne] Hall]. rewrite <- Ho.
  split; [done|]. split; [done|].
  apply IH; [|done]. unfold block.size in Hc. by simplify_eq.
Qed.

Lemma contiguous_from_le start bs :
  (contiguous_from start bs <= List.length bs)%nat.
Proof.
  revert start. induction bs as [|b bs IH]; intros start; simpl; [done|].
  case_bool_decide; [|lia]. specialize (IH (start + block.size b)). lia.
Qed.

Lemma contiguous_from_take start bs :
  contiguous_from start (take (contiguous_from start bs) bs)
  = List.length (take (contiguous_from start bs) bs).
Proof.
  revert start. induction bs as [|b bs IH]; intros start; simpl; [done|].
  case_bool_decide as Ho; [|done]. simpl. rewrite bool_decide_eq_true_2 by done.
  by rewrite IH.
Qed.

Lemma hash_blocks_hasher bs p :
  sha1_hasher.context_ (hasher (hash_blocks bs p))
  = sha1_hasher.context_ (hasher p) ++ (block.buffer <$> bs).
Proof.
  unfold hash_blocks. simpl. generalize (hasher p). 
  induction bs as [|b bs IH]; intros h; simpl.
  - by rewrite app_nil_r.
  - rewrite IH. unfold sha1_hasher.update. simpl. by rewrite <- app_assoc.
Qed.

Lemma hash_blocks_offset bs p :
  unhashed_offset (hash_blocks bs p)
  = unhashed_offset p + fed_length (block.buffer <$> bs).
Proof.
  unfold hash_blocks. simpl. f_equal.
  induction bs as [|b bs IH]; simpl; [done|].
  rewrite fed_length_cons, IH. done.
Qed.

(** Feeding blocks that follow one another from [unhashed_offset] keeps
    the hasher in offset order and [unhashed_offset] at its end. *)
Lemma hash_blocks_in_order taken bs p :
  in_offset_order taken 0 (sha1_hasher.context_ (hasher p)) ->
  unhashed_offset p = fed_length (sha1_hasher.context_ (hasher p)) ->
  contiguous_from (unhashed_offset p) bs = List.length bs ->
  Forall (taken_block taken) bs ->
  in_offset_order taken 0 (sha1_hasher.context_ (hasher (hash_blocks bs p))) /\
  unhashed_offset (hash_blocks bs p)
  = fed_length (sha1_hasher.context_ (hasher (hash_blocks bs p))).
Proof.
  intros Hord Htot Hc Hall. rewrite hash_blocks_hasher, hash_blocks_offset.
  split.
  - apply in_offset_order_app; [done|]. rewrite Z.add_0_l, <- Htot.
    by apply contiguous_in_offset_order.
  - rewrite fed_length_app. lia.
Qed.

Lemma insert_block_Permutation b bs : insert_block b bs ≡ₚ b :: bs.
Proof.
  induction bs as [|x bs IH]; simpl; [done|].
  case_bool_decide; [done|]. rewrite IH. apply Permutation_swap.
Qed.

Lemma restore_Permutation failed bs :
  foldr insert_block bs failed ≡ₚ failed ++ bs.
Proof.
  induction failed as [|b failed IH]; simpl; [done|].
  by rewrite insert_block_Permutation, IH.
Qed.


Section steps.
Variables (L C : Z) (sha1 : list Byte.byte -> Z) (expected_hash : Z -> Z).

Lemma transfer_Permutation n p :
  buffer (transfer_to_work_buffer n p) ++ work_buffer (transfer_to_work_buffer n p)
  ≡ₚ buffer p ++ work_buffer p.
Proof.
  unfold transfer_to_work_buffer. simpl.
  rewrite <- (take_drop n (buffer p)) at 3.
  rewrite (Permutation_app_comm (work_buffer p)).
  rewrite app_assoc. apply Permutation_app_tail, Permutation_app_comm.
Qed.

(** What [dispatch_write] does: hasher and [unhashed_offset] stay, the
    blocks are the same, and either no job is posted and the piece is as
    busy as before, or the piece was not busy, is busy now, and a job is
    posted; the blocks handed to [hash_and_save_blocks] are the hashable
    prefix of [buffer]. *)
Lemma dispatch_write_spec p p' es :
  dispatch_write L C p = (p', es) ->
  hasher p' = hasher p /\ unhashed_offset p' = unhashed_offset p /\
  buffer p' ++ work_buffer p' ≡ₚ buffer p ++ work_buffer p /\
  match posted es with
  | None => is_busy p' = is_busy p /\ work_buffer p' = work_buffer p
  | Some j =>
      is_busy p = false /\ is_busy p' = true /\
      (j = hash_and_save_blocks ->
       work_buffer p' = work_buffer p ++ take (hashable_range p) (buffer p))
  end.
Proof.
  unfold dispatch_write. intros Hd.
  destruct (is_busy p) eqn:Hb; [by simplify_eq|].
  destruct (is_complete p).
  { simplify_eq. repeat split; try done. apply transfer_Permutation. }
  case_bool_decide.
  { simplify_eq. repeat split; try done. apply transfer_Permutation. }
  case_bool_decide.
  { simplify_eq. repeat split; try done. apply transfer_Permutation. }
  destruct (timer_armed p); by simplify_eq.
Qed.

Lemma posted_cases es : posted es = None \/ exists j, posted es = Some j.
Proof. destruct (posted es); eauto. Qed.

Lemma blocks_taken_mono taken taken' p st :
  taken ⊆ taken' -> blocks_taken taken p st -> blocks_taken taken' p st.
Proof.
  intros Hsub (Ho & Ht & Hb & Hs). split; [by eapply in_offset_order_mono|].
  split; [done|]. split.
  - eapply Forall_impl; [done|]. intros b. by apply taken_block_mono.
  - intros o d Hod. destruct (Hs o d Hod). split; [by apply Hsub|done].
Qed.

Lemma subseteq_cons_r {A} (x : A) (l : list A) : l ⊆ x :: l.
Proof. intros y Hy. apply elem_of_cons. by right. Qed.

Lemma phase_ok_mono taken taken' s p p' :
  taken ⊆ taken' ->
  is_busy p' = is_busy p -> work_buffer p' = work_buffer p ->
  unhashed_offset p' = unhashed_offset p -> hasher p' = hasher p ->
  phase_ok taken s p -> phase_ok taken' s p'.
Proof.
  intros Hsub Hb Hwb Hu Hh. unfold phase_ok. rewrite Hb, Hwb, Hu, Hh.
  destruct s as [|j|j [saved failed|v]|]; try done.
  intros (? & Hf & ?). split; [done|]. split; [|done].
  eapply Forall_impl; [done|]. intros b. by apply taken_block_mono.
Qed.

(** [dispatch_write] on a piece in phase [s]. *)
Lemma dispatch_write_invariant taken st s p p' es :
  blocks_taken taken p st -> phase_ok taken s p -> s ≠ Finished ->
  dispatch_write L C p = (p', es) ->
  hashing_invariant (World p' st (after_dispatch es s) taken).
Proof.
  intros (Ho & Ht & Hb & Hs) Hph Hfin Hd.
  apply dispatch_write_spec in Hd as (Hh & Hu & Hperm & Hpost).
  split; simpl.
  { unfold blocks_taken. rewrite Hh, Hu, Hperm. done. }
  unfold after_dispatch, phase_ok in *. destruct (posted es) as [j|].
  - destruct Hpost as (Hb0 & Hb1 & Hwb).
    destruct s as [|j'|j' [? ?|?]|]; try (destruct Hph; congruence);
      try congruence.
    destruct Hph as [_ Hnil]. split; [done|]. intros ->.
    rewrite Hwb, Hnil, Hu by done. simpl. apply contiguous_from_take.
  - destruct Hpost as (Hb0 & Hwb). rewrite Hb0, Hwb, Hu, Hh.
    destruct s as [|j'|j' [? ?|?]|]; done.
Qed.

Lemma write_blocks_lookup (P : Z -> list Byte.byte -> Prop) bs
    (st : gmap Z (list Byte.byte)) :
  (forall o d, st !! o = Some d -> P o d) ->
  Forall (λ b, P (block.offset b) (block.buffer b)) bs ->
  forall o d, write_blocks bs st !! o = Some d -> P o d.
Proof.
  unfold write_blocks. revert st.
  induction bs as [|b bs IH]; intros st Hst Hall o d; simpl; [by apply Hst|].
  apply Forall_cons in Hall as [Hb Hall]. apply IH; [|done].
  intros o' d'. rewrite lookup_insert. case_decide; [|by apply Hst].
  intros; by simplify_eq.
Qed.

Lemma contiguous_runs_Forall (P : block.t -> Prop) rounds bs :
  Forall P bs -> Forall (Forall P) (contiguous_runs rounds bs).
Proof.
  revert bs. induction rounds as [|r IH]; intros bs Hall; simpl; [done|].
  destruct bs as [|b bs]; [done|].
  apply Forall_cons. split; [by apply Forall_take|].
  apply IH. by apply Forall_drop.
Qed.

Lemma filtered_runs_Forall (P : block.t -> Prop) (f : list block.t * bool -> Prop)
    `{!forall x, Decision (f x)} (g : nat -> bool)
    (runs : list (list block.t)) (idx : list nat) :
  Forall (Forall P) runs ->
  Forall P (concat (fst <$> filter f (zip_with (λ r i, (r, g i)) runs idx))).
Proof.
  revert idx. induction runs as [|r runs IH]; intros idx Hall; simpl; [done|].
  destruct idx as [|i idx]; simpl; [done|].
  apply Forall_cons in Hall as [Hr Hall].
  rewrite filter_cons. case_decide; simpl; [|by apply IH].
  apply Forall_app. split; [done|by apply IH].
Qed.

Lemma finish_hashing_in_order taken st rounds p :
  blocks_taken taken p st ->
  blocks_taken taken (finish_hashing rounds st p) st /\
  buffer (finish_hashing rounds st p) = buffer p /\
  work_buffer (finish_hashing rounds st p) = work_buffer p /\
  is_busy (finish_hashing rounds st p) = is_busy p /\
  sha1_hasher.context_ (hasher p)
    `prefix_of` sha1_hasher.context_ (hasher (finish_hashing rounds st p)).
Proof.
  revert p. induction rounds as [|r IH]; intros p Hp; simpl; [done|].
  case_bool_decide; [done|].
  set (o := unhashed_offset p).
  destruct (if block.buffer <$> find _ (work_buffer p) is Some d then Some d
            else _) as [d|] eqn:Hsrc; [|done].
  assert (Hd : (o, d) ∈ taken /\ d ≠ []).
  { destruct Hp as (_ & _ & Hb & Hs).
    destruct (find _ (work_buffer p)) as [b|] eqn:Hf; simpl in Hsrc.
    - simplify_eq. apply find_some in Hf as [Hin Ho].
      apply bool_decide_eq_true in Ho. rewrite <- Ho.
      rewrite Forall_forall in Hb. apply Hb.
      apply elem_of_app. right. by apply list_elem_of_In.
    - destruct (default false _); [|done]. by apply Hs. }
  set (p1 := hash_blocks [block.mk d o O] p).
  assert (Hp1 : blocks_taken taken p1 st).
  { destruct Hp as (Hord & Htot & Hb & Hs).
    destruct (hash_blocks_in_order taken [block.mk d o O] p Hord Htot)
      as [Hord1 Htot1].
    - simpl. by rewrite bool_decide_eq_true_2.
    - apply Forall_cons. split; [done|by apply Forall_nil].
    - split; [done|]. split; [done|]. split; done. }
  destruct (IH p1 Hp1) as (H1 & H2 & H3 & H4 & Hpre).
  split; [exact H1|]. split; [by rewrite H2|]. split; [by rewrite H3|].
  split; [by rewrite H4|].
  etrans; [|exact Hpre]. unfold p1. rewrite hash_blocks_hasher.
  by apply prefix_app_r.
Qed.

Lemma block_in_piece_nonempty b p :
  block_in_piece b p = true -> block.buffer b ≠ [].
Proof.
  unfold block_in_piece. intros Hv Hnil.
  repeat (apply andb_true_iff in Hv as [Hv ?]).
  repeat match goal with H : bool_decide _ = true |- _ =>
    apply bool_decide_eq_true in H end.
  unfold block.size in *. rewrite Hnil in *. simpl in *. lia.
Qed.

(** A new block in [buffer] is a block of the piece. *)
Lemma buffered_block_taken taken st b p :
  blocks_taken taken p st -> block_in_piece b p = true ->
  blocks_taken ((block.offset b, block.buffer b) :: taken)
    (mk (insert_block b (buffer p)) (work_buffer p) (save_progress p)
        (is_busy p) (num_saved_blocks p) (unhashed_offset p) (index p)
        (length p) (completion_handler p) (hasher p) (timer_armed p)) st.
Proof.
  intros (Ho & Ht & Hb & Hst) Hv.
  pose proof (subseteq_cons_r (block.offset b, block.buffer b) taken) as Hsub.
  split; [by eapply in_offset_order_mono|]. split; [done|]. split.
  - simpl. rewrite insert_block_Permutation. simpl. apply Forall_cons. split.
    + split; [apply elem_of_cons; by left|by eapply block_in_piece_nonempty].
    + eapply Forall_impl; [done|]. intros ?. by apply taken_block_mono.
  - intros o d Hod. destruct (Hst o d Hod). split; [by apply Hsub|done].
Qed.

Lemma posted_save_handlers saved es :
  posted (((λ b, InvokeSaveHandler (block.save_handler b) None) <$> saved) ++ es)
  = posted es.
Proof.
  unfold posted. f_equal. rewrite omap_app.
  replace (omap _ (_ <$> saved)) with (@nil job); [done|].
  by induction saved.
Qed.

(** Every event keeps the invariant. *)
Lemma step_invariant e w w' es :
  hashing_invariant w -> step L C sha1 expected_hash e w = Some (w', es) ->
  hashing_invariant w'.
Proof.
  intros [Hbt Hph] Hs. destruct w as [p st s taken]. simpl in *.
  unfold step in Hs. simpl in Hs.
  assert (Hfin : s ≠ Finished) by (intros ->; by destruct e).
  destruct e as [b| |oks|].
  - (* a block arrives *)
    assert (Hs' : (if block_in_piece b p
                   then let '(p0, es0) := accept_block L C b p in
                        Some (World p0 st (after_dispatch es0 s)
                                (if is_saved b p then taken
                                 else (block.offset b, block.buffer b) :: taken),
                              es0)
                   else None) = Some (w', es)) by (by destruct s).
    clear Hs. destruct (block_in_piece b p) eqn:Hv; [|done].
    unfold accept_block in Hs'. destruct (is_saved b p).
    { simplify_eq. split; [done|]. simpl.
      unfold after_dispatch, posted. simpl. done. }
    destruct (buffer_block L C b p) as [p' es'] eqn:Hd. simplify_eq.
    unfold buffer_block in Hd.
    eapply dispatch_write_invariant; [| |done|exact Hd].
    + by apply buffered_block_taken.
    + eapply phase_ok_mono; [apply subseteq_cons_r|..|exact Hph]; done.
  - (* the timer expires *)
    assert (Hs' : (if timer_armed p
                   then let '(p0, es0) := on_write_buffer_expiry p in
                        Some (World p0 st (after_dispatch es0 s) taken, es0)
                   else None) = Some (w', es)) by (by destruct s).
    clear Hs. destruct (timer_armed p); [|done].
    unfold on_write_buffer_expiry in Hs'.
    destruct (is_busy p) eqn:Hb; simpl in Hs'.
    { simplify_eq. split; [done|]. simpl.
      eapply phase_ok_mono; [done|..|exact Hph]; done. }
    assert (Hwb : s = Idle /\ work_buffer p = []).
    { clear Hs'. destruct s as [|j|j [? ?|?]|]; simpl in Hph.
      - by destruct Hph.
      - destruct Hph as [Hb' _]. congruence.
      - destruct Hph as [Hb' _]. congruence.
      - congruence.
      - done. }
    destruct Hwb as [-> Hwb].
    destruct (buffer p) as [|b0 bs0] eqn:Hbuf; simplify_eq.
    + split; [|done]. simpl. unfold blocks_taken in *. simpl.
      by rewrite Hbuf, Hwb in *.
    + split; [|done]. simpl. destruct Hbt as (Ho & Htt & Hall & Hst).
      unfold blocks_taken. simpl. rewrite Hwb in *. simpl.
      rewrite Hbuf in Hall. rewrite app_nil_r in Hall.
      apply Forall_cons in Hall as [Hb0 Hbs].
      split; [done|]. split; [done|]. split; [|done].
      apply Forall_app. split; [by apply Forall_drop|].
      apply Forall_cons. split; [done|by apply Forall_take].
  - (* the worker runs *)
    destruct s as [|j|j o|] eqn:Es; try done.
    destruct Hph as [Hb Hc]. destruct Hbt as (Ho & Ht & Hall & Hst).
    assert (Hwb : Forall (taken_block taken) (work_buffer p)).
    { apply Forall_app in Hall. tauto. }
    destruct j.
    + (* handle_complete_piece *)
      unfold run_handle_complete_piece in Hs. simplify_eq.
      destruct (finish_hashing_in_order taken st
                  (Z.to_nat (num_blocks p)) p) as (Hbt' & Hbuf & Hwbuf & Hbusy & _);
        [done|].
      split; [done|]. simpl. congruence.
    + (* hash_and_save_blocks *)
      unfold run_hash_and_save_blocks in Hs.
      destruct (hash_blocks_in_order taken (work_buffer p) p Ho Ht (Hc eq_refl) Hwb)
        as [Ho' Ht'].
      assert (Hfed : (block.buffer <$> work_buffer p)
                       `suffix_of` sha1_hasher.context_
                                     (hasher (hash_blocks (work_buffer p) p))).
      { rewrite hash_blocks_hasher. by apply suffix_app_r. }
      destruct (default true (head oks)); simplify_eq.
      * split.
        { split; [done|]. split; [done|]. split; [done|].
          apply (write_blocks_lookup (λ o d, (o, d) ∈ taken /\ d ≠ [])); done. }
        split; [done|]. split; [done|]. intros _. by rewrite app_nil_r.
      * split.
        { split; [done|]. split; [done|]. by split. }
        split; [done|]. split; [done|]. by intros _.
    + (* flush_buffer *)
      unfold run_flush_buffer in Hs.
      set (wb := work_buffer p) in *.
      set (n := contiguous_from (unhashed_offset p) wb) in *.
      destruct (hash_blocks_in_order taken (take n wb) p Ho Ht)
        as [Ho' Ht']; [apply contiguous_from_take|by apply Forall_take|].
      pose proof (contiguous_runs_Forall (taken_block taken)
                    (List.length wb) wb Hwb) as Hruns.
      simplify_eq. split.
      * split; [done|]. split; [done|]. split; [done|].
        apply (write_blocks_lookup (λ o d, (o, d) ∈ taken /\ d ≠ [])); [done|].
        by apply (filtered_runs_Forall (taken_block taken)).
      * split; [done|].
        split; [by apply (filtered_runs_Forall (taken_block taken))|done].
  - (* the completion runs *)
    destruct s as [|j|j o|] eqn:Es; try done.
    destruct o as [saved failed|v].
    + destruct Hph as (Hb & Hf & _).
      destruct (on_blocks_saved L C saved failed p) as [p' es'] eqn:Hd.
      simplify_eq. unfold on_blocks_saved in Hd.
      destruct (dispatch_write L C _) as [p2 es2] eqn:Hd2. simplify_eq.
      assert (Hpost : after_dispatch
                (((λ b, InvokeSaveHandler (block.save_handler b) None) <$> saved)
                 ++ es2) Idle = after_dispatch es2 Idle).
      { unfold after_dispatch. by rewrite posted_save_handlers. }
      rewrite Hpost.
      eapply dispatch_write_invariant; [| |done|exact Hd2]; [|done].
      destruct Hbt as (Ho & Ht & Hall & Hst).
      split; [done|]. split; [done|]. split; [|done]. simpl.
      rewrite app_nil_r, restore_Permutation. apply Forall_app.
      split; [done|]. apply Forall_app in Hall. tauto.
    + unfold on_piece_hashed in Hs.
      destruct v; simplify_eq; (split; [|done]); [done|].
      destruct Hbt as (Ho & Ht & Hall & Hst).
      split; [done|]. split; [done|]. split; [|done]. simpl.
      rewrite app_nil_r. apply Forall_app in Hall. tauto.
Qed.

(** No event takes back what the hasher was fed. *)
Lemma step_hasher_prefix e w w' es :
  step L C sha1 expected_hash e w = Some (w', es) ->
  sha1_hasher.context_ (hasher (piece w))
    `prefix_of` sha1_hasher.context_ (hasher (piece w')).
Proof.
  intros Hs. destruct w as [p st s taken]. unfold step in Hs. simpl in *.
  destruct e as [b| |oks|].
  - assert (Hs' : (if block_in_piece b p
                   then let '(p0, es0) := accept_block L C b p in
                        Some (World p0 st (after_dispatch es0 s)
                                (if is_saved b p then taken
                                 else (block.offset b, block.buffer b) :: taken),
                              es0)
                   else None) = Some (w', es)) by (by destruct s).
    clear Hs. destruct (block_in_piece b p); [|done].
    unfold accept_block in Hs'. destruct (is_saved b p); [by simplify_eq|].
    destruct (buffer_block L C b p) as [p' es'] eqn:Hd. simplify_eq.
    apply dispatch_write_spec in Hd as (Hh & _). simpl in *. by rewrite Hh.
  - assert (Hs' : (if timer_armed p
                   then let '(p0, es0) := on_write_buffer_expiry p in
                        Some (World p0 st (after_dispatch es0 s) taken, es0)
                   else None) = Some (w', es)) by (by destruct s).
    clear Hs. destruct (timer_armed p); [|done].
    unfold on_write_buffer_expiry in Hs'.
    destruct (is_busy p); simpl in Hs'; [by simplify_eq|].
    destruct (buffer p); by simplify_eq.
  - destruct s as [|j|j o|]; try done. destruct j.
    + unfold run_handle_complete_piece in Hs. simplify_eq. simpl.
      generalize (Z.to_nat (num_blocks p)). intros n. revert p.
      induction n as [|n IH]; intros p; cbn [finish_hashing]; [done|].
      case_bool_decide; [done|].
      destruct (if block.buffer <$> find _ (work_buffer p) is Some d
                then Some d else _) as [d|]; [|done].
      etrans; [|apply IH]. rewrite hash_blocks_hasher. by apply prefix_app_r.
    + unfold run_hash_and_save_blocks in Hs.
      destruct (default true (head oks)); simplify_eq;
        cbn [piece]; rewrite hash_blocks_hasher; by apply prefix_app_r.
    + unfold run_flush_buffer in Hs. simplify_eq. cbn [piece].
      rewrite hash_blocks_hasher. by apply prefix_app_r.
  - destruct s as [|j|j o|]; try done. destruct o as [saved failed|v].
    + destruct (on_blocks_saved L C saved failed p) as [p' es'] eqn:Hd.
      simplify_eq. unfold on_blocks_saved in Hd.
      destruct (dispatch_write L C _) as [p2 es2] eqn:Hd2. simplify_eq.
      apply dispatch_write_spec in Hd2 as (Hh & _). simpl in *. by rewrite Hh.
    + unfold on_piece_hashed in Hs. by destruct v; simplify_eq.
Qed.

Lemma run_invariant evs w w' :
  hashing_invariant w -> run L C sha1 expected_hash evs w = Some w' ->
  hashing_invariant w'.
Proof.
  revert w. induction evs as [|e evs IH]; intros w Hw Hr; simpl in Hr.
  { by simplify_eq. }
  destruct (step L C sha1 expected_hash e w) as [[w1 es]|] eqn:Hs; [|done].
  simpl in Hr. eapply IH; [|done]. by eapply step_invariant.
Qed.

Lemma run_hasher_prefix evs w w' :
  run L C sha1 expected_hash evs w = Some w' ->
  sha1_hasher.context_ (hasher (piece w))
    `prefix_of` sha1_hasher.context_ (hasher (piece w')).
Proof.
  revert w. induction evs as [|e evs IH]; intros w Hr; simpl in Hr.
  { by simplify_eq. }
  destruct (step L C sha1 expected_hash e w) as [[w1 es]|] eqn:Hs; [|done].
  simpl in Hr. etrans; [by eapply step_hasher_prefix|by apply IH].
Qed.

Lemma fresh_invariant idx len h : hashing_invariant (fresh idx len h).
Proof.
  split; [|done]. split; [done|]. split; [done|]. split; [done|].
  intros o d Hod. simpl in Hod. by rewrite lookup_empty in Hod.
Qed.

Lemma fed_length_prefix chunks chunks' :
  chunks `prefix_of` chunks' -> fed_length chunks <= fed_length chunks'.
Proof.
  intros [k ->]. rewrite fed_length_app. pose proof (fed_length_nonneg k). lia.
Qed.

(** C8: [save_block] of a valid block whose [save_progress] bit is set
    invokes the block's save handler with [duplicate_block], in the call
    itself (nothing is posted to a worker and no timer is armed), and
    leaves every torrent, so the piece with its buffers, its
    [save_progress] and its hasher, as it was. *)
Theorem save_block_duplicate torrents tid piece_index b h t len p :
  find (λ t, bool_decide (id t = tid)) torrents = Some t ->
  piece_lengths t !! Z.to_nat piece_index = Some len ->
  0 <= piece_index ->
  find (λ q, bool_decide (index q = piece_index)) (write_buffer t) = Some p ->
  block_in_piece b p = true ->
  is_saved b p = true ->
  save_block L C torrents tid piece_index b h
  = Some (torrents,
          [InvokeSaveHandler (block.save_handler b) (Some duplicate_block)]).
Proof.
  intros Ht Hlen Hi Hp Hv Hsaved. unfold save_block.
  rewrite Ht. simpl. rewrite Hlen, Hp. simpl.
  rewrite bool_decide_eq_true_2 by done. by rewrite Hv, Hsaved.
Qed.

End steps.
End hashing_order.

(** What the hasher of the example was fed: the four blocks, the one at
    16384 after the one at 0 although it arrived last. *)
Lemma out_of_order_blocks_hashed :
  (λ w, (head <$> sha1_hasher.context_ (partial_piece.hasher (disk_io.piece w)),
         partial_piece.unhashed_offset (disk_io.piece w),
         fst <$> disk_io.accepted w))
    <$> disk_io.run 4 3 byte_count (λ _, 65536) out_of_order_blocks
          (disk_io.fresh 0 65536 9)
  = Some ([Some Byte.x00; Some Byte.x01; Some Byte.x02; Some Byte.x03],
          65536, [16384; 49152; 32768; 0]).
Proof. by vm_compute. Qed.

Lemma save_block_duplicate_witness :
  exists p,
    disk_io.piece <$> disk_io.run 4 3 byte_count (λ _, 65536)
      first_block_saved (disk_io.fresh 0 65536 9) = Some p /\
    disk_io.save_block 4 3 (one_piece_torrent p) 7 0
      (full_block 0 Byte.x00 5) 6
    = Some (one_piece_torrent p,
            [InvokeSaveHandler 5 (Some duplicate_block)]).
Proof.
  assert (Hs : is_Some (disk_io.run 4 3 byte_count (λ _, 65536)
                          first_block_saved (disk_io.fresh 0 65536 9))).
  { apply is_Some_alt. by vm_compute. }
  destruct Hs as [w Hr]. exists (disk_io.piece w). rewrite Hr.
  split; [done|].
  assert (Hw : (λ w, (partial_piece.index (disk_io.piece w),
                      partial_piece.length (disk_io.piece w),
                      partial_piece.save_progress (disk_io.piece w)))
                 <$> disk_io.run 4 3 byte_count (λ _, 65536)
                       first_block_saved (disk_io.fresh 0 65536 9)
               = Some (0, 65536, [true; false; false; false]))
    by (by vm_compute).
  rewrite Hr in Hw. simpl in Hw. injection Hw as Hi Hl Hp.
  apply (save_block_duplicate 4 3 (one_piece_torrent (disk_io.piece w)) 7 0
           (full_block 0 Byte.x00 5) 6%nat
           (disk_io.TorrentEntry 7 [65536] [disk_io.piece w]) 65536
           (disk_io.piece w)).
  - reflexivity.
  - reflexivity.
  - lia.
  - simpl. rewrite Hi. reflexivity.
  - unfold disk_io.block_in_piece. rewrite Hl. by vm_compute.
  - unfold disk_io.is_saved. rewrite Hp. by vm_compute.
Defined.
(* ------------------------------------------------------------------ *)
(** ** The write pipeline of disk_io: the bytes that are hashed *)
(* ------------------------------------------------------------------ *)

Section piece_bytes.
Import partial_piece disk_io.
Implicit Types (p : partial_piece.t) (bs : list block.t).
Implicit Types (data : list Byte.byte) (chunks : list (list Byte.byte)).

Lemma block_size_eq : block_size = 16384.
Proof. done. Qed.

Lemma block_bytes_length data o :
  0 <= o <= Z.of_nat (List.length data) ->
  Z.of_nat (List.length (block_bytes data o))
  = Z.min block_size (Z.of_nat (List.length data) - o).
Proof.
  intros Ho. unfold block_bytes. rewrite length_take, length_drop.
  rewrite block_size_eq. lia.
Qed.

Lemma take_block_bytes data o :
  0 <= o <= Z.of_nat (List.length data) ->
  take (Z.to_nat o) data ++ block_bytes data o
  = take (Z.to_nat (o + Z.of_nat (List.length (block_bytes data o)))) data.
Proof.
  intros Ho. rewrite block_bytes_length by done. unfold block_bytes.
  rewrite take_take_drop.
  destruct (Z_le_gt_dec block_size (Z.of_nat (List.length data) - o)) as [Hle|Hgt].
  - f_equal. rewrite block_size_eq in *. lia.
  - rewrite block_size_eq in *. rewrite !take_ge; [done|lia|lia].
Qed.

(** Feeding blocks of the piece that follow one another from
    [unhashed_offset] extends the hashed prefix of the piece. *)
Lemma fed_blocks_prefix data bs u chunks :
  0 <= u <= Z.of_nat (List.length data) ->
  concat chunks = take (Z.to_nat u) data ->
  contiguous_from u bs = List.length bs ->
  Forall (block_of data) bs ->
  let u' := u + fed_length (block.buffer <$> bs) in
  0 <= u' <= Z.of_nat (List.length data) /\
  (bs ≠ [] -> u' mod block_size = 0 \/ u' = Z.of_nat (List.length data)) /\
  concat (chunks ++ (block.buffer <$> bs)) = take (Z.to_nat u') data.
Proof.
  revert u chunks. induction bs as [|b bs IH]; intros u chunks Hu Hc Hcont Hall;
    simpl.
  { rewrite fed_length_nil, Z.add_0_r, app_nil_r. done. }
  simpl in Hcont. case_bool_decide as Ho; [|done].
  apply Forall_cons in Hall as [(Hr & Hal & Hb) Hall].
  assert (Hlen : block.size b
                 = Z.min block_size (Z.of_nat (List.length data) - u)).
  { unfold block.size. rewrite Hb, Ho. apply block_bytes_length. lia. }
  assert (H1 : concat (chunks ++ [block.buffer b])
               = take (Z.to_nat (u + block.size b)) data).
  { rewrite concat_app, Hc. simpl. rewrite app_nil_r.
    unfold block.size. rewrite Hb, Ho. apply take_block_bytes. lia. }
  destruct (IH (u + block.size b) (chunks ++ [block.buffer b]))
    as (H2 & H3 & H4); [rewrite block_size_eq in *; lia|done|lia|done|].
  rewrite fed_length_cons. fold (block.size b).
  rewrite Z.add_assoc. rewrite <- app_assoc in H4. simpl in H4.
  split; [done|]. split; [|done]. intros _.
  destruct bs as [|b' bs']; [|by apply H3].
  simpl. rewrite fed_length_nil, Z.add_0_r.
  rewrite Hlen, block_size_eq in *.
  destruct (Z_le_gt_dec 16384 (Z.of_nat (List.length data) - u)).
  - left. rewrite Z.min_l by lia. rewrite <- Ho in *.
    Z.to_euclidean_division_equations. lia.
  - right. lia.
Qed.

Lemma hash_blocks_prefix data bs p :
  hashed_prefix data p ->
  contiguous_from (unhashed_offset p) bs = List.length bs ->
  Forall (block_of data) bs ->
  hashed_prefix data (hash_blocks bs p).
Proof.
  intros (Hu & Hal & Hc) Hcont Hall. unfold hashed_prefix.
  rewrite hash_blocks_hasher, hash_blocks_offset.
  destruct (fed_blocks_prefix data bs (unhashed_offset p) _ Hu Hc Hcont Hall)
    as (H1 & H2 & H3).
  split; [done|]. split; [|done].
  destruct bs as [|b bs']; [|by apply H2].
  simpl. rewrite fed_length_nil, Z.add_0_r. done.
Qed.

Lemma write_blocks_is_Some bs (st : gmap Z (list Byte.byte)) o :
  is_Some (st !! o) -> is_Some (write_blocks bs st !! o).
Proof.
  unfold write_blocks. revert st.
  induction bs as [|b bs IH]; intros st Hst; simpl; [done|].
  apply IH. rewrite lookup_insert. by case_decide.
Qed.

Lemma write_blocks_written bs (st : gmap Z (list Byte.byte)) :
  Forall (λ b, is_Some (write_blocks bs st !! block.offset b)) bs.
Proof.
  revert st. induction bs as [|b bs IH]; intros st; [done|].
  apply Forall_cons. split; [|apply IH].
  apply (write_blocks_is_Some bs). by rewrite lookup_insert_eq.
Qed.

Lemma mark_saved_lookup bs (progress : list bool) (i : nat) :
  mark_saved bs progress !! i = Some true ->
  progress !! i = Some true \/
  exists b, b ∈ bs /\ Z.to_nat (block.offset b / block_size) = i.
Proof.
  unfold mark_saved. revert progress.
  induction bs as [|b bs IH]; intros progress; simpl; [by left|].
  intros [Hi|(b' & Hin & Hb')]%IH.
  - apply list_lookup_insert_Some in Hi as [(Hi & _)|[_ Hi]]; [|by left].
    right. exists b. split; [apply elem_of_cons; by left|done].
  - right. exists b'. split; [apply elem_of_cons; by right|done].
Qed.

Lemma block_of_index data b :
  block_of data b ->
  Z.of_nat (Z.to_nat (block.offset b / block_size)) * block_size
  = block.offset b.
Proof.
  intros (Hr & Hal & _). rewrite block_size_eq in *.
  Z.to_euclidean_division_equations. lia.
Qed.

Lemma finish_hashing_fields st rounds p :
  let p' := finish_hashing rounds st p in
  index p' = index p /\ length p' = length p /\ buffer p' = buffer p /\
  work_buffer p' = work_buffer p /\ save_progress p' = save_progress p /\
  is_busy p' = is_busy p.
Proof.
  revert p. induction rounds as [|r IH]; intros p; simpl; [done|].
  case_bool_decide; [done|].
  destruct (if block.buffer <$> find _ (work_buffer p) is Some d then Some d
            else _) as [d|]; [|done].
  destruct (IH (hash_blocks [block.mk d (unhashed_offset p) O] p))
    as (H1 & H2 & H3 & H4 & H5 & H6).
  simpl in *. done.
Qed.

(** On a covered piece [finish_hashing] reaches the end of the piece. *)
Lemma finish_hashing_complete data (st : gmap Z (list Byte.byte)) rounds p :
  length p = Z.of_nat (List.length data) ->
  hashed_prefix data p ->
  Forall (block_of data) (work_buffer p) ->
  (forall o d, st !! o = Some d -> d = block_bytes data o) ->
  (forall i : nat, save_progress p !! i = Some true ->
     is_Some (st !! (Z.of_nat i * block_size))) ->
  covered p ->
  unhashed_offset p = length p \/
  num_blocks p - unhashed_offset p / block_size <= Z.of_nat rounds ->
  hashed_prefix data (finish_hashing rounds st p) /\
  unhashed_offset (finish_hashing rounds st p) = length p.
Proof.
  revert p. induction rounds as [|r IH];
    intros p Hlen Hpre Hwb Hst Hbits Hcov Hm.
  - simpl. split; [done|]. destruct Hm as [Hm|Hm]; [done|].
    destruct Hpre as (Hu & [Hal|Hend] & _); [|lia].
    unfold num_blocks in Hm. rewrite Hlen, block_size_eq in *.
    Z.to_euclidean_division_equations. lia.
  - cbn beta iota zeta delta [finish_hashing]. case_bool_decide as Hge.
    { split; [done|]. destruct Hpre as (Hu & _). lia. }
    set (o := unhashed_offset p) in *.
    assert (Ho : 0 <= o < Z.of_nat (List.length data))
      by (destruct Hpre as (Hu & _); fold o in Hu; lia).
    assert (Hal : o mod block_size = 0).
    { destruct Hpre as (_ & [Hal|Hend] & _); [done|]. fold o in Hend. lia. }
    set (i := Z.to_nat (o / block_size)).
    assert (Hi : Z.of_nat i * block_size = o).
    { unfold i. rewrite block_size_eq in *.
      Z.to_euclidean_division_equations. lia. }
    assert (Hin : (i < Z.to_nat (num_blocks p))%nat).
    { unfold i, num_blocks. rewrite Hlen, block_size_eq in *.
      Z.to_euclidean_division_equations. lia. }
    assert (Hsrc : (if block.buffer
                         <$> find (λ b, bool_decide (block.offset b = o))
                               (work_buffer p) is Some d then Some d
                    else if default false (save_progress p !! i)
                         then st !! o else None)
                   = Some (block_bytes data o)).
    { destruct (find _ (work_buffer p)) as [b|] eqn:Hf; simpl.
      - apply find_some in Hf as [Hb Hbo].
        apply bool_decide_eq_true in Hbo.
        rewrite Forall_forall in Hwb.
        destruct (Hwb b) as (_ & _ & ->); [by apply list_elem_of_In|].
        by rewrite Hbo.
      - destruct (Hcov i Hin) as [Hbit|(b & Hb & Hbo)].
        + rewrite Hbit. simpl.
          destruct (Hbits i Hbit) as [d Hd]. rewrite Hi in Hd.
          rewrite Hd. f_equal. by apply Hst.
        + apply list_elem_of_In in Hb. apply (find_none _ _ Hf) in Hb.
          apply bool_decide_eq_false in Hb. rewrite Hi in Hbo. done. }
    rewrite Hsrc.
    set (d := block_bytes data o) in *.
    set (p1 := hash_blocks [block.mk d o O] p).
    assert (Hp1 : hashed_prefix data p1).
    { apply hash_blocks_prefix; [done| |].
      - simpl. by rewrite bool_decide_eq_true_2.
      - apply Forall_cons. split; [|done]. split; [done|]. split; done. }
    assert (Hu1 : unhashed_offset p1
                  = o + Z.min block_size (Z.of_nat (List.length data) - o)).
    { unfold p1. rewrite hash_blocks_offset. simpl.
      rewrite fed_length_cons, fed_length_nil, Z.add_0_r. fold o. f_equal.
      apply block_bytes_length. lia. }
    destruct (IH p1) as [H1 H2]; try done.
    + destruct (Z_le_gt_dec (Z.of_nat (List.length data) - o) block_size).
      * left. rewrite Hu1. change (length p1) with (length p). lia.
      * right. rewrite Hu1. change (num_blocks p1) with (num_blocks p).
        destruct Hm as [Hm|Hm]; [fold o in Hm; lia|]. fold o in Hm.
        rewrite Z.min_l by lia. rewrite block_size_eq in *.
        Z.to_euclidean_division_equations. lia.
Qed.

End piece_bytes.

Section piece_steps.
Import partial_piece disk_io.
Variables (L C : Z) (sha1 : list Byte.byte -> Z) (expected_hash : Z -> Z).
Implicit Types (p : partial_piece.t) (bs : list block.t).
Implicit Types (data : list Byte.byte) (taken : list (Z * list Byte.byte)).

Lemma is_complete_covered p :
  is_complete p = true ->
  forall i : nat, (i < Z.to_nat (num_blocks p))%nat ->
    save_progress p !! i = Some true \/
    exists b, b ∈ buffer p /\ block.offset b = Z.of_nat i * block_size.
Proof.
  unfold is_complete. rewrite forallb_forall. intros Hc i Hi.
  specialize (Hc i). rewrite orb_true_iff in Hc.
  destruct Hc as [Hb|He]; [apply in_seq; lia| |].
  - left. by destruct (save_progress p !! i) as [[]|].
  - right. apply existsb_exists in He as (b & Hb & Ho). exists b.
    split; [by apply list_elem_of_In|by apply bool_decide_eq_true in Ho].
Qed.

Lemma covered_same p p' :
  length p' = length p -> save_progress p' = save_progress p ->
  work_buffer p' = work_buffer p -> covered p -> covered p'.
Proof. unfold covered, num_blocks. by intros -> -> ->. Qed.

Lemma hashed_prefix_same data p p' :
  unhashed_offset p' = unhashed_offset p -> hasher p' = hasher p ->
  hashed_prefix data p -> hashed_prefix data p'.
Proof. unfold hashed_prefix. by intros -> ->. Qed.

Lemma dispatch_write_fields p p' es :
  dispatch_write L C p = (p', es) ->
  index p' = index p /\ length p' = length p /\
  save_progress p' = save_progress p /\
  (posted es = Some handle_complete_piece ->
   is_complete p = true /\ work_buffer p' = work_buffer p ++ buffer p).
Proof.
  unfold dispatch_write. intros Hd.
  destruct (is_busy p); [by simplify_eq|].
  destruct (is_complete p).
  { simplify_eq. simpl. by rewrite take_ge. }
  case_bool_decide; [by simplify_eq|].
  case_bool_decide; [by simplify_eq|].
  destruct (timer_armed p); by simplify_eq.
Qed.

Lemma block_in_piece_block_of data b p :
  length p = Z.of_nat (List.length data) ->
  block_in_piece b p = true ->
  block.buffer b = block_bytes data (block.offset b) ->
  block_of data b.
Proof.
  unfold block_in_piece. intros Hlen Hv Hb.
  repeat (apply andb_true_iff in Hv as [Hv ?]).
  repeat match goal with H : bool_decide _ = true |- _ =>
    apply bool_decide_eq_true in H end.
  split; [lia|done].
Qed.

(** The phase's part of [piece_invariant] looks at the piece's
    [work_buffer], [save_progress], [length] and [unhashed_offset]
    only. *)
Lemma piece_phase_same idx data taken taken' st s p p' :
  index p' = index p -> length p' = length p ->
  save_progress p' = save_progress p -> work_buffer p' = work_buffer p ->
  unhashed_offset p' = unhashed_offset p -> hasher p' = hasher p ->
  Forall (block_of data) (buffer p' ++ work_buffer p') ->
  piece_invariant sha1 expected_hash idx data (World p st s taken) ->
  piece_invariant sha1 expected_hash idx data (World p' st s taken').
Proof.
  intros Hi Hl Hsp Hwb Hu Hh Hall (Hidx & Hlen & _ & Hst & Hbits & Hpre & Hs).
  unfold piece_invariant in *. simpl in *.
  rewrite Hi, Hl, Hsp, Hu.
  split; [done|]. split; [done|]. split; [done|]. split; [done|].
  split; [done|]. split; [by apply (hashed_prefix_same data p)|].
  destruct s as [|j|j [saved failed|v]|]; try done.
  intros Hj. by apply (covered_same p); [..|apply Hs].
Qed.

(** [dispatch_write] on a piece in phase [s]. *)
Lemma dispatch_write_piece idx data taken st s p p' es :
  phase_ok taken s p -> s ≠ Finished ->
  piece_invariant sha1 expected_hash idx data (World p st s taken) ->
  dispatch_write L C p = (p', es) ->
  piece_invariant sha1 expected_hash idx data
    (World p' st (after_dispatch es s) taken).
Proof.
  intros Hph Hfin Hinv Hd.
  pose proof (dispatch_write_spec L C _ _ _ Hd) as (Hh & Hu & Hperm & Hpost).
  pose proof (dispatch_write_fields _ _ _ Hd) as (Hi & Hl & Hsp & Hcomp).
  assert (Hall : Forall (block_of data) (buffer p' ++ work_buffer p')).
  { rewrite Hperm. apply Hinv. }
  unfold after_dispatch. destruct (posted es) as [j|] eqn:Hj.
  - destruct Hpost as (Hb0 & Hb1 & _).
    destruct Hinv as (Hidx & Hlen & _ & Hst & Hbits & Hpre & _).
    unfold piece_invariant in *. simpl in *. rewrite Hi, Hl, Hsp.
    split; [done|]. split; [done|]. split; [done|]. split; [done|].
    split; [done|]. split; [by apply (hashed_prefix_same data p)|].
    intros ->. destruct (Hcomp eq_refl) as [Hc Hwb].
    assert (Hnil : work_buffer p = []).
    { unfold phase_ok in Hph.
      destruct s as [|j'|j' [? ?|?]|]; try (destruct Hph; congruence);
        congruence. }
    rewrite Hnil in Hwb. simpl in Hwb.
    intros i Hin. unfold num_blocks in Hin. rewrite Hl in Hin.
    rewrite Hsp, Hwb. by apply is_complete_covered.
  - destruct Hpost as [_ Hwb]. by eapply piece_phase_same.
Qed.

(** Every event keeps the invariant while the blocks are the piece's. *)
Lemma step_piece_invariant idx data e w w' es :
  hashing_invariant w ->
  piece_invariant sha1 expected_hash idx data w ->
  carries data e ->
  step L C sha1 expected_hash e w = Some (w', es) ->
  piece_invariant sha1 expected_hash idx data w'.
Proof.
  intros [Hbt Hph] Hinv Hcar Hs. destruct w as [p st s taken]. simpl in *.
  unfold step in Hs. simpl in Hs.
  assert (Hfin : s ≠ Finished) by (intros ->; by destruct e).
  destruct e as [b| |oks|].
  - (* a block arrives *)
    assert (Hs' : (if block_in_piece b p
                   then let '(p0, es0) := accept_block L C b p in
                        Some (World p0 st (after_dispatch es0 s)
                                (if is_saved b p then taken
                                 else (block.offset b, block.buffer b) :: taken),
                              es0)
                   else None) = Some (w', es)) by (by destruct s).
    clear Hs. destruct (block_in_piece b p) eqn:Hv; [|done].
    unfold accept_block in Hs'. destruct (is_saved b p).
    { simplify_eq. unfold after_dispatch, posted. simpl. exact Hinv. }
    destruct (buffer_block L C b p) as [p' es'] eqn:Hd. simplify_eq.
    unfold buffer_block in Hd.
    eapply dispatch_write_piece; [|done| |exact Hd].
    + eapply phase_ok_mono; [apply subseteq_cons_r|..|exact Hph]; done.
    + eapply piece_phase_same; [..|exact Hinv]; try done. simpl.
      rewrite insert_block_Permutation. simpl. apply Forall_cons.
      destruct Hinv as (_ & Hlen & Hall & _). split; [|done].
      by eapply block_in_piece_block_of.
  - (* the timer expires *)
    assert (Hs' : (if timer_armed p
                   then let '(p0, es0) := on_write_buffer_expiry p in
                        Some (World p0 st (after_dispatch es0 s) taken, es0)
                   else None) = Some (w', es)) by (by destruct s).
    clear Hs. destruct (timer_armed p); [|done].
    unfold on_write_buffer_expiry in Hs'.
    destruct (is_busy p) eqn:Hb; simpl in Hs'.
    { simplify_eq. unfold after_dispatch, posted. simpl.
      eapply piece_phase_same; [..|exact Hinv]; try done. apply Hinv. }
    assert (Hwb : s = Idle /\ work_buffer p = []).
    { clear Hs'. destruct s as [|j|j [? ?|?]|]; simpl in Hph.
      - by destruct Hph.
      - destruct Hph as [Hb' _]. congruence.
      - destruct Hph as [Hb' _]. congruence.
      - congruence.
      - done. }
    destruct Hwb as [-> Hwb].
    destruct Hinv as (Hidx & Hlen & Hall & Hst & Hbits & Hpre & _).
    simpl in Hidx, Hlen, Hall, Hst, Hbits, Hpre.
    destruct (buffer p) as [|b0 bs0] eqn:Hbuf; simplify_eq.
    + unfold piece_invariant, after_dispatch, posted. simpl.
      rewrite Hwb. done.
    + unfold piece_invariant, after_dispatch, posted. simpl.
      rewrite Hwb in *. simpl. rewrite app_nil_r in Hall.
      apply Forall_cons in Hall as [Hb0 Hbs].
      split; [done|]. split; [done|]. split.
      { apply Forall_app. split; [by apply Forall_drop|].
        apply Forall_cons. split; [done|by apply Forall_take]. }
      done.
  - (* the worker runs *)
    destruct s as [|j|j o|] eqn:Es; try done.
    destruct Hph as [Hb Hc].
    destruct Hinv as (Hidx & Hlen & Hall & Hst & Hbits & Hpre & Hcov).
    simpl in Hidx, Hlen, Hall, Hst, Hbits, Hpre, Hcov.
    assert (Hwb : Forall (block_of data) (work_buffer p)).
    { apply Forall_app in Hall. tauto. }
    destruct j.
    + (* handle_complete_piece *)
      unfold run_handle_complete_piece in Hs. simplify_eq.
      pose proof (finish_hashing_fields st (Z.to_nat (num_blocks p)) p)
        as (H1 & H2 & H3 & H4 & H5 & _).
      destruct (finish_hashing_complete data st (Z.to_nat (num_blocks p)) p)
        as [Hpre' Hu']; try done.
      { by apply Hcov. }
      { right. destruct Hpre as ((Hu0 & _) & _).
        unfold num_blocks. rewrite block_size_eq.
        Z.to_euclidean_division_equations. lia. }
      unfold piece_invariant. simpl. rewrite H1, H2, H3, H4, H5, Hu'.
      split; [done|]. split; [done|]. split; [done|]. split; [done|].
      split; [done|]. split; [done|]. split; [done|].
      rewrite bool_decide_eq_true_2 by done. simpl.
      destruct Hpre' as (_ & _ & ->). rewrite Hu', Hlen, Nat2Z.id.
      by rewrite take_ge.
    + (* hash_and_save_blocks *)
      unfold run_hash_and_save_blocks in Hs.
      pose proof (hash_blocks_prefix data (work_buffer p) p Hpre
                    (Hc eq_refl) Hwb) as Hpre'.
      destruct (default true (head oks)); simplify_eq;
        unfold piece_invariant; simpl.
      * split; [done|]. split; [done|]. split; [done|]. split.
        { apply (write_blocks_lookup (λ o d, d = block_bytes data o));
            [done|]. eapply Forall_impl; [exact Hwb|]. by intros b (_ & _ & ?). }
        split.
        { intros i Hi. by apply write_blocks_is_Some, Hbits. }
        split; [done|]. split; [|done].
        apply Forall_and. split; [done|]. apply write_blocks_written.
      * split; [done|]. split; [done|]. split; [done|]. split; [done|].
        split; [done|]. split; [done|]. split; done.
    + (* flush_buffer *)
      unfold run_flush_buffer in Hs.
      set (wb := work_buffer p) in *.
      set (n := contiguous_from (unhashed_offset p) wb) in *.
      pose proof (hash_blocks_prefix data (take n wb) p Hpre
                    (contiguous_from_take _ _) (Forall_take _ _ _ Hwb))
        as Hpre'.
      pose proof (contiguous_runs_Forall (block_of data)
                    (List.length wb) wb Hwb) as Hruns.
      simplify_eq. unfold piece_invariant. simpl.
      set (tagged := zip_with _ _ _).
      assert (Hsaved : Forall (block_of data)
                (concat (fst <$> filter (λ x, snd x = true) tagged))).
      { by apply (filtered_runs_Forall (block_of data)). }
      split; [done|]. split; [done|]. split; [done|]. split.
      { apply (write_blocks_lookup (λ o d, d = block_bytes data o));
          [done|]. eapply Forall_impl; [exact Hsaved|]. by intros b (_ & _ & ?). }
      split.
      { intros i Hi. by apply write_blocks_is_Some, Hbits. }
      split; [done|]. split.
      * apply Forall_and. split; [done|]. apply write_blocks_written.
      * by apply (filtered_runs_Forall (block_of data)).
  - (* the completion runs *)
    destruct s as [|j|j o|] eqn:Es; try done.
    destruct Hinv as (Hidx & Hlen & Hall & Hst & Hbits & Hpre & Hran).
    simpl in Hidx, Hlen, Hall, Hst, Hbits, Hpre, Hran.
    destruct o as [saved failed|v].
    + destruct Hph as (Hb & Hf & _). destruct Hran as [Hsv Hfl].
      destruct (on_blocks_saved L C saved failed p) as [p' es'] eqn:Hd.
      simplify_eq. unfold on_blocks_saved in Hd.
      destruct (dispatch_write L C _) as [p2 es2] eqn:Hd2. simplify_eq.
      assert (Hpost : after_dispatch
                (((λ b, InvokeSaveHandler (block.save_handler b) None) <$> saved)
                 ++ es2) Idle = after_dispatch es2 Idle).
      { unfold after_dispatch. by rewrite posted_save_handlers. }
      rewrite Hpost.
      eapply dispatch_write_piece; [| |  |exact Hd2]; [done|done|].
      unfold piece_invariant. simpl.
      split; [done|]. split; [done|]. split.
      { rewrite app_nil_r, restore_Permutation. apply Forall_app.
        split; [done|]. apply Forall_app in Hall. tauto. }
      split; [done|]. split; [|done].
      intros i [Hi|(b & Hin & Hbi)]%mark_saved_lookup; [by apply Hbits|].
      rewrite Forall_forall in Hsv. destruct (Hsv b Hin) as [Hbo Hsome].
      by rewrite <- Hbi, (block_of_index data).
    + unfold on_piece_hashed in Hs. destruct Hran as [Hu _].
      destruct v; simplify_eq; unfold piece_invariant; simpl.
      * done.
      * split; [done|]. split; [done|]. split; [|done].
        rewrite app_nil_r. apply Forall_app in Hall. tauto.
Qed.

Lemma run_piece_invariant idx data evs w w' :
  hashing_invariant w ->
  piece_invariant sha1 expected_hash idx data w ->
  Forall (carries data) evs ->
  run L C sha1 expected_hash evs w = Some w' ->
  piece_invariant sha1 expected_hash idx data w'.
Proof.
  revert w. induction evs as [|e evs IH]; intros w Hw Hinv Hevs Hr;
    simpl in Hr.
  { by simplify_eq. }
  destruct (step L C sha1 expected_hash e w) as [[w1 es]|] eqn:Hs; [|done].
  simpl in Hr. apply Forall_cons in Hevs as [He Hevs].
  eapply IH; [| |done|done].
  - by eapply step_invariant.
  - by eapply step_piece_invariant.
Qed.

Lemma fresh_piece_invariant idx data h :
  piece_invariant sha1 expected_hash idx data
    (fresh idx (Z.of_nat (List.length data)) h).
Proof.
  unfold piece_invariant, fresh, partial_piece.new. simpl.
  split; [done|]. split; [done|]. split; [done|]. split.
  { intros o d Hod. by rewrite lookup_empty in Hod. }
  split.
  { intros i Hi. apply lookup_replicate in Hi as [? _]. done. }
  split; [|done]. unfold hashed_prefix. simpl. split; [lia|]. split; [by left|done].
Qed.

(** C3.  Whatever happens to a piece from its first block on:
    - the chunks its [hasher] was fed are blocks that [save_block] took
      for the piece, the first at offset 0 and each next one at the
      offset where the one before it ends, none of them empty (so in
      strictly ascending offset order), and [unhashed_offset] is the
      number of bytes fed; when a worker has run [hash_and_save_blocks],
      the blocks of its batch, written or not, are the chunks fed last;
      from then on the chunks fed only grow at the end and
      [unhashed_offset] never decreases;
    - when the blocks that arrive hold the bytes [data] of the piece, the
      bytes fed are the first [unhashed_offset] bytes of [data], and once
      the worker has run [handle_complete_piece] they are all of [data],
      each byte fed once, and the verdict is the comparison of the digest
      of [data] with the expected one. *)
Theorem hasher_fed_in_offset_order idx len h evs w :
  run L C sha1 expected_hash evs (fresh idx len h) = Some w ->
  (in_offset_order (accepted w) 0 (sha1_hasher.context_ (hasher (piece w))) /\
   unhashed_offset (piece w)
   = fed_length (sha1_hasher.context_ (hasher (piece w))) /\
   (forall saved failed,
      state w = Ran hash_and_save_blocks (Saved saved failed) ->
      (block.buffer <$> saved ++ failed)
        `suffix_of` sha1_hasher.context_ (hasher (piece w))) /\
   forall evs' w', run L C sha1 expected_hash evs' w = Some w' ->
     sha1_hasher.context_ (hasher (piece w))
       `prefix_of` sha1_hasher.context_ (hasher (piece w')) /\
     unhashed_offset (piece w) <= unhashed_offset (piece w')) /\
  forall data,
    Z.of_nat (List.length data) = len ->
    Forall (carries data) evs ->
    concat (sha1_hasher.context_ (hasher (piece w)))
    = take (Z.to_nat (unhashed_offset (piece w))) data /\
    (hashed (state w) ->
     concat (sha1_hasher.context_ (hasher (piece w))) = data /\
     unhashed_offset (piece w) = len) /\
    (forall j is_valid, state w = Ran j (Hashed is_valid) ->
     is_valid = bool_decide (sha1 data = expected_hash idx)).
Proof.
  intros Hr.
  pose proof (run_invariant _ _ _ _ _ _ _ (fresh_invariant idx len h) Hr) as Hw.
  split.
  - destruct Hw as [(Ho & Ht & _) Hph].
    split; [done|]. split; [done|]. split.
    { intros saved failed Hst. rewrite Hst in Hph. by apply Hph. }
    intros evs' w' Hr'.
    pose proof (run_hasher_prefix _ _ _ _ _ _ _ Hr') as Hpre. split; [done|].
    assert (Hw' : hashing_invariant w').
    { eapply run_invariant; [|exact Hr']. eapply run_invariant; [|exact Hr].
      apply fresh_invariant. }
    destruct Hw' as [(_ & Ht' & _) _].
    rewrite Ht, Ht'. by apply fed_length_prefix.
  - intros data <- Hevs.
    pose proof (run_piece_invariant idx data evs _ _
                  (fresh_invariant idx _ h) (fresh_piece_invariant idx data h)
                  Hevs Hr) as (_ & Hlen & _ & _ & _ & (_ & _ & Hc) & Hs).
    split; [done|].
    assert (Hall : unhashed_offset (piece w) = length (piece w) ->
              concat (sha1_hasher.context_ (hasher (piece w))) = data /\
              unhashed_offset (piece w) = Z.of_nat (List.length data)).
    { intros Hu. rewrite Hc, Hu, Hlen, Nat2Z.id. by rewrite take_ge. }
    split.
    + destruct (state w) as [|j|j [saved failed|v]|]; try done.
      * intros _. apply Hall, Hs.
      * intros _. by apply Hall.
    + intros j v Hst. rewrite Hst in Hs. apply Hs.
Qed.

End piece_steps.

(** C3 at a piece of four blocks that arrive out of order: when the piece
    has been hashed, the hasher was fed the piece's 65536 bytes from the
    first to the last. *)
Lemma hasher_fed_in_offset_order_witness :
  exists w,
    disk_io.run 4 3 byte_count (λ _, 65536) out_of_order_blocks
      (disk_io.fresh 0 65536 9) = Some w /\
    concat (sha1_hasher.context_ (partial_piece.hasher (disk_io.piece w)))
    = four_block_piece /\
    partial_piece.unhashed_offset (disk_io.piece w) = 65536.
Proof.
  assert (Hs : is_Some (disk_io.run 4 3 byte_count (λ _, 65536)
                          out_of_order_blocks (disk_io.fresh 0 65536 9))).
  { apply is_Some_alt. by vm_compute. }
  destruct Hs as [w Hr]. exists w. split; [exact Hr|].
  assert (Hst : disk_io.state
                  <$> disk_io.run 4 3 byte_count (λ _, 65536)
                        out_of_order_blocks (disk_io.fresh 0 65536 9)
                = Some disk_io.Finished) by (by vm_compute).
  rewrite Hr in Hst. simpl in Hst. injection Hst as Hst.
  destruct (hasher_fed_in_offset_order 4 3 byte_count (λ _, 65536)
              0 65536 9%nat out_of_order_blocks w Hr) as [_ Hd].
  destruct (Hd four_block_piece) as (_ & Hh & _).
  - by vm_compute.
  - unfold out_of_order_blocks.
    repeat (apply Forall_cons; split; [vm_compute; first [reflexivity|exact I]|]).
    constructor.
  - apply Hh. by rewrite Hst.
Defined.

(** With [L = 2] the blocks at 0 and 16384 are handed to
    [hash_and_save_blocks]; their write fails, and they have been hashed
    all the same: [unhashed_offset] is 32768. *)
Lemma failed_batch_is_hashed :
  (λ w, (disk_io.state w,
         head <$> sha1_hasher.context_ (partial_piece.hasher (disk_io.piece w)),
         partial_piece.unhashed_offset (disk_io.piece w)))
    <$> disk_io.run 2 3 byte_count (λ _, 65536)
          [disk_io.BlockArrives (full_block 0 Byte.x00 1);
           disk_io.BlockArrives (full_block 16384 Byte.x01 2);
           disk_io.WorkerRuns [false]]
          (disk_io.fresh 0 65536 9)
  = Some (disk_io.Ran hash_and_save_blocks
            (disk_io.Saved []
               [full_block 0 Byte.x00 1; full_block 16384 Byte.x01 2]),
          [Some Byte.x00; Some Byte.x01], 32768).
Proof. vm_compute. reflexivity. Qed.
(* ------------------------------------------------------------------ *)
(** ** The values the cache holds *)
(* ------------------------------------------------------------------ *)

Section cache_values.
Context {K : Type} `{Countable K} {V F : Type} `{!FrequencySketch K F}.
Import wtinylfu_cache.
Implicit Types c : wtinylfu_cache.t K V F.
Implicit Types n : gmap page_position (page K V).

Lemma set_cache_type_data ct pos n n' :
  set_cache_type ct pos n = Some n' ->
  forall pos', data <$> n' !! pos' = data <$> n !! pos'.
Proof.
  unfold set_cache_type. intros Hs pos'.
  destruct (n !! pos) as [p|] eqn:Hp; simplify_option_eq.
  rewrite lookup_insert. case_decide; [|done]. subst. by rewrite Hp.
Qed.

Lemma cached_same k c c' :
  m_page_map c' = m_page_map c ->
  (forall pos, data <$> nodes c' !! pos = data <$> nodes c !! pos) ->
  cached k c' = cached k c.
Proof.
  intros Hm Hn. unfold cached. rewrite Hm.
  destruct (m_page_map c !! k) as [pos|]; simpl; [apply Hn|done].
Qed.

Lemma cached_deleted k k0 pos0 c c' :
  m_page_map c' = delete k0 (m_page_map c) ->
  nodes c' = delete pos0 (nodes c) ->
  cached k c' = cached k c \/ cached k c' = None.
Proof.
  intros Hm Hn. unfold cached. rewrite Hm, Hn.
  destruct (decide (k = k0)) as [->|Hk].
  { right. by rewrite lookup_delete_eq. }
  rewrite lookup_delete_ne by done.
  destruct (m_page_map c !! k) as [pos|]; simpl; [|by left].
  destruct (decide (pos = pos0)) as [->|Hp].
  - right. by rewrite lookup_delete_eq.
  - left. by rewrite lookup_delete_ne.
Qed.

Lemma slru_handle_hit_data pos n (s : slru.t) n' s' :
  slru.handle_hit pos n s = Some (n', s') ->
  forall pos', data <$> n' !! pos' = data <$> n !! pos'.
Proof.
  unfold slru.handle_hit, slru.promote_to_safe, slru.demote_to_probationary.
  intros Hh pos'.
  destruct (n !! pos) as [p|]; simpl in Hh; [|done].
  destruct (cache_type p); [done| |].
  - destruct (lru.transfer_page_from pos _ _) as [[sf pr]|]; simpl in Hh; [|done].
    destruct (set_cache_type safe pos n) as [n1|] eqn:H1; simpl in Hh; [|done].
    destruct (lru.is_full _).
    + destruct (lru.get_lru_pos _) as [l|]; simpl in Hh; [|done].
      destruct (lru.transfer_page_from l _ _) as [[pr' sf']|]; simpl in Hh; [|done].
      destruct (set_cache_type probationary l n1) as [n2|] eqn:H2;
        simpl in Hh; [|done].
      simplify_eq.
      rewrite (set_cache_type_data _ _ _ _ H2), (set_cache_type_data _ _ _ _ H1).
      done.
    + simplify_eq. apply (set_cache_type_data _ _ _ _ H1).
  - destruct (lru.handle_hit pos _); simpl in Hh; by simplify_eq.
Qed.

Lemma handle_hit_data pos c c' :
  handle_hit pos c = Some c' ->
  forall pos', data <$> nodes c' !! pos' = data <$> nodes c !! pos'.
Proof.
  unfold handle_hit. intros Hh pos'.
  destruct (nodes c !! pos) as [p|]; simpl in Hh; [|done].
  destruct (decide (cache_type p = window)).
  - destruct (lru.handle_hit pos _); simpl in Hh; by simplify_eq.
  - destruct (slru.handle_hit pos _ _) as [[n1 m]|] eqn:Hs; simpl in Hh; [|done].
    simplify_eq. simpl. by eapply slru_handle_hit_data.
Qed.

(** What [get] returns is the value the cache holds, and no value
    changes. *)
Lemma get_cached k c c' r :
  get k c = Some (c', r) ->
  r = cached k c /\ forall k', cached k' c' = cached k' c.
Proof.
  unfold get. simpl. intros Hg.
  destruct (m_page_map c !! k) as [pos|] eqn:Hk.
  - destruct (handle_hit pos _) as [c1|] eqn:Hh; simpl in Hg; [|done].
    destruct (nodes c1 !! pos) as [p|] eqn:Hp; simpl in Hg; [|done].
    simplify_eq.
    pose proof (handle_hit_data _ _ _ Hh) as Hd.
    pose proof (handle_hit_page_map _ _ _ Hh) as Hm. simpl in *.
    split.
    + unfold cached. rewrite Hk. simpl. rewrite <- Hd, Hp. done.
    + intros k'. unfold cached. rewrite Hm.
      destruct (m_page_map c !! k'); simpl; [apply Hd|done].
  - simplify_eq. split; [|done]. unfold cached. by rewrite Hk.
Qed.

Lemma evict_from_window_cached c c' k :
  evict_from_window c = Some c' ->
  cached k c' = cached k c \/ cached k c' = None.
Proof.
  unfold evict_from_window. intros He.
  destruct (lru.get_victim_key _ _) as [k0|]; simpl in He; [|done].
  destruct (lru.get_lru_pos _) as [pos0|]; simpl in He; [|done].
  destruct (lru.evict _) as [w|]; simpl in He; [|done]. simplify_eq.
  by apply (cached_deleted k k0 pos0).
Qed.

Lemma evict_from_main_cached c c' k :
  evict_from_main c = Some c' ->
  cached k c' = cached k c \/ cached k c' = None.
Proof.
  unfold evict_from_main. intros He.
  destruct (slru.get_victim_key _ _) as [k0|]; simpl in He; [|done].
  destruct (slru.get_victim_pos _) as [pos0|]; simpl in He; [|done].
  destruct (slru.evict _) as [w|]; simpl in He; [|done]. simplify_eq.
  by apply (cached_deleted k k0 pos0).
Qed.

Lemma transfer_window_victim_cached c c' k :
  transfer_window_victim c = Some c' -> cached k c' = cached k c.
Proof.
  unfold transfer_window_victim, slru.transfer_page_from. intros He.
  destruct (lru.get_lru_pos _) as [pos|]; simpl in He; [|done].
  destruct (lru.transfer_page_from pos _ _) as [[pr w]|]; simpl in He; [|done].
  destruct (set_cache_type probationary pos _) as [n1|] eqn:H1;
    simpl in He; [|done].
  simplify_eq. apply cached_same; [done|]. simpl.
  apply (set_cache_type_data _ _ _ _ H1).
Qed.

Lemma evict_cached c c' k :
  evict c = Some c' -> cached k c' = cached k c \/ cached k c' = None.
Proof.
  unfold evict, evict_from_window_or_main. intros He.
  case_bool_decide.
  - destruct (lru.get_victim_key _ _) as [wk|]; simpl in He; [|done].
    destruct (slru.get_victim_key _ _) as [mk_|]; simpl in He; [|done].
    case_bool_decide.
    + destruct (evict_from_main c) as [c1|] eqn:Hm; simpl in He; [|done].
      rewrite (transfer_window_victim_cached _ _ _ He).
      by eapply evict_from_main_cached.
    + by eapply evict_from_window_cached.
  - left. by eapply transfer_window_victim_cached.
Qed.

Lemma wf_page_map_inj c k k' pos :
  wf c -> m_page_map c !! k = Some pos -> m_page_map c !! k' = Some pos ->
  k = k'.
Proof.
  intros Hwf Hk Hk'.
  apply (wf_page_map _ Hwf) in Hk as (p & Hp & <-).
  apply (wf_page_map _ Hwf) in Hk' as (p' & Hp' & <-). congruence.
Qed.

Lemma assign_or_emplace_cached k d c c' :
  wf c -> assign_or_emplace k d c = Some c' ->
  cached k c' = Some d /\ forall k', k' ≠ k -> cached k' c' = cached k' c.
Proof.
  intros Hwf. unfold assign_or_emplace, set_data.
  destruct (m_page_map c !! k) as [pos|] eqn:Hk.
  - destruct (nodes c !! pos) as [p|] eqn:Hp; simpl; [|done].
    intros ?; simplify_eq. unfold cached; simpl. split.
    + rewrite Hk. simpl. by rewrite lookup_insert_eq.
    + intros k' Hne. destruct (m_page_map c !! k') as [pos'|] eqn:Hk'; [|done].
      simpl. rewrite lookup_insert_ne; [done|].
      intros ->. apply Hne. by eapply wf_page_map_inj.
  - intros ?; simplify_eq. unfold cached; simpl. split.
    + rewrite lookup_insert_eq. simpl. by rewrite lookup_insert_eq.
    + intros k' Hne. rewrite lookup_insert_ne by done.
      destruct (m_page_map c !! k') as [pos'|] eqn:Hk'; [|done].
      simpl. rewrite lookup_insert_ne; [done|].
      intros <-. apply (wf_page_map _ Hwf) in Hk' as (p & Hp & _).
      by rewrite (wf_next_unused c Hwf) in Hp.
Qed.

Lemma insert_cached k d c c' :
  wf c -> insert k d c = Some c' ->
  cached k c' = Some d /\
  forall k', k' ≠ k -> cached k' c' = cached k' c \/ cached k' c' = None.
Proof.
  intros Hwf. unfold insert. intros Hi.
  destruct (lru.is_full _).
  - destruct (evict c) as [c1|] eqn:He; simpl in Hi; [|done].
    destruct (assign_or_emplace_cached k d c1 c') as [Hk Hother];
      [by eapply wf_evict|done|].
    split; [done|]. intros k' Hne. rewrite (Hother k' Hne).
    by eapply evict_cached.
  - simpl in Hi.
    destruct (assign_or_emplace_cached k d c c' Hwf Hi) as [Hk Hother].
    split; [done|]. intros k' Hne. left. by apply Hother.
Qed.

Lemma erase_cached k c c' :
  wf c -> erase k c = Some c' ->
  cached k c' = None /\ forall k', k' ≠ k -> cached k' c' = cached k' c.
Proof.
  intros Hwf. unfold erase.
  destruct (m_page_map c !! k) as [pos|] eqn:Hk.
  - intros He.
    assert (Hc : m_page_map c' = delete k (m_page_map c) /\
                 nodes c' = delete pos (nodes c)).
    { destruct (nodes c !! pos) as [p|]; simpl in He; [|done].
      destruct (decide _).
      - destruct (lru.erase _ _); simpl in He; by simplify_eq.
      - destruct (slru.erase _ _ _); simpl in He; by simplify_eq. }
    destruct Hc as [Hm Hn]. unfold cached. rewrite Hm, Hn. split.
    + by rewrite lookup_delete_eq.
    + intros k' Hne. rewrite lookup_delete_ne by done.
      destruct (m_page_map c !! k') as [pos'|] eqn:Hk'; [|done].
      simpl. rewrite lookup_delete_ne; [done|].
      intros <-. apply Hne. by eapply wf_page_map_inj.
  - intros ?; simplify_eq. split; [|done]. unfold cached. by rewrite Hk.
Qed.

Lemma evict_window_loop_cached rounds c c' k :
  evict_window_loop rounds c = Some c' ->
  cached k c' = cached k c \/ cached k c' = None.
Proof.
  revert c. induction rounds as [|r IH]; intros c; simpl.
  - destruct (lru.is_full _); [done|]. intros; simplify_eq. by left.
  - destruct (lru.is_full _); [|intros; simplify_eq; by left].
    destruct (evict_from_window c) as [c1|] eqn:He; simpl; [|done].
    intros Hl. destruct (IH _ Hl) as [-> | ->]; [|by right].
    by eapply evict_from_window_cached.
Qed.

Lemma evict_main_loop_cached rounds c c' k :
  evict_main_loop rounds c = Some c' ->
  cached k c' = cached k c \/ cached k c' = None.
Proof.
  revert c. induction rounds as [|r IH]; intros c; simpl.
  - destruct (slru.is_full _); [done|]. intros; simplify_eq. by left.
  - destruct (slru.is_full _); [|intros; simplify_eq; by left].
    destruct (evict_from_main c) as [c1|] eqn:He; simpl; [|done].
    intros Hl. destruct (IH _ Hl) as [-> | ->]; [|by right].
    by eapply evict_from_main_cached.
Qed.

Lemma change_capacity_cached (S : Z) c c' k :
  change_capacity S c = Some (inr c') ->
  cached k c' = cached k c \/ cached k c' = None.
Proof.
  unfold change_capacity. case_bool_decide; [done|]. intros Hc.
  destruct (evict_window_loop _ _) as [c1|] eqn:Hw; simpl in Hc; [|done].
  destruct (evict_main_loop _ _) as [c2|] eqn:Hm; simpl in Hc; [|done].
  simplify_eq.
  destruct (evict_main_loop_cached _ _ _ k Hm) as [-> | ->]; [|by right].
  apply (evict_window_loop_cached _ _ _ k) in Hw. done.
Qed.

(** What one call does to the value held for a key. *)
Lemma step_cached o c c' k :
  wf c -> step o c = Some c' ->
  match o with
  | Insert k' d =>
      if decide (k' = k) then cached k c' = Some d
      else cached k c' = cached k c \/ cached k c' = None
  | Erase k' =>
      if decide (k' = k) then cached k c' = None
      else cached k c' = cached k c
  | Get _ => cached k c' = cached k c
  | ChangeCapacity _ => cached k c' = cached k c \/ cached k c' = None
  end.
Proof.
  intros Hwf Hs. destruct o as [k'|k' d|k'|S]; simpl in Hs.
  - destruct (get k' c) as [[c1 r]|] eqn:Hg; simpl in Hs; [|done].
    simplify_eq. by apply (get_cached _ _ _ _ Hg).
  - destruct (insert_cached _ _ _ _ Hwf Hs) as [Hk Ho].
    case_decide; [by subst|]. apply Ho. congruence.
  - destruct (erase_cached _ _ _ Hwf Hs) as [Hk Ho].
    case_decide; [by subst|]. apply Ho. congruence.
  - destruct (change_capacity S c) as [[e|c1]|] eqn:Hc; simpl in Hs; [| |done].
    + simplify_eq. by left.
    + simplify_eq. by eapply change_capacity_cached.
Qed.

End cache_values.

Section cache_reachable.
Context {K : Type} `{Countable K} {V F : Type} `{!FrequencySketch K F}.
Import wtinylfu_cache.
Implicit Types c : wtinylfu_cache.t K V F.

Lemma step_wf o c c' : wf c -> step o c = Some c' -> wf c'.
Proof.
  intros Hwf Hs. destruct o as [k|k d|k|n]; simpl in Hs.
  - destruct (get_Some k c Hwf) as (c1 & r & Hg & Hwf1 & _).
    rewrite Hg in Hs. simpl in Hs. by simplify_eq.
  - by eapply wf_insert.
  - destruct (erase_Some k c Hwf) as (c1 & He & Hwf1). by simplify_eq.
  - destruct (change_capacity n c) as [[e|c1]|] eqn:Hc; simpl in Hs; [| |done].
    + by simplify_eq.
    + simplify_eq. by eapply wf_change_capacity.
Qed.

Lemma run_wf os c c' : wf c -> run os c = Some c' -> wf c'.
Proof.
  revert c. induction os as [|o os IH]; intros c Hwf Hr; simpl in Hr.
  { by simplify_eq. }
  destruct (step o c) as [c1|] eqn:Hs; simpl in Hr; [|done].
  eapply IH; [|done]. by eapply step_wf.
Qed.

Lemma reachable_wf (S : Z) os c :
  run os (new S : wtinylfu_cache.t K V F) = Some c -> wf c.
Proof. apply run_wf, wf_new. Qed.

Lemma cached_None k c :
  wf c -> cached k c = None <-> m_page_map c !! k = None.
Proof.
  intros Hwf. unfold cached. split.
  - destruct (m_page_map c !! k) as [pos|] eqn:Hk; [|done]. simpl.
    apply (wf_page_map _ Hwf) in Hk as (p & Hp & _). by rewrite Hp.
  - by intros ->.
Qed.

Lemma get_result k c :
  wf c -> exists c', get k c = Some (c', cached k c).
Proof.
  intros Hwf. destruct (get_Some k c Hwf) as (c' & r & Hg & _).
  exists c'. by destruct (get_cached _ _ _ _ Hg) as [<- _].
Qed.

Lemma written_None_step k o (os : list (op K V)) v :
  written k (o :: os) v
  = written k os (match o with
                  | Insert k' d => if decide (k' = k) then Some d else v
                  | Erase k' => if decide (k' = k) then None else v
                  | _ => v
                  end).
Proof. by destruct o. Qed.

Lemma run_cached k os c c' v :
  wf c -> cached k c = None \/ cached k c = v ->
  run os c = Some c' ->
  cached k c' = None \/ cached k c' = written k os v.
Proof.
  revert c v. induction os as [|o os IH]; intros c v Hwf Hc Hr.
  { simpl in Hr. by simplify_eq. }
  simpl in Hr. destruct (step o c) as [c1|] eqn:Hs; simpl in Hr; [|done].
  rewrite written_None_step. eapply IH; [by eapply step_wf| |done].
  pose proof (step_cached o c c1 k Hwf Hs) as Hk.
  destruct o as [k'|k' d|k'|n].
  - by rewrite Hk.
  - case_decide; [by right|]. destruct Hk as [-> | ->]; [done|by left].
  - case_decide; [by left|]. by rewrite Hk.
  - destruct Hk as [-> | ->]; [done|by left].
Qed.

(** X1: on a cache reached from the constructor, a [get(k)] made right
    after an [insert(k, d)] that returned is a hit and returns [d]. *)
Theorem get_after_insert (S : Z) os c k d c1 :
  run os (new S) = Some c ->
  insert k d c = Some c1 ->
  exists c2, get k c1 = Some (c2, Some d).
Proof.
  intros Hr Hi. apply reachable_wf in Hr.
  destruct (get_result k c1) as [c2 Hg]; [by eapply wf_insert|].
  exists c2. by rewrite Hg, (proj1 (insert_cached _ _ _ _ Hr Hi)).
Qed.

(** X2: a hit never returns a stale value.  Whatever calls [os] were made
    on a new cache, the value a [get(k)] returns is the one of the last
    [insert(k, _)] among them, and no [erase(k)] follows that insert. *)
Theorem get_returns_last_insert (S : Z) os c k c' v :
  run os (new S) = Some c ->
  get k c = Some (c', Some v) ->
  written k os None = Some v.
Proof.
  intros Hr Hg.
  destruct (get_cached _ _ _ _ Hg) as [Hv _].
  destruct (run_cached k os (new S) c None (wf_new S)) as [Hn|Hw];
    [by left|done| |]; congruence.
Qed.

(** X3: a call changes what [get(k)] returns for another key only by
    removing the entry.  If the call is not an [insert(k, _)] and is not
    one that can remove the entry of [k] ([erase(k)], a [change_capacity],
    or an [insert] whose eviction loses [k]), then [get(k)] returns after
    the call what it would have returned before it. *)
Theorem other_keys_keep_their_values (S : Z) os c o c1 k :
  run os (new S) = Some c ->
  step o c = Some c1 ->
  (forall d, o ≠ Insert k d) ->
  ~ may_remove k o c ->
  snd <$> get k c1 = snd <$> get k c.
Proof.
  intros Hr Hs Hins Hrem. apply reachable_wf in Hr.
  assert (Hwf1 : wf c1) by (by eapply step_wf).
  destruct (get_result k c Hr) as [c' ->].
  destruct (get_result k c1 Hwf1) as [c1' ->]. simpl. f_equal.
  pose proof (step_cached o c c1 k Hr Hs) as Hk.
  assert (Hkeep : cached k c1 = None -> cached k c = None).
  { intros Hn. apply (cached_None _ _ Hwf1) in Hn.
    destruct (m_page_map c !! k) as [pos|] eqn:Hm;
      [|by apply (cached_None _ _ Hr)].
    exfalso. apply Hrem. eapply step_keeps_key; [|done|].
    - apply contains_true. by rewrite Hm.
    - by apply contains_false. }
  destruct o as [k'|k' d|k'|n]; simpl in Hrem.
  - done.
  - case_decide; [subst; by destruct (Hins d)|].
    destruct Hk as [-> | Hn]; [done|]. by rewrite Hn, Hkeep.
  - case_decide; [by subst|done].
  - destruct Hk as [-> | Hn]; [done|]. by rewrite Hn, Hkeep.
Qed.

Lemma segments_nodes c :
  wf c ->
  segment window c ++ segment probationary c ++ segment safe c
  ≡ₚ (map_to_list (nodes c)).*1.
Proof.
  intros Hwf. apply NoDup_Permutation.
  - assert (Hdisj : forall ct ct' pos,
              ct ≠ ct' -> pos ∈ segment ct c -> pos ∉ segment ct' c).
    { intros ct ct' pos Hne H1 H2.
      apply (wf_segment _ Hwf) in H1 as (p & Hp & <-).
      apply (wf_segment _ Hwf) in H2 as (p' & Hp' & <-). congruence. }
    apply NoDup_app. split; [apply (wf_nodup _ Hwf)|]. split.
    + intros pos Hw [Hp|Hp]%elem_of_app; by eapply Hdisj in Hp.
    + apply NoDup_app. split; [apply (wf_nodup _ Hwf)|].
      split; [|apply (wf_nodup _ Hwf)].
      intros pos Hw Hp; by eapply Hdisj in Hp.
  - apply NoDup_fst_map_to_list.
  - intros pos. rewrite !elem_of_app, list_elem_of_fmap. split.
    + intros Hin.
      assert (exists ct, pos ∈ segment ct c) as [ct Hct]
        by (destruct Hin as [?|[?|?]]; eauto).
      apply (wf_segment _ Hwf) in Hct as (p & Hp & _).
      exists (pos, p). split; [done|]. by apply elem_of_map_to_list.
    + intros ([pos' p] & -> & Hp%elem_of_map_to_list). simpl.
      pose proof (wf_node_segment c pos' p Hwf Hp) as Hin.
      destruct (cache_type p); auto.
Qed.

Lemma page_map_nodes c :
  wf c -> (map_to_list (m_page_map c)).*2 ≡ₚ (map_to_list (nodes c)).*1.
Proof.
  intros Hwf. apply NoDup_Permutation.
  - apply NoDup_fmap_2_strong; [|apply NoDup_map_to_list].
    intros [k pos] [k' pos'] Hk%elem_of_map_to_list Hk'%elem_of_map_to_list.
    simpl. intros <-. f_equal. by eapply wf_page_map_inj.
  - apply NoDup_fst_map_to_list.
  - intros pos. rewrite !list_elem_of_fmap. split.
    + intros ([k pos'] & -> & Hk%elem_of_map_to_list). simpl.
      apply (wf_page_map _ Hwf) in Hk as (p & Hp & _).
      exists (pos', p). split; [done|]. by apply elem_of_map_to_list.
    + intros ([pos' p] & -> & Hp%elem_of_map_to_list). simpl.
      exists (key p, pos'). split; [done|]. apply elem_of_map_to_list.
      apply (wf_page_map _ Hwf). eauto.
Qed.

(** X4: on every cache reached from the constructor [size()] is the
    number of keys in the page map, that is, of the keys for which
    [contains] is true: no page is linked in two segments or under two
    keys, and no key is left without its page. *)
Theorem size_counts_keys (S : Z) os c :
  run os (new S) = Some c ->
  size c = Z.of_nat (base.size (m_page_map c)).
Proof.
  intros Hwf%reachable_wf.
  rewrite <- length_map_to_list, <- (length_fmap snd).
  rewrite (page_map_nodes c Hwf), <- (segments_nodes c Hwf).
  rewrite !length_app. unfold size, slru.size, lru.size, segment. lia.
Qed.

End cache_reachable.
(* ------------------------------------------------------------------ *)
(** ** More of the binary32 capacity computations *)
(* ------------------------------------------------------------------ *)

Section f32_more.
Import F32.

Lemma round24_ge_repr v b : 0 <= b -> b <= v -> repr24 b -> b <= round24 v.
Proof.
  intros Hb Hbv (m & e & Hm & He & ->). unfold round24.
  destruct (Z.abs v <? 2 ^ 24) eqn:E; [done|].
  apply Z.ltb_ge in E. rewrite Z.abs_eq in * by lia.
  assert (H24 : 24 <= Z.log2 v) by (apply Z.log2_le_pow2; lia).
  set (s := Z.log2 v - 23).
  assert (Hp : 0 < 2 ^ s) by (apply Z.pow_pos_nonneg; lia).
  pose proof (rne_bounds v s ltac:(lia)) as [Hlo _].
  assert (Hq : 2 ^ 23 <= v / 2 ^ s).
  { apply Z.div_le_lower_bound; [done|].
    rewrite Z.mul_comm, <- Z.pow_add_r by lia.
    replace (23 + s) with (Z.log2 v) by lia.
    apply Z.log2_spec. lia. }
  assert (He0 : 0 < 2 ^ e) by (apply Z.pow_pos_nonneg; lia).
  destruct (Z_lt_le_dec e s) as [Hes | Hes].
  - assert (2 ^ e * 2 <= 2 ^ s).
    { replace s with (e + 1 + (s - e - 1)) by lia.
      rewrite !Z.pow_add_r by lia.
      assert (0 < 2 ^ (s - e - 1)) by (apply Z.pow_pos_nonneg; lia).
      change (2 ^ 1) with 2. nia. }
    change (2 ^ 24) with (2 ^ 23 * 2) in Hm. nia.
  - replace e with (s + (e - s)) in * by lia.
    rewrite Z.pow_add_r in * by lia.
    assert (0 < 2 ^ (e - s)) by (apply Z.pow_pos_nonneg; lia).
    set (t := 2 ^ (e - s)) in *.
    assert (m * t <= v / 2 ^ s).
    { apply Z.div_le_lower_bound; [done|]. lia. }
    nia.
Qed.

(** The relative error of the rounding. *)
Lemma round24_le_rel v : 0 <= v -> 2 ^ 23 * round24 v <= (2 ^ 23 + 1) * v.
Proof.
  intros Hv. unfold round24.
  destruct (Z.abs v <? 2 ^ 24) eqn:E; [lia|].
  apply Z.ltb_ge in E. rewrite Z.abs_eq in * by lia.
  assert (H24 : 24 <= Z.log2 v) by (apply Z.log2_le_pow2; lia).
  set (s := Z.log2 v - 23).
  assert (Hp : 0 < 2 ^ s) by (apply Z.pow_pos_nonneg; lia).
  pose proof (rne_bounds v s ltac:(lia)) as [_ Hhi].
  assert (Hs : 2 ^ 23 * 2 ^ s <= v).
  { rewrite <- Z.pow_add_r by lia.
    replace (23 + s) with (Z.log2 v) by lia. apply Z.log2_spec. lia. }
  pose proof (Z.mul_div_le v (2 ^ s) Hp).
  nia.
Qed.

(** [int(0.8f * n)] is at most [n]. *)
Lemma safe_share_le n :
  0 <= n -> 0 <= to_int (mul c0_8 (of_int n)) <= n.
Proof.
  intros Hn. unfold to_int, mul, of_int, c0_8; simpl num; simpl scale.
  change (24 + 0) with 24.
  set (x := round24 n).
  assert (Hx0 : 0 <= x) by (by apply round24_nonneg).
  pose proof (round24_le_rel n Hn) as Hx. fold x in Hx.
  pose proof (round24_le_rel (13421773 * x) ltac:(lia)) as Hy.
  assert (Hy0 : 0 <= round24 (13421773 * x)) by (apply round24_nonneg; lia).
  set (y := round24 (13421773 * x)) in *.
  split; [apply Z.quot_pos; lia|].
  apply Z.quot_le_upper_bound; [lia|]. 
  change (2 ^ 23) with 8388608 in *. change (2 ^ 24) with 16777216. lia.
Qed.

(** [int(0.8f * n)] is at least 1 from [n = 2] on. *)
Lemma safe_share_ge_1 n : 2 <= n -> 1 <= to_int (mul c0_8 (of_int n)).
Proof.
  intros Hn. unfold to_int, mul, of_int, c0_8; simpl num; simpl scale.
  change (24 + 0) with 24.
  assert (Hx : 2 <= round24 n).
  { apply round24_ge_repr; [lia|done|]. exists 2, 0. lia. }
  set (x := round24 n) in *.
  assert (Hy : 2 ^ 24 <= round24 (13421773 * x)).
  { apply round24_ge_repr; [lia|lia|]. exists (2 ^ 24), 0. lia. }
  apply Z.quot_le_lower_bound; lia.
Qed.

End f32_more.

Lemma get_window_capacity_le_sub n :
  3 <= n -> wtinylfu_cache.get_window_capacity n <= n - 2.
Proof.
  intros Hn. unfold wtinylfu_cache.get_window_capacity.
  apply Z.max_lub; [lia|].
  unfold F32.to_int, F32.ceil, F32.mul, F32.of_int, F32.c0_01;
    simpl F32.num; simpl F32.scale.
  change (30 + 0) with 30.
  rewrite Z.quot_mul by lia.
  set (x := F32.round24 n).
  assert (Hx0 : 0 <= x) by (apply round24_nonneg; lia).
  assert (Hx : x <= 2 * n) by (apply round24_of_int_le; lia).
  assert (Hy : F32.round24 (10737418 * x) <= x * 2 ^ 24).
  { apply mul_const_le; [lia|done|]. apply round24_repr. lia. }
  set (y := F32.round24 (10737418 * x)) in *.
  assert (- (n - 2) <= - y / 2 ^ 30); [|lia].
  apply Z.div_le_lower_bound; lia.
Qed.

Section f32_exact.
Import F32.

Lemma rne_near v s :
  0 < s -> v - 2 ^ (s - 1) <= rne v s * 2 ^ s <= v + 2 ^ (s - 1).
Proof.
  intros Hs. unfold rne.
  assert (Hp : 0 < 2 ^ s) by (apply Z.pow_pos_nonneg; lia).
  assert (Hh : 2 ^ s = 2 * 2 ^ (s - 1)).
  { replace s with (1 + (s - 1)) at 1 by lia. by rewrite Z.pow_add_r by lia. }
  pose proof (Z.div_mod v (2 ^ s) ltac:(lia)) as Hdm.
  pose proof (Z.mod_pos_bound v (2 ^ s) Hp) as Hr.
  destruct (_ || _) eqn:E.
  - apply orb_true_iff in E as [E|E].
    + apply Z.ltb_lt in E. lia.
    + apply andb_true_iff in E as [E _]. apply Z.eqb_eq in E. lia.
  - apply orb_false_iff in E as [E _]. apply Z.ltb_ge in E. lia.
Qed.

(** The rounding moves a value below [2^e] by at most [2^(e - 25)]. *)
Lemma round24_near v e :
  0 <= v -> 25 <= e -> v < 2 ^ e ->
  v - 2 ^ (e - 25) <= round24 v <= v + 2 ^ (e - 25).
Proof.
  intros Hv He Hlt. unfold round24.
  assert (0 < 2 ^ (e - 25)) by (apply Z.pow_pos_nonneg; lia).
  destruct (Z.abs v <? 2 ^ 24) eqn:E; [lia|].
  apply Z.ltb_ge in E. rewrite Z.abs_eq in * by lia.
  assert (H24 : 24 <= Z.log2 v) by (apply Z.log2_le_pow2; lia).
  assert (Hlog : Z.log2 v < e) by (apply Z.log2_lt_pow2; lia).
  set (s := Z.log2 v - 23) in *.
  pose proof (rne_near v s ltac:(lia)) as Hn.
  assert (2 ^ (s - 1) <= 2 ^ (e - 25)) by (apply Z.pow_le_mono_r; lia).
  lia.
Qed.

Lemma round24_exact b : 0 <= b -> repr24 b -> round24 b = b.
Proof.
  intros Hb Hr. apply Z.le_antisymm.
  - by apply round24_le_repr.
  - by apply round24_ge_repr.
Qed.

Lemma of_int_exact n : 0 <= n < 2 ^ 24 -> of_int n = mk n 0.
Proof.
  intros Hn. unfold of_int, round24.
  rewrite Z.abs_eq by lia.
  destruct (n <? 2 ^ 24) eqn:E; [done|]. apply Z.ltb_ge in E. lia.
Qed.

(** [int(std::ceil(0.01f * n))] up to the first [n] for which binary32
    rounds the product down to an integer. *)
Lemma window_share n :
  1 <= n <= 13107200 ->
  to_int (ceil (mul c0_01 (of_int n))) = (n + 99) / 100.
Proof.
  intros Hn. rewrite of_int_exact by lia.
  unfold to_int, ceil, mul, c0_01; simpl num; simpl scale.
  change (30 + 0) with 30. rewrite Z.quot_mul by lia.
  set (k := (n + 99) / 100).
  assert (Hk : 100 * (k - 1) < n <= 100 * k).
  { unfold k. pose proof (Z.div_mod (n + 99) 100 ltac:(lia)).
    pose proof (Z.mod_pos_bound (n + 99) 100 ltac:(lia)). lia. }
  assert (Hk1 : 1 <= k <= 131072) by lia.
  set (v := 10737418 * n).
  assert (Hup : round24 v <= 2 ^ 30 * k).
  { apply round24_le_repr; [lia| |].
    - unfold v. change (2 ^ 30) with 1073741824. lia.
    - exists k, 30. lia. }
  pose proof (round24_near v 47 ltac:(lia) ltac:(lia)) as Hnear.
  assert (Hlo : 2 ^ 30 * (k - 1) < round24 v).
  { unfold v in *. change (2 ^ 47) with 140737488355328 in Hnear.
    change (2 ^ (47 - 25)) with 4194304 in Hnear.
    change (2 ^ 30) with 1073741824. lia. }
  set (y := round24 v) in *.
  assert (- y / 2 ^ 30 = - k); [|lia].
  symmetry. apply (Z.div_unique _ _ _ (2 ^ 30 * k - y)); lia.
Qed.

(** [int(0.8f * n)] up to the first [n] for which binary32 rounds the
    product up to an integer. *)
Lemma safe_share n :
  0 <= n <= 5242880 -> to_int (mul c0_8 (of_int n)) = 4 * n / 5.
Proof.
  intros Hn.
  destruct (Z.eq_dec n 5242880) as [->|Hne]; [by vm_compute|].
  rewrite of_int_exact by lia.
  unfold to_int, mul, c0_8; simpl num; simpl scale. change (24 + 0) with 24.
  set (q := 4 * n / 5).
  assert (Hq : 5 * q <= 4 * n < 5 * q + 5).
  { unfold q. pose proof (Z.div_mod (4 * n) 5 ltac:(lia)).
    pose proof (Z.mod_pos_bound (4 * n) 5 ltac:(lia)). lia. }
  set (v := 13421773 * n).
  assert (Hlo : 2 ^ 24 * q <= round24 v).
  { apply round24_ge_repr; [lia| |].
    - unfold v. change (2 ^ 24) with 16777216. lia.
    - exists q, 24. lia. }
  pose proof (round24_near v 46 ltac:(lia) ltac:(lia)) as Hnear.
  assert (Hup : round24 v < 2 ^ 24 * (q + 1)).
  { unfold v in *. change (2 ^ 46) with 70368744177664 in Hnear.
    change (2 ^ (46 - 25)) with 2097152 in Hnear.
    change (2 ^ 24) with 16777216. lia. }
  set (y := round24 v) in *.
  rewrite Z.quot_div_nonneg by lia.
  symmetry. apply (Z.div_unique _ _ _ (y - 2 ^ 24 * q)); lia.
Qed.

End f32_exact.

Section f32_ctor.
Import F32.

(** [0.8f * n] when 5 divides [n]: the product is an integer, and binary32
    rounds to it. *)
Lemma safe_share_exact n :
  0 <= n < 2 ^ 24 -> n mod 5 = 0 ->
  round24 (13421773 * n) = 2 ^ 24 * (4 * n / 5).
Proof.
  intros Hn H5.
  pose proof (Z.div_mod n 5 ltac:(lia)) as Hdm. rewrite H5 in Hdm.
  set (j := n / 5) in *.
  assert (Hq : 4 * n / 5 = 4 * j).
  { symmetry. apply (Z.div_unique _ _ _ 0); lia. }
  rewrite Hq.
  set (v := 13421773 * n).
  assert (Hv : v = 2 ^ 24 * (4 * j) + j).
  { unfold v. change (2 ^ 24) with 16777216. lia. }
  apply Z.le_antisymm.
  - unfold round24. rewrite Z.abs_eq by lia.
    destruct (v <? 2 ^ 24) eqn:E.
    { apply Z.ltb_lt in E. change (2 ^ 24) with 16777216 in *. lia. }
    apply Z.ltb_ge in E.
    assert (H24 : 24 <= Z.log2 v) by (apply Z.log2_le_pow2; lia).
    assert (H47 : Z.log2 v < 48).
    { apply Z.log2_lt_pow2; [lia|]. unfold v.
      change (2 ^ 48) with (16777216 * 16777216).
      change (2 ^ 24) with 16777216 in Hn. nia. }
    pose proof (Z.log2_spec v ltac:(lia)) as [Hl1 Hl2].
    set (s := Z.log2 v - 23) in *.
    assert (Hp : 0 < 2 ^ s) by (apply Z.pow_pos_nonneg; lia).
    assert (Hs24 : 2 ^ 24 = 2 ^ (24 - s) * 2 ^ s).
    { rewrite <- Z.pow_add_r by lia. f_equal. lia. }
    assert (Hhigh : 2 ^ Z.succ (Z.log2 v) = 2 ^ 24 * 2 ^ s).
    { rewrite <- Z.pow_add_r by lia. f_equal. lia. }
    assert (Hh : 2 ^ s = 2 * 2 ^ (s - 1)).
    { replace s with (1 + (s - 1)) at 1 by lia.
      by rewrite Z.pow_add_r by lia. }
    pose proof (rne_near v s ltac:(lia)) as [_ Hnear].
    assert (0 < 2 ^ (24 - s)) by (apply Z.pow_pos_nonneg; lia).
    set (A := rne v s) in *. set (P := 2 ^ s) in *.
    set (Q := 4 * j * 2 ^ (24 - s)).
    assert (HQ : 2 ^ 24 * (4 * j) = Q * P).
    { unfold Q. rewrite Hs24. ring. }
    rewrite HQ.
    assert (A < Q + 1); [|nia].
    assert (Hj : 5 * j < 2 * P).
    { rewrite Hhigh in Hl2. unfold v in Hl2.
      change (2 ^ 24) with 16777216 in Hl2. lia. }
    apply (Z.mul_lt_mono_pos_r P); [done|].
    rewrite HQ in Hv. lia.
  - apply round24_ge_repr; [lia|lia|]. exists (4 * j), 24. lia.
Qed.

(** The difference [n - 0.8f * n] is a binary32 value. *)
Lemma sub_share_exact n :
  0 <= n < 2 ^ 24 ->
  0 <= round24 (13421773 * n) <= n * 2 ^ 24 /\
  round24 (n * 2 ^ 24 - round24 (13421773 * n))
  = n * 2 ^ 24 - round24 (13421773 * n).
Proof.
  intros Hn.
  set (v := 13421773 * n).
  assert (Ha0 : 0 <= round24 v) by (apply round24_nonneg; lia).
  assert (Ha1 : round24 v <= n * 2 ^ 24).
  { apply mul_const_le; [lia|lia|]. exists n, 0. lia. }
  split; [done|].
  apply round24_exact; [lia|].
  unfold round24. rewrite Z.abs_eq by lia.
  destruct (v <? 2 ^ 24) eqn:E.
  - apply Z.ltb_lt in E. exists (n * 2 ^ 24 - v), 0.
    unfold v in *. change (2 ^ 24) with 16777216 in *. lia.
  - apply Z.ltb_ge in E.
    assert (H24 : 24 <= Z.log2 v) by (apply Z.log2_le_pow2; lia).
    assert (H47 : Z.log2 v < 48).
    { apply Z.log2_lt_pow2; [lia|]. unfold v.
      change (2 ^ 48) with (16777216 * 16777216).
      change (2 ^ 24) with 16777216 in Hn. nia. }
    pose proof (Z.log2_spec v ltac:(lia)) as [Hl1 Hl2].
    set (s := Z.log2 v - 23) in *.
    assert (Hp : 0 < 2 ^ s) by (apply Z.pow_pos_nonneg; lia).
    assert (Hs24 : 2 ^ 24 = 2 ^ (24 - s) * 2 ^ s).
    { rewrite <- Z.pow_add_r by lia. f_equal. lia. }
    assert (Hpow : 2 ^ Z.succ (Z.log2 v) = 2 ^ 24 * 2 ^ s).
    { rewrite <- Z.pow_add_r by lia. f_equal. lia. }
    pose proof (rne_bounds v s ltac:(lia)) as [Hr1 Hr2].
    pose proof (Z.div_mod v (2 ^ s) ltac:(lia)) as Hdm.
    pose proof (Z.mod_pos_bound v (2 ^ s) Hp) as Hmod.
    exists (n * 2 ^ (24 - s) - rne v s), s.
    assert (Hmant : (n * 2 ^ (24 - s) - rne v s) * 2 ^ s
                    = n * 2 ^ 24 - rne v s * 2 ^ s).
    { rewrite Hs24. ring. }
    split; [|split; [lia|by rewrite Hmant]].
    unfold round24 in Ha1. rewrite Z.abs_eq in Ha1 by lia.
    assert (Hv : (v <? 2 ^ 24) = false) by (by apply Z.ltb_ge).
    rewrite Hv in Ha1. fold s in Ha1.
    set (A := rne v s) in *. set (P := 2 ^ s) in *.
    set (M := n * 2 ^ (24 - s)) in *.
    assert (M * P = n * 2 ^ 24) by (unfold M; rewrite Hs24; ring).
    rewrite Hpow in Hl2.
    unfold v in *. change (2 ^ 24) with 16777216 in *. nia.
Qed.

(** The two shares of [slru(int)] add up to [n] or to [n - 1]. *)
Lemma slru_new_shares n :
  0 <= n < 2 ^ 24 ->
  n - 1 <= to_int (mul c0_8 (of_int n))
           + to_int (sub (of_int n) (mul c0_8 (of_int n))) <= n.
Proof.
  intros Hn. rewrite of_int_exact by lia.
  unfold to_int, sub, mul, c0_8; simpl num; simpl scale.
  change (24 + 0) with 24. change (Z.max 0 24) with 24.
  change (24 - 0) with 24. change (24 - 24) with 0.
  rewrite Z.mul_1_r.
  destruct (sub_share_exact n Hn) as [[Ha0 Ha1] ->].
  set (a := round24 (13421773 * n)) in *.
  rewrite !Z.quot_div_nonneg by lia.
  pose proof (Z.div_mod a (2 ^ 24) ltac:(lia)).
  pose proof (Z.mod_pos_bound a (2 ^ 24) ltac:(lia)).
  pose proof (Z.div_mod (n * 2 ^ 24 - a) (2 ^ 24) ltac:(lia)).
  pose proof (Z.mod_pos_bound (n * 2 ^ 24 - a) (2 ^ 24) ltac:(lia)).
  lia.
Qed.

(** The two shares of [slru(int)]: they add up to [n] exactly when 5
    divides [n]. *)
Lemma slru_new_shares_exact n :
  0 <= n <= 5242880 ->
  to_int (mul c0_8 (of_int n))
  + to_int (sub (of_int n) (mul c0_8 (of_int n)))
  = if decide (n mod 5 = 0) then n else n - 1.
Proof.
  intros Hn. rewrite safe_share by done.
  rewrite of_int_exact by lia.
  unfold to_int, sub, mul, c0_8; simpl num; simpl scale.
  change (24 + 0) with 24. change (Z.max 0 24) with 24.
  change (24 - 0) with 24. change (24 - 24) with 0.
  rewrite Z.mul_1_r.
  destruct (sub_share_exact n ltac:(lia)) as [[Ha0 Ha1] ->].
  pose proof (Z.div_mod (4 * n) 5 ltac:(lia)) as Hdm4.
  pose proof (Z.mod_pos_bound (4 * n) 5 ltac:(lia)) as Hm4.
  set (q := 4 * n / 5) in *.
  rewrite Z.quot_div_nonneg by lia.
  case_decide as H5.
  - rewrite safe_share_exact by (done || lia). fold q.
    replace (n * 2 ^ 24 - 2 ^ 24 * q) with ((n - q) * 2 ^ 24) by ring.
    rewrite Z.div_mul by lia. lia.
  - assert (Hn0 : 1 <= n <= 5242879).
    { assert (n ≠ 0) by (by intros ->).
      assert (n ≠ 5242880) by (by intros ->). lia. }
    assert (Hr : 1 <= 4 * n mod 5).
    { assert (4 * n mod 5 ≠ 0); [|lia].
      intros Hz. apply Z.mod_divide in Hz; [|lia].
      destruct Hz as [z Hz]. apply H5.
      pose proof (Z.div_mod n 5 ltac:(lia)).
      pose proof (Z.mod_pos_bound n 5 ltac:(lia)). lia. }
    set (v := 13421773 * n) in *.
    assert (Hv46 : v < 2 ^ 46).
    { unfold v. change (2 ^ 46) with 70368744177664. lia. }
    assert (Hnear : v - 2097152 <= round24 v <= v + 2097152).
    { destruct (Z_lt_le_dec v (2 ^ 24)) as [Hv|Hv].
      - unfold round24. rewrite Z.abs_eq by lia.
        apply Z.ltb_lt in Hv. rewrite Hv. lia.
      - apply (round24_near v 46); lia. }
    set (a := round24 v) in *.
    assert ((n * 2 ^ 24 - a) / 2 ^ 24 = n - q - 1); [|lia].
    symmetry.
    apply (Z.div_unique _ _ _ (2 ^ 24 * (q + 1) - a));
      unfold v in *; change (2 ^ 24) with 16777216 in *; lia.
Qed.

End f32_ctor.
(* ------------------------------------------------------------------ *)
(** ** The calls that are defined *)
(* ------------------------------------------------------------------ *)

Section cache_defined.
Context {K : Type} `{Countable K} {V F : Type} `{!FrequencySketch K F}.
Import wtinylfu_cache.
Implicit Types c : wtinylfu_cache.t K V F.

Lemma slru_handle_hit_safe pos (nodes nodes' : gmap page_position (page K V))
    (s s' : slru.t) :
  slru.handle_hit pos nodes s = Some (nodes', s') ->
  lru.capacity (slru.m_safe s') = lru.capacity (slru.m_safe s) /\
  lru.capacity (slru.m_probationary s')
  = lru.capacity (slru.m_probationary s) /\
  (lru.size (slru.m_safe s') = lru.size (slru.m_safe s) \/
   lru.size (slru.m_safe s') < lru.capacity (slru.m_safe s')).
Proof.
  unfold slru.handle_hit, slru.promote_to_safe, slru.demote_to_probationary.
  intros Hh.
  destruct (nodes !! pos) as [p|]; simpl in Hh; [|done].
  destruct (cache_type p); [done| |].
  - destruct (lru.transfer_page_from pos _ _) as [[sf pr]|] eqn:Ht;
      simpl in Hh; [|done].
    apply lru_transfer_size in Ht as [[Hs1 Hc1] [Hs2 Hc2]].
    destruct (set_cache_type safe pos nodes) as [n1|]; simpl in Hh; [|done].
    destruct (lru.is_full sf) eqn:Hf.
    + destruct (lru.get_lru_pos sf) as [l|]; simpl in Hh; [|done].
      destruct (lru.transfer_page_from l pr sf) as [[pr' sf']|] eqn:Ht';
        simpl in Hh; [|done].
      apply lru_transfer_size in Ht' as [[Hs3 Hc3] [Hs4 Hc4]].
      destruct (set_cache_type probationary l n1); simpl in Hh; [|done].
      simplify_eq. simpl. split; [congruence|]. split; [congruence|].
      left. lia.
    + simplify_eq. simpl. split; [done|]. split; [done|]. right.
      unfold lru.is_full in Hf. apply bool_decide_eq_false in Hf. lia.
  - destruct (lru.handle_hit pos _) as [sf|] eqn:Hl; simpl in Hh; [|done].
    apply lru_handle_hit_size in Hl as [Hs Hc]. simplify_eq. simpl.
    split; [done|]. split; [done|]. by left.
Qed.

Lemma get_steady k c :
  steady c -> exists c' r, get k c = Some (c', r) /\ steady c'.
Proof.
  intros (Hs & Hp & Hsafe).
  destruct (get_Some k c (proj1 Hs)) as (c' & r & Hg & _).
  exists c', r. split; [done|]. split.
  { apply (step_sound (Get k) c); [done|]. simpl. by rewrite Hg. }
  unfold get in Hg. simpl in Hg.
  destruct (m_page_map c !! k) as [pos|]; [|by simplify_eq].
  destruct (handle_hit pos _) as [c1|] eqn:Hh; simpl in Hg; [|done].
  destruct (nodes c1 !! pos) as [p1|]; simpl in Hg; [|done]. simplify_eq.
  unfold handle_hit in Hh. simpl in Hh.
  destruct (nodes c !! pos) as [p|]; simpl in Hh; [|done].
  destruct (decide _).
  - destruct (lru.handle_hit _ _); simpl in Hh; by simplify_eq.
  - destruct (slru.handle_hit _ _ _) as [[n' m]|] eqn:Hm; simpl in Hh; [|done].
    simplify_eq. simpl.
    apply slru_handle_hit_safe in Hm as (Hc1 & Hc2 & Hsz).
    unfold slru.capacity in *. split; [lia|]. lia.
Qed.

Lemma evict_from_main_safe c c' :
  evict_from_main c = Some c' ->
  slru.m_safe (m_main c') = slru.m_safe (m_main c) /\
  lru.capacity (slru.m_probationary (m_main c'))
  = lru.capacity (slru.m_probationary (m_main c)).
Proof.
  unfold evict_from_main, slru.evict. intros He.
  destruct (slru.get_victim_key _ _); simpl in He; [|done].
  destruct (slru.get_victim_pos _); simpl in He; [|done].
  destruct (lru.evict _) as [pr|] eqn:Hl; simpl in He; [|done].
  apply lru_evict_size in Hl as [_ Hc]. by simplify_eq.
Qed.

Lemma transfer_window_victim_safe c c' :
  transfer_window_victim c = Some c' ->
  slru.m_safe (m_main c') = slru.m_safe (m_main c) /\
  lru.capacity (slru.m_probationary (m_main c'))
  = lru.capacity (slru.m_probationary (m_main c)).
Proof.
  unfold transfer_window_victim, slru.transfer_page_from. intros He.
  destruct (lru.get_lru_pos _) as [pos|]; simpl in He; [|done].
  destruct (lru.transfer_page_from pos _ _) as [[pr w]|] eqn:Ht;
    simpl in He; [|done].
  apply lru_transfer_size in Ht as [[_ Hc] _].
  destruct (set_cache_type _ _ _); simpl in He; [|done]. by simplify_eq.
Qed.

Lemma evict_safe c c' :
  evict c = Some c' ->
  slru.m_safe (m_main c') = slru.m_safe (m_main c) /\
  lru.capacity (slru.m_probationary (m_main c'))
  = lru.capacity (slru.m_probationary (m_main c)).
Proof.
  unfold evict, evict_from_window_or_main. intros He.
  case_bool_decide; [|by apply transfer_window_victim_safe].
  destruct (lru.get_victim_key _ _); simpl in He; [|done].
  destruct (slru.get_victim_key _ _); simpl in He; [|done].
  case_bool_decide.
  - destruct (evict_from_main c) as [c1|] eqn:Hm; simpl in He; [|done].
    apply evict_from_main_safe in Hm as [<- <-].
    by apply transfer_window_victim_safe.
  - apply evict_from_window_main in He as [-> _]. done.
Qed.

Lemma insert_safe k d c c' :
  insert k d c = Some c' ->
  slru.m_safe (m_main c') = slru.m_safe (m_main c) /\
  lru.capacity (slru.m_probationary (m_main c'))
  = lru.capacity (slru.m_probationary (m_main c)).
Proof.
  unfold insert. intros Hi.
  assert (Ha : forall c1, assign_or_emplace k d c1 = Some c' ->
                m_main c' = m_main c1).
  { intros c1. unfold assign_or_emplace.
    destruct (m_page_map c1 !! k); [|by intros; simplify_eq].
    destruct (set_data _ _ _); simpl; by intros; simplify_eq. }
  destruct (lru.is_full _).
  - destruct (evict c) as [c1|] eqn:He; simpl in Hi; [|done].
    rewrite (Ha _ Hi). by apply evict_safe.
  - simpl in Hi. by rewrite (Ha _ Hi).
Qed.

Lemma insert_steady k d c :
  steady c -> exists c', insert k d c = Some c' /\ steady c'.
Proof.
  intros (Hs & Hp & Hsafe).
  destruct Hs as (Hwf & Hb & Hw).
  assert (Hi : is_Some (insert k d c)).
  { apply insert_is_Some; [done|done|]. intros (Hf & Hfull & Hnil).
    destruct Hb as [Hbw Hbm]. unfold capacity, size, slru.size in *.
    unfold segment in Hnil. unfold lru.size at 3 in Hfull.
    rewrite Hnil in Hfull. simpl in Hfull. lia. }
  destruct Hi as [c' Hi]. exists c'. split; [done|]. split.
  { by apply (step_sound (Insert k d) c). }
  apply insert_safe in Hi as [Hsf Hpc].
  unfold slru.capacity in *. rewrite Hsf, Hpc. done.
Qed.

Lemma erase_steady k c :
  steady c -> exists c', erase k c = Some c' /\ steady c'.
Proof.
  intros (Hs & Hp & Hsafe).
  destruct (erase_Some k c (proj1 Hs)) as (c' & He & _).
  exists c'. split; [done|]. split.
  { by apply (step_sound (Erase k) c). }
  unfold erase in He. destruct (m_page_map c !! k) as [pos|]; [|by simplify_eq].
  destruct (nodes c !! pos) as [p|]; simpl in He; [|done].
  destruct (decide (cache_type p = window)).
  - destruct (lru.erase _ _); simpl in He; by simplify_eq.
  - unfold slru.erase in He.
    destruct (nodes c !! pos) as [p'|]; simpl in He; [|done].
    destruct (decide (cache_type p' = safe)).
    + destruct (lru.erase pos _) as [sf|] eqn:Hl; simpl in He; [|done].
      apply lru_erase_size in Hl as [Hsz Hc]. simplify_eq. simpl.
      unfold slru.capacity in *. simpl. split; [done|]. lia.
    + destruct (lru.erase pos _) as [pr|] eqn:Hl; simpl in He; [|done].
      apply lru_erase_size in Hl as [Hsz Hc]. simplify_eq. simpl.
      unfold slru.capacity in *. simpl. split; [lia|]. lia.
Qed.

Lemma evict_main_loop_safe rounds c c' :
  evict_main_loop rounds c = Some c' ->
  slru.m_safe (m_main c') = slru.m_safe (m_main c) /\
  lru.capacity (slru.m_probationary (m_main c'))
  = lru.capacity (slru.m_probationary (m_main c)).
Proof.
  revert c. induction rounds as [|r IH]; intros c; simpl.
  - destruct (slru.is_full _); [done|]. by intros; simplify_eq.
  - destruct (slru.is_full _); [|by intros; simplify_eq].
    destruct (evict_from_main c) as [c1|] eqn:He; simpl; [|done].
    intros [-> ->]%IH. by apply evict_from_main_safe.
Qed.

Lemma change_capacity_steady (n : Z) c c' :
  wf c -> change_capacity n c = Some (inr c') -> steady c'.
Proof.
  intros Hwf Hc.
  assert (Hn : 0 < n).
  { unfold change_capacity in Hc. case_bool_decide; [done|lia]. }
  assert (Hdef : lru.size (slru.m_safe (m_main c)) < n - get_window_capacity n).
  { apply change_capacity_is_Some; [done|done|]. by rewrite Hc. }
  split.
  { split; [by eapply wf_change_capacity|].
    split; [by eapply change_capacity_bounded|].
    by eapply change_capacity_window_capacity. }
  unfold change_capacity in Hc. rewrite bool_decide_eq_false_2 in Hc by lia.
  destruct (evict_window_loop _ _) as [c1|] eqn:Hw; simpl in Hc; [|done].
  destruct (evict_main_loop _ _) as [c2|] eqn:Hm; simpl in Hc; [|done].
  simplify_eq.
  apply evict_main_loop_safe in Hm as [Hsf Hpc].
  apply evict_window_loop_main in Hw as [Hmain _]. simpl in Hmain.
  unfold slru.capacity. rewrite Hsf, Hpc, Hmain.
  unfold slru.set_capacity, lru.set_capacity, lru.capacity, lru.size. simpl.
  unfold lru.size in Hdef.
  pose proof (safe_share_le (n - get_window_capacity n) ltac:(lia)).
  lia.
Qed.

Lemma new_steady (S : Z) : 3 <= S -> steady (new S : wtinylfu_cache.t K V F).
Proof.
  intros HS. split; [apply new_sound; lia|].
  pose proof (get_window_capacity_le_sub S HS) as Hw.
  change (m_main (new S : wtinylfu_cache.t K V F))
    with (slru.new (S - get_window_capacity S)).
  set (m := S - get_window_capacity S) in *.
  destruct (slru_new_capacities m ltac:(lia)) as [H1 H2].
  split; [done|]. unfold slru.capacity.
  assert (1 <= lru.capacity (slru.m_safe (slru.new m)))
    by (apply safe_share_ge_1; lia).
  change (lru.size (slru.m_safe (slru.new m))) with 0. lia.
Qed.

Lemma step_steady o c c' : steady c -> step o c = Some c' -> steady c'.
Proof.
  intros Hs Hstep. destruct o as [k|k d|k|n]; simpl in Hstep.
  - destruct (get_steady k c Hs) as (c1 & r & Hg & Hs1).
    rewrite Hg in Hstep. simpl in Hstep. by simplify_eq.
  - destruct (insert_steady k d c Hs) as (c1 & Hi & Hs1). by simplify_eq.
  - destruct (erase_steady k c Hs) as (c1 & He & Hs1). by simplify_eq.
  - destruct (change_capacity n c) as [[e|c1]|] eqn:Hc; simpl in Hstep;
      [| |done].
    + by simplify_eq.
    + simplify_eq. eapply change_capacity_steady; [|done]. apply Hs.
Qed.

Lemma run_steady os c c' : steady c -> run os c = Some c' -> steady c'.
Proof.
  revert c. induction os as [|o os IH]; intros c Hs Hr; simpl in Hr.
  { by simplify_eq. }
  destruct (step o c) as [c1|] eqn:Hstep; simpl in Hr; [|done].
  eapply IH; [|done]. by eapply step_steady.
Qed.

End cache_defined.

Section safe_segment.
Context {K : Type} `{Countable K} {V F : Type} `{!FrequencySketch K F}.
Import wtinylfu_cache.
Implicit Types c : wtinylfu_cache.t K V F.

Lemma handle_hit_safe pos c c' :
  handle_hit pos c = Some c' ->
  lru.capacity (slru.m_safe (m_main c'))
  = lru.capacity (slru.m_safe (m_main c)) /\
  (lru.size (slru.m_safe (m_main c')) = lru.size (slru.m_safe (m_main c)) \/
   lru.size (slru.m_safe (m_main c'))
   < lru.capacity (slru.m_safe (m_main c'))).
Proof.
  unfold handle_hit. intros Hh.
  destruct (nodes c !! pos) as [p|]; simpl in Hh; [|done].
  destruct (decide _).
  - destruct (lru.handle_hit _ _); simpl in Hh; [|done]. simplify_eq.
    simpl. split; [done|by left].
  - destruct (slru.handle_hit _ _ _) as [[n1 m]|] eqn:Hm; simpl in Hh; [|done].
    simplify_eq. simpl.
    apply slru_handle_hit_safe in Hm as (Hc1 & _ & Hsz). done.
Qed.

Lemma erase_safe k c c' :
  erase k c = Some c' ->
  lru.capacity (slru.m_safe (m_main c'))
  = lru.capacity (slru.m_safe (m_main c)) /\
  lru.size (slru.m_safe (m_main c')) <= lru.size (slru.m_safe (m_main c)).
Proof.
  unfold erase. intros He.
  destruct (m_page_map c !! k) as [pos|]; [|by simplify_eq].
  destruct (nodes c !! pos) as [p|] eqn:Hp; simpl in He; [|done].
  destruct (decide (cache_type p = window)).
  - destruct (lru.erase _ _); simpl in He; by simplify_eq.
  - unfold slru.erase in He. rewrite Hp in He. simpl in He.
    destruct (decide (cache_type p = safe)).
    + destruct (lru.erase pos _) as [sf|] eqn:Hl; simpl in He; [|done].
      apply lru_erase_size in Hl as [Hsz Hc]. simplify_eq. simpl. lia.
    + destruct (lru.erase pos _) as [pr|] eqn:Hl; simpl in He; [|done].
      simplify_eq. simpl. lia.
Qed.

Lemma run_safe_not_full os c c' :
  run os c = Some c' ->
  (forall n, ChangeCapacity n ∈ os -> n <= 0) ->
  lru.size (slru.m_safe (m_main c)) = 0 \/
  lru.size (slru.m_safe (m_main c)) < lru.capacity (slru.m_safe (m_main c)) ->
  lru.size (slru.m_safe (m_main c')) = 0 \/
  lru.size (slru.m_safe (m_main c')) < lru.capacity (slru.m_safe (m_main c')).
Proof.
  revert c. induction os as [|o os IH]; intros c Hr Hos Hc; simpl in Hr.
  { by simplify_eq. }
  destruct (step o c) as [c1|] eqn:Hs; simpl in Hr; [|done].
  apply (IH c1 Hr); [intros n Hn; apply Hos; by apply elem_of_cons; right|].
  assert (Hnn : 0 <= lru.size (slru.m_safe (m_main c1)))
    by (unfold lru.size; lia).
  destruct o as [k|k d|k|n]; simpl in Hs.
  - destruct (get k c) as [[c2 r]|] eqn:Hg; simpl in Hs; [|done].
    simplify_eq. unfold get in Hg. simpl in Hg.
    destruct (m_page_map c !! k) as [pos|]; [|by simplify_eq].
    destruct (handle_hit pos _) as [c2|] eqn:Hh; simpl in Hg; [|done].
    destruct (nodes c2 !! pos); simpl in Hg; [|done]. simplify_eq.
    apply handle_hit_safe in Hh as [Hcap Hsz]. simpl in *. lia.
  - apply insert_safe in Hs as [-> _]. done.
  - apply erase_safe in Hs as [Hcap Hsz]. lia.
  - assert (n <= 0) by (apply Hos; apply elem_of_cons; by left).
    unfold change_capacity in Hs.
    rewrite bool_decide_eq_true_2 in Hs by done. simpl in Hs.
    by simplify_eq.
Qed.

(** X21: without a change of capacity the safe segment is never full.
    [slru::handle_hit] demotes the safe segment's LRU page as soon as a
    promotion makes [size() >= capacity()], so on every cache reached from
    the constructor by [get], [insert] and [erase] the safe segment is
    empty or holds fewer pages than its capacity. *)
Theorem safe_segment_never_full (S : Z) os c :
  run os (new S) = Some c ->
  (forall n, ChangeCapacity n ∈ os -> n <= 0) ->
  lru.size (slru.m_safe (m_main c)) = 0 \/
  lru.is_full (slru.m_safe (m_main c)) = false.
Proof.
  intros Hr Hos.
  destruct (run_safe_not_full os (new S) c Hr Hos) as [Hz|Hlt];
    [by left|by left|].
  right. unfold lru.is_full. apply bool_decide_eq_false_2. lia.
Qed.

End safe_segment.
(* ------------------------------------------------------------------ *)
(** ** The sketch, and what [change_capacity] leaves *)
(* ------------------------------------------------------------------ *)

Section cache_sketch.
Context {K : Type} `{Countable K} {V F : Type} `{!FrequencySketch K F}.
Import wtinylfu_cache.
Implicit Types c : wtinylfu_cache.t K V F.

Lemma handle_hit_filter pos c c' :
  handle_hit pos c = Some c' -> m_filter c' = m_filter c.
Proof.
  unfold handle_hit. intros Hh.
  destruct (nodes c !! pos) as [p|]; simpl in Hh; [|done].
  destruct (decide _).
  - destruct (lru.handle_hit _ _); simpl in Hh; by simplify_eq.
  - destruct (slru.handle_hit _ _ _) as [[n1 m]|]; simpl in Hh; by simplify_eq.
Qed.

Lemma get_filter k c c' r :
  get k c = Some (c', r) -> m_filter c' = record_access k (m_filter c).
Proof.
  unfold get. simpl. intros Hg.
  destruct (m_page_map c !! k) as [pos|]; [|by simplify_eq].
  destruct (handle_hit pos _) as [c1|] eqn:Hh; simpl in Hg; [|done].
  destruct (nodes c1 !! pos); simpl in Hg; [|done]. simplify_eq.
  by apply handle_hit_filter in Hh.
Qed.

Lemma evict_from_window_filter c c' :
  evict_from_window c = Some c' ->
  m_filter c' = m_filter c /\ m_page_map c' ⊆ m_page_map c.
Proof.
  unfold evict_from_window. intros He.
  destruct (lru.get_victim_key _ _); simpl in He; [|done].
  destruct (lru.get_lru_pos _); simpl in He; [|done].
  destruct (lru.evict _); simpl in He; [|done]. simplify_eq.
  split; [done|]. apply delete_subseteq.
Qed.

Lemma evict_from_main_filter c c' :
  evict_from_main c = Some c' ->
  m_filter c' = m_filter c /\ m_page_map c' ⊆ m_page_map c.
Proof.
  unfold evict_from_main. intros He.
  destruct (slru.get_victim_key _ _); simpl in He; [|done].
  destruct (slru.get_victim_pos _); simpl in He; [|done].
  destruct (slru.evict _); simpl in He; [|done]. simplify_eq.
  split; [done|]. apply delete_subseteq.
Qed.

Lemma transfer_window_victim_filter c c' :
  transfer_window_victim c = Some c' -> m_filter c' = m_filter c.
Proof.
  unfold transfer_window_victim. intros He.
  destruct (lru.get_lru_pos _); simpl in He; [|done].
  destruct (slru.transfer_page_from _ _ _ _) as [[[n m] w]|];
    simpl in He; by simplify_eq.
Qed.

Lemma evict_filter c c' : evict c = Some c' -> m_filter c' = m_filter c.
Proof.
  unfold evict, evict_from_window_or_main. intros He.
  case_bool_decide; [|by apply transfer_window_victim_filter].
  destruct (lru.get_victim_key _ _); simpl in He; [|done].
  destruct (slru.get_victim_key _ _); simpl in He; [|done].
  case_bool_decide.
  - destruct (evict_from_main c) as [c1|] eqn:Hm; simpl in He; [|done].
    apply evict_from_main_filter in Hm as [<- _].
    by apply transfer_window_victim_filter.
  - by apply evict_from_window_filter in He as [-> _].
Qed.

Lemma insert_filter k d c c' :
  insert k d c = Some c' -> m_filter c' = m_filter c.
Proof.
  unfold insert. intros Hi.
  assert (Ha : forall c1, assign_or_emplace k d c1 = Some c' ->
                m_filter c' = m_filter c1).
  { intros c1. unfold assign_or_emplace.
    destruct (m_page_map c1 !! k); [|by intros; simplify_eq].
    destruct (set_data _ _ _); simpl; by intros; simplify_eq. }
  destruct (lru.is_full _).
  - destruct (evict c) as [c1|] eqn:He; simpl in Hi; [|done].
    rewrite (Ha _ Hi). by apply evict_filter.
  - simpl in Hi. by rewrite (Ha _ Hi).
Qed.

Lemma erase_filter k c c' : erase k c = Some c' -> m_filter c' = m_filter c.
Proof.
  unfold erase. intros He.
  destruct (m_page_map c !! k) as [pos|]; [|by simplify_eq].
  destruct (nodes c !! pos) as [p|]; simpl in He; [|done].
  destruct (decide _).
  - destruct (lru.erase _ _); simpl in He; by simplify_eq.
  - destruct (slru.erase _ _ _); simpl in He; by simplify_eq.
Qed.

Lemma evict_window_loop_filter rounds c c' :
  evict_window_loop rounds c = Some c' ->
  m_filter c' = m_filter c /\ m_page_map c' ⊆ m_page_map c.
Proof.
  revert c. induction rounds as [|r IH]; intros c; simpl.
  - destruct (lru.is_full _); [done|]. by intros; simplify_eq.
  - destruct (lru.is_full _); [|by intros; simplify_eq].
    destruct (evict_from_window c) as [c1|] eqn:He; simpl; [|done].
    intros [-> Hsub]%IH. apply evict_from_window_filter in He as [-> ?].
    split; [done|]. by etrans.
Qed.

Lemma evict_main_loop_filter rounds c c' :
  evict_main_loop rounds c = Some c' ->
  m_filter c' = m_filter c /\ m_page_map c' ⊆ m_page_map c.
Proof.
  revert c. induction rounds as [|r IH]; intros c; simpl.
  - destruct (slru.is_full _); [done|]. by intros; simplify_eq.
  - destruct (slru.is_full _); [|by intros; simplify_eq].
    destruct (evict_from_main c) as [c1|] eqn:He; simpl; [|done].
    intros [-> Hsub]%IH. apply evict_from_main_filter in He as [-> ?].
    split; [done|]. by etrans.
Qed.

Lemma change_capacity_filter (n : Z) c c' :
  change_capacity n c = Some (inr c') ->
  m_filter c' = sketch_change_capacity n (m_filter c) /\
  m_page_map c' ⊆ m_page_map c.
Proof.
  unfold change_capacity. case_bool_decide; [done|]. intros Hc.
  destruct (evict_window_loop _ _) as [c1|] eqn:Hw; simpl in Hc; [|done].
  destruct (evict_main_loop _ _) as [c2|] eqn:Hm; simpl in Hc; [|done].
  simplify_eq.
  apply evict_main_loop_filter in Hm as [-> Hs2].
  apply evict_window_loop_filter in Hw as [-> Hs1]. simpl in *.
  split; [done|]. by etrans.
Qed.

(** X15: the frequency sketch is reached by [get], which records one
    access of its key (hit or miss), and by a [change_capacity] that does
    not throw, which resizes it; [insert], [erase] and the evictions they
    make never change it. *)
Theorem sketch_sees_gets_only os c c' :
  run os c = Some c' -> m_filter c' = sketch_after os (m_filter c).
Proof.
  revert c. induction os as [|o os IH]; intros c Hr; simpl in Hr.
  { by simplify_eq. }
  destruct (step o c) as [c1|] eqn:Hs; simpl in Hr; [|done].
  rewrite (IH _ Hr). unfold sketch_after. simpl. f_equal.
  destruct o as [k|k d|k|n]; simpl in Hs.
  - destruct (get k c) as [[c2 r]|] eqn:Hg; simpl in Hs; [|done].
    simplify_eq. by eapply get_filter.
  - by eapply insert_filter.
  - by eapply erase_filter.
  - destruct (change_capacity n c) as [[e|c2]|] eqn:Hc; simpl in Hs; [| |done].
    + simplify_eq. unfold change_capacity in Hc.
      destruct (bool_decide (n <= 0)); [done|].
      destruct (evict_window_loop _ _); simpl in Hc; [|done].
      destruct (evict_main_loop _ _); simpl in Hc; done.
    + simplify_eq. pose proof (change_capacity_filter _ _ _ Hc) as [-> _].
      unfold change_capacity in Hc. by destruct (bool_decide (n <= 0)).
Qed.

(** X13: a [change_capacity(n)] that returns leaves [capacity() == n]
    with a window of [get_window_capacity(n)], and both the window and the
    main cache strictly below their capacities (so an entry is evicted
    from a segment that was exactly full, even if [n] is the capacity the
    cache had); it adds no key, and the keys that remain keep their
    values. *)
Theorem change_capacity_resizes (S : Z) os c n c' :
  run os (new S) = Some c ->
  change_capacity n c = Some (inr c') ->
  capacity c' = n /\
  lru.capacity (m_window c') = get_window_capacity n /\
  lru.size (m_window c') < lru.capacity (m_window c') /\
  slru.size (m_main c') < slru.capacity (m_main c') /\
  m_page_map c' ⊆ m_page_map c /\
  (forall k, contains k c' = true -> snd <$> get k c' = snd <$> get k c).
Proof.
  intros Hwf%reachable_wf Hc.
  assert (Hwf' : wf c') by (by eapply wf_change_capacity).
  pose proof (change_capacity_filter _ _ _ Hc) as [_ Hsub].
  assert (Hcached : forall k, cached k c' = cached k c \/ cached k c' = None)
    by (intros k; by eapply change_capacity_cached).
  unfold change_capacity in Hc. case_bool_decide; [done|].
  destruct (evict_window_loop _ _) as [c1|] eqn:Hw; simpl in Hc; [|done].
  destruct (evict_main_loop _ _) as [c2|] eqn:Hm; simpl in Hc; [|done].
  simplify_eq.
  pose proof (evict_main_loop_not_full _ _ _ Hm) as (Hm1 & Hm2 & Hm3).
  pose proof (evict_main_loop_safe _ _ _ Hm) as [Hsf Hpc].
  pose proof (evict_window_loop_main _ _ _ Hw) as [Hmain Hwc].
  pose proof (evict_window_loop_not_full _ _ _ Hw) as (Hw1 & _ & _).
  simpl in Hmain, Hwc.
  assert (Hmc : slru.capacity (m_main c') = n - get_window_capacity n).
  { unfold slru.capacity. rewrite Hsf, Hpc, Hmain.
    apply slru_set_capacity_capacity. }
  assert (Hwcap : lru.capacity (m_window c') = get_window_capacity n)
    by (by rewrite Hm3, Hwc).
  split; [unfold capacity; lia|]. split; [done|]. split; [lia|].
  split; [done|]. split; [done|].
  intros k Hk.
  destruct (get_result k c Hwf) as [c2 ->].
  destruct (get_result k c' Hwf') as [c2' ->]. simpl. f_equal.
  destruct (Hcached k) as [-> | Hn]; [done|].
  apply (cached_None _ _ Hwf') in Hn. apply contains_true in Hk.
  rewrite Hn in Hk. by destruct Hk.
Qed.

End cache_sketch.
(* ------------------------------------------------------------------ *)
(** ** Hits, and the calls built on [get] and [insert] *)
(* ------------------------------------------------------------------ *)

Section cache_hits.
Context {K : Type} `{Countable K} {V F : Type} `{!FrequencySketch K F}.
Import wtinylfu_cache.
Implicit Types c : wtinylfu_cache.t K V F.

Lemma lru_transfer_lists pos (c s c' s' : lru.t) :
  lru.transfer_page_from pos c s = Some (c', s') ->
  lru.m_lru c' = pos :: lru.m_lru c /\
  unlink pos (lru.m_lru s) = Some (lru.m_lru s').
Proof.
  unfold lru.transfer_page_from, lru.erase, lru.insert. intros Ht.
  destruct (unlink pos (lru.m_lru s)) as [l|]; simpl in Ht; [|done].
  by simplify_eq.
Qed.

Lemma lru_handle_hit_list pos (c c' : lru.t) :
  lru.handle_hit pos c = Some c' ->
  exists l', unlink pos (lru.m_lru c) = Some l' /\ lru.m_lru c' = pos :: l'.
Proof.
  unfold lru.handle_hit, lru.erase, lru.insert. intros Hh.
  destruct (unlink pos (lru.m_lru c)) as [l|]; simpl in Hh; [|done].
  exists l. by simplify_eq.
Qed.

Lemma lru_handle_hit_head pos (c c' : lru.t) :
  lru.handle_hit pos c = Some c' -> head (lru.m_lru c') = Some pos.
Proof. intros (l' & _ & ->)%lru_handle_hit_list. done. Qed.

Lemma set_cache_type_lookup ct pos (nodes nodes' : gmap page_position (page K V)) :
  set_cache_type ct pos nodes = Some nodes' ->
  exists p, nodes !! pos = Some p /\
    nodes' = <[pos := Page (key p) ct (data p)]> nodes.
Proof.
  unfold set_cache_type. intros Hs.
  destruct (nodes !! pos) as [p|]; simpl in Hs; [|done].
  exists p. by simplify_eq.
Qed.

(** After a hit the page is the first of the segment it is in. *)
Lemma slru_handle_hit_mru pos (nodes nodes' : gmap page_position (page K V))
    (s s' : slru.t) :
  slru.handle_hit pos nodes s = Some (nodes', s') ->
  exists p p', nodes !! pos = Some p /\ nodes' !! pos = Some p' /\
    key p' = key p /\ data p' = data p /\
    ((cache_type p' = safe /\
      head (lru.m_lru (slru.m_safe s')) = Some pos) \/
     (cache_type p' = probationary /\
      head (lru.m_lru (slru.m_probationary s')) = Some pos)).
Proof.
  unfold slru.handle_hit, slru.promote_to_safe, slru.demote_to_probationary.
  intros Hh.
  destruct (nodes !! pos) as [p|] eqn:Hp; simpl in Hh; [|done].
  exists p.
  destruct (cache_type p) eqn:Hct; [done| |].
  - destruct (lru.transfer_page_from pos _ _) as [[sf pr]|] eqn:Ht;
      simpl in Hh; [|done].
    apply lru_transfer_lists in Ht as [Hsf Hpr].
    destruct (set_cache_type safe pos nodes) as [n1|] eqn:H1;
      simpl in Hh; [|done].
    apply set_cache_type_lookup in H1 as (p1 & Hp1 & ->).
    assert (p1 = p) as -> by congruence.
    destruct (lru.is_full sf).
    + destruct (lru.get_lru_pos sf) as [l|]; simpl in Hh; [|done].
      destruct (lru.transfer_page_from l pr sf) as [[pr' sf']|] eqn:Ht';
        simpl in Hh; [|done].
      apply lru_transfer_lists in Ht' as [Hpr' Hsf'].
      destruct (set_cache_type probationary l _) as [n2|] eqn:H2;
        simpl in Hh; [|done].
      apply set_cache_type_lookup in H2 as (p2 & Hp2 & ->).
      simplify_eq. simpl.
      destruct (decide (l = pos)) as [->|Hne].
      * rewrite lookup_insert_eq in Hp2. simplify_eq.
        eexists. rewrite lookup_insert_eq. split; [done|].
        split; [done|]. simpl. split; [done|]. split; [done|].
        right. by rewrite Hpr'.
      * eexists. rewrite lookup_insert_ne, lookup_insert_eq by done.
        split; [done|]. split; [done|]. simpl. split; [done|].
        split; [done|]. left. split; [done|].
        rewrite Hsf in Hsf'. simpl in Hsf'.
        rewrite decide_False in Hsf' by done.
        destruct (unlink l (lru.m_lru (slru.m_safe s))) as [l'|];
          simpl in Hsf'; [|done].
        injection Hsf' as <-. done.
    + simplify_eq. simpl. eexists. rewrite lookup_insert_eq.
      split; [done|]. split; [done|]. simpl. split; [done|]. split; [done|].
      left. by rewrite Hsf.
  - destruct (lru.handle_hit pos _) as [sf|] eqn:Hl; simpl in Hh; [|done].
    apply lru_handle_hit_head in Hl. simplify_eq. simpl.
    exists p. split; [done|]. split; [done|]. split; [done|]. split; [done|].
    by left.
Qed.

(** X10: after a hit the page of the key is the first (most recently
    used) of the segment it is in.  A window page stays in the window, the
    other window pages keep their order and the main cache is untouched; a
    page of the main cache stays in the main cache. *)
Theorem hit_moves_to_mru k c c' v :
  get k c = Some (c', Some v) ->
  exists pos p0 p,
    m_page_map c' !! k = Some pos /\
    nodes c !! pos = Some p0 /\ nodes c' !! pos = Some p /\
    data p = v /\
    (cache_type p0 = window <-> cache_type p = window) /\
    head (segment (cache_type p) c') = Some pos /\
    (cache_type p0 = window ->
     m_main c' = m_main c /\
     exists l', unlink pos (segment window c) = Some l' /\
                segment window c' = pos :: l').
Proof.
  unfold get. simpl. intros Hg.
  destruct (m_page_map c !! k) as [pos|] eqn:Hk; [|by simplify_eq].
  destruct (handle_hit pos _) as [c1|] eqn:Hh; simpl in Hg; [|done].
  destruct (nodes c1 !! pos) as [p|] eqn:Hp; simpl in Hg; [|done].
  simplify_eq. exists pos.
  pose proof (handle_hit_page_map _ _ _ Hh) as Hm. simpl in Hm.
  unfold handle_hit in Hh. simpl in Hh.
  destruct (nodes c !! pos) as [p0|] eqn:Hp0; simpl in Hh; [|done].
  exists p0, p. rewrite Hm. split; [done|]. split; [done|].
  split; [done|]. split; [done|].
  destruct (decide (cache_type p0 = window)) as [Hw|Hw].
  - destruct (lru.handle_hit pos _) as [w|] eqn:Hl; simpl in Hh; [|done].
    apply lru_handle_hit_list in Hl as (l' & Hu & Hl). simplify_eq. simpl in *.
    assert (p = p0) as -> by congruence.
    split; [done|]. rewrite Hw. simpl. rewrite Hl.
    split; [done|]. intros _. split; [done|]. by exists l'.
  - destruct (slru.handle_hit pos _ _) as [[n1 m]|] eqn:Hs;
      simpl in Hh; [|done].
    apply slru_handle_hit_mru in Hs
      as (q & q' & Hq & Hq' & _ & _ & Hhead).
    simplify_eq. simpl in *. assert (q' = p) as -> by congruence.
    destruct Hhead as [[Hct Hhd]|[Hct Hhd]]; rewrite Hct; simpl;
      (split; [split; [done|congruence]|]); (split; [done|done]).
Qed.

End cache_hits.

Section cache_contains.
Context {K : Type} `{Countable K} {V F : Type} `{!FrequencySketch K F}.
Import wtinylfu_cache.
Implicit Types c : wtinylfu_cache.t K V F.

(** X5: [contains(k)] is true exactly when [get(k)] is a hit (returns a
    value and not [nullptr]). *)
Theorem contains_iff_get_hits (S : Z) os c k :
  run os (new S) = Some c ->
  contains k c = true <-> exists c' v, get k c = Some (c', Some v).
Proof.
  intros Hwf%reachable_wf.
  destruct (get_result k c Hwf) as [c' Hg]. rewrite Hg.
  rewrite contains_true. split.
  - intros Hk. destruct (cached k c) as [v|] eqn:Hc; [by eauto|].
    apply (cached_None _ _ Hwf) in Hc. rewrite Hc in Hk. by destruct Hk.
  - intros (c'' & v & Heq). simplify_eq.
    destruct (m_page_map c !! k) eqn:Hk; [done|].
    apply (cached_None _ _ Hwf) in Hk. congruence.
Qed.

End cache_contains.

(** X20: [operator==(disk_io_errc, int)] compares the enumerator's value:
    no enumerator equals 0 (the value of a [std::error_code] that reports
    success), [i != e] holds exactly when the value of [e] is not [i], and
    an [int] equals at most one enumerator. *)
Theorem errc_compares_by_value (e e' : disk_io_errc) (i : Z) :
  errc_eq e 0 = false /\
  (errc_ne i e = true <-> errc_value e ≠ i) /\
  (errc_eq e i = true -> errc_eq e' i = true -> e = e').
Proof.
  unfold errc_ne, errc_eq. split; [by destruct e|]. split.
  - rewrite negb_true_iff, bool_decide_eq_false. done.
  - intros H1%bool_decide_eq_true H2%bool_decide_eq_true.
    destruct e, e'; simpl in *; (done || lia).
Qed.
(* ------------------------------------------------------------------ *)
(** ** The capacities *)
(* ------------------------------------------------------------------ *)

Section cache_capacities.
Context {K : Type} `{Countable K} {V F : Type} `{!FrequencySketch K F}.
Import wtinylfu_cache.
Implicit Types c : wtinylfu_cache.t K V F.

(** X16: for a total capacity from 1 to 13,107,200,
    [get_window_capacity] is [max(1, ceil(n / 100))]: the binary32 product
    [0.01f * n] and its rounding do not move the result in that range. *)
Theorem window_capacity_one_percent n :
  1 <= n <= 13107200 ->
  get_window_capacity n = Z.max 1 ((n + 99) / 100).
Proof.
  intros Hn. unfold get_window_capacity. by rewrite window_share.
Qed.

(** X17: [slru::set_capacity(n)], for [n] from 0 to 5,242,880, gives the
    safe segment [floor(4 n / 5)] and the probationary segment the rest of
    [n]; it removes no page from either segment. *)
Theorem set_capacity_split n (s : slru.t) :
  0 <= n <= 5242880 ->
  lru.capacity (slru.m_safe (slru.set_capacity n s)) = 4 * n / 5 /\
  lru.capacity (slru.m_probationary (slru.set_capacity n s)) = n - 4 * n / 5 /\
  lru.m_lru (slru.m_safe (slru.set_capacity n s)) = lru.m_lru (slru.m_safe s) /\
  lru.m_lru (slru.m_probationary (slru.set_capacity n s))
  = lru.m_lru (slru.m_probationary s).
Proof.
  intros Hn. unfold slru.set_capacity, lru.set_capacity, lru.capacity. simpl.
  by rewrite safe_share.
Qed.

(** X18: a cache constructed with a capacity [S] from 1 to 2^24 is empty
    and has [capacity()] equal to [S] or to [S - 1]: [capacity - 0.8f *
    capacity] is exact in binary32, so the two conversions to [int] in
    [slru(int)] lose one page at most. *)
Theorem constructed_capacity_within_one (S : Z) :
  1 <= S <= 2 ^ 24 ->
  S - 1 <= capacity (new S : wtinylfu_cache.t K V F) <= S /\
  size (new S : wtinylfu_cache.t K V F) = 0 /\
  forall k, contains k (new S : wtinylfu_cache.t K V F) = false.
Proof.
  intros HS.
  pose proof (get_window_capacity_ge_1 S) as Hw1.
  pose proof (get_window_capacity_le S ltac:(lia)) as Hw2.
  split; [|split; [done|]].
  - unfold capacity.
    change (lru.capacity (m_window (new S : wtinylfu_cache.t K V F)))
      with (get_window_capacity S).
    change (m_main (new S : wtinylfu_cache.t K V F))
      with (slru.new (S - get_window_capacity S)).
    set (m := S - get_window_capacity S) in *.
    pose proof (slru_new_shares m ltac:(lia)) as Hm.
    change (slru.capacity (slru.new m))
      with (F32.to_int (F32.mul F32.c0_8 (F32.of_int m))
            + F32.to_int (F32.sub (F32.of_int m)
                            (F32.mul F32.c0_8 (F32.of_int m)))).
    lia.
  - intros k. apply contains_false. apply lookup_empty.
Qed.

End cache_capacities.

Section cache_frames.
Context {K : Type} `{Countable K} {V F : Type} `{!FrequencySketch K F}.
Import wtinylfu_cache.
Implicit Types c : wtinylfu_cache.t K V F.

(** X19: for a capacity [S] from 1 to 5,242,881 the constructed cache has
    [capacity() == S] exactly when 5 divides the main cache's capacity
    [S - get_window_capacity(S)], and [capacity() == S - 1] otherwise. *)
Theorem constructed_capacity_exact (S : Z) :
  1 <= S <= 5242881 ->
  capacity (new S : wtinylfu_cache.t K V F)
  = if decide ((S - get_window_capacity S) mod 5 = 0) then S else S - 1.
Proof.
  intros HS.
  pose proof (get_window_capacity_ge_1 S) as Hw1.
  pose proof (get_window_capacity_le S ltac:(lia)) as Hw2.
  unfold capacity.
  change (lru.capacity (m_window (new S : wtinylfu_cache.t K V F)))
    with (get_window_capacity S).
  change (m_main (new S : wtinylfu_cache.t K V F))
    with (slru.new (S - get_window_capacity S)).
  set (m := S - get_window_capacity S) in *.
  change (slru.capacity (slru.new m))
    with (F32.to_int (F32.mul F32.c0_8 (F32.of_int m))
          + F32.to_int (F32.sub (F32.of_int m)
                          (F32.mul F32.c0_8 (F32.of_int m)))).
  rewrite slru_new_shares_exact by lia. case_decide; lia.
Qed.

Lemma get_resized k c c' r : get k c = Some (c', r) -> resized 0 0 c c'.
Proof.
  unfold get. simpl. intros Hg.
  destruct (m_page_map c !! k) as [pos|];
    [|simplify_eq; unfold resized; simpl; lia].
  destruct (handle_hit pos _) as [c1|] eqn:Hh; simpl in Hg; [|done].
  destruct (nodes c1 !! pos); simpl in Hg; [|done]. simplify_eq.
  apply handle_hit_resized in Hh as (H1 & H2 & H3 & H4). simpl in *.
  unfold resized. lia.
Qed.

(** X9: a [get], hit or miss, adds and removes no key and changes neither
    [size()] nor [capacity()]. *)
Theorem get_keeps_keys_and_sizes k c c' r :
  get k c = Some (c', r) ->
  m_page_map c' = m_page_map c /\ size c' = size c /\
  capacity c' = capacity c.
Proof.
  intros Hg. split; [by eapply get_page_map|].
  apply get_resized in Hg as (H1 & H2 & H3 & H4).
  unfold size, capacity. lia.
Qed.

Lemma assign_or_emplace_new_size k d c c' :
  m_page_map c !! k = None -> assign_or_emplace k d c = Some c' ->
  resized 1 0 c c'.
Proof.
  unfold assign_or_emplace. intros -> ?. simplify_eq.
  unfold resized. simpl. unfold lru.size, lru.capacity. simpl. lia.
Qed.

Lemma insert_capacity k d c c' :
  insert k d c = Some c' -> capacity c' = capacity c.
Proof.
  unfold insert. intros Hi.
  assert (Ha : forall c1, assign_or_emplace k d c1 = Some c' ->
                capacity c' = capacity c1).
  { intros c1. unfold assign_or_emplace.
    destruct (m_page_map c1 !! k); [|by intros; simplify_eq].
    destruct (set_data _ _ _); simpl; by intros; simplify_eq. }
  destruct (lru.is_full _).
  - destruct (evict c) as [c1|] eqn:He; simpl in Hi; [|done].
    rewrite (Ha _ Hi). unfold capacity.
    destruct (evict_resized _ _ He) as [(_ & _ & -> & ->)|[_ (_ & _ & -> & ->)]];
      done.
  - simpl in Hi. by rewrite (Ha _ Hi).
Qed.

Lemma erase_capacity k c c' :
  erase k c = Some c' -> capacity c' = capacity c.
Proof.
  unfold erase, capacity. intros He.
  destruct (m_page_map c !! k) as [pos|]; [|by simplify_eq].
  destruct (nodes c !! pos) as [p|]; simpl in He; [|done].
  destruct (decide _).
  - destruct (lru.erase _ _) as [w|] eqn:Hl; simpl in He; [|done].
    apply lru_erase_size in Hl as [_ Hc]. simplify_eq. simpl. lia.
  - destruct (slru.erase _ _ _) as [m|] eqn:Hl; simpl in He; [|done].
    apply slru_erase_size in Hl as [_ Hc]. simplify_eq. simpl. lia.
Qed.

(** X14: [capacity()] changes only by a [change_capacity(n)] with
    [n > 0]: any sequence of [get], [insert], [erase] and throwing
    [change_capacity] calls leaves it as it was. *)
Theorem capacity_changes_only_by_change_capacity os c c' :
  run os c = Some c' ->
  (forall n, ChangeCapacity n ∈ os -> n <= 0) ->
  capacity c' = capacity c.
Proof.
  revert c. induction os as [|o os IH]; intros c Hr Hos; simpl in Hr.
  { by simplify_eq. }
  destruct (step o c) as [c1|] eqn:Hs; simpl in Hr; [|done].
  rewrite (IH c1 Hr); [|intros n Hn; apply Hos; by apply elem_of_cons; right].
  destruct o as [k|k d|k|n]; simpl in Hs.
  - destruct (get k c) as [[c2 r]|] eqn:Hg; simpl in Hs; [|done].
    simplify_eq. apply get_resized in Hg as (_ & _ & H3 & H4).
    unfold capacity. lia.
  - by eapply insert_capacity.
  - by eapply erase_capacity.
  - assert (n <= 0) by (apply Hos; apply elem_of_cons; by left).
    unfold change_capacity in Hs.
    rewrite bool_decide_eq_true_2 in Hs by done. simpl in Hs.
    by simplify_eq.
Qed.

End cache_frames.
(* ------------------------------------------------------------------ *)
(** ** The sums of [size()] and [capacity()] within [int] *)
(* ------------------------------------------------------------------ *)

Section f32_sum.
Import F32.

(** The two capacities that [slru(int)] computes sum to the argument with
    a relative error of two roundings at most. *)
Lemma slru_new_capacity_le m :
  0 <= m ->
  2 ^ 46 * slru.capacity (slru.new m) <= (2 ^ 23 + 1) * (2 ^ 23 + 1) * m.
Proof.
  intros Hm. unfold slru.capacity, slru.new, lru.capacity, lru.new; simpl.
  unfold to_int, sub, mul, of_int, c0_8; simpl num; simpl scale.
  change (24 + 0) with 24. change (Z.max 0 24) with 24.
  change (24 - 0) with 24. change (24 - 24) with 0.
  rewrite Z.mul_1_r.
  set (x := round24 m).
  assert (Hx0 : 0 <= x) by (by apply round24_nonneg).
  pose proof (round24_le_rel m Hm) as Hx. fold x in Hx.
  assert (Hy : round24 (13421773 * x) <= x * 2 ^ 24).
  { apply mul_const_le; [lia|done|]. by apply round24_repr. }
  assert (Hy0 : 0 <= round24 (13421773 * x)) by (apply round24_nonneg; lia).
  set (y := round24 (13421773 * x)) in *.
  pose proof (round24_le_rel (x * 2 ^ 24 - y) ltac:(lia)) as Hz.
  assert (Hz0 : 0 <= round24 (x * 2 ^ 24 - y)) by (apply round24_nonneg; lia).
  set (z := round24 (x * 2 ^ 24 - y)) in *.
  assert (Hs : 2 ^ 24 * (y ÷ 2 ^ 24) <= y).
  { rewrite Z.quot_div_nonneg by lia. apply Z.mul_div_le. lia. }
  assert (Hp : 2 ^ 24 * (z ÷ 2 ^ 24) <= z).
  { rewrite Z.quot_div_nonneg by lia. apply Z.mul_div_le. lia. }
  change (2 ^ 23) with 8388608 in *. change (2 ^ 24) with 16777216 in *.
  change (2 ^ 46) with 70368744177664.
  lia.
Qed.

End f32_sum.

Section cache_int.
Context {K : Type} `{Countable K} {V F : Type} `{!FrequencySketch K F}.
Import wtinylfu_cache.
Implicit Types c : wtinylfu_cache.t K V F.

(** A cache constructed with a capacity up to [2^31 - 1024] has a
    [capacity()] of [INT_MAX] at most: the sum of the three capacities
    exceeds the argument by less than 513. *)
Lemma new_within_int (S : Z) :
  1 <= S <= 2 ^ 31 - 1024 -> within_int (new S : wtinylfu_cache.t K V F).
Proof.
  intros HS.
  pose proof (get_window_capacity_ge_1 S) as Hw1.
  pose proof (get_window_capacity_le S ltac:(lia)) as Hw2.
  unfold within_int, capacity.
  change (lru.capacity (m_window (new S : wtinylfu_cache.t K V F)))
    with (get_window_capacity S).
  change (m_main (new S : wtinylfu_cache.t K V F))
    with (slru.new (S - get_window_capacity S)).
  set (m := S - get_window_capacity S) in *.
  destruct (slru_new_capacities m ltac:(lia)) as [H1 H2].
  pose proof (slru_new_capacity_le m ltac:(lia)) as Hm.
  split; [lia|]. split; [done|]. split; [done|].
  unfold int_max. change (2 ^ 31) with 2147483648 in *.
  change (2 ^ 23) with 8388608 in *. change (2 ^ 46) with 70368744177664 in *.
  lia.
Qed.

Lemma within_int_same c c' :
  lru.capacity (m_window c') = lru.capacity (m_window c) ->
  lru.capacity (slru.m_safe (m_main c'))
  = lru.capacity (slru.m_safe (m_main c)) ->
  capacity c' = capacity c ->
  within_int c -> within_int c'.
Proof.
  unfold within_int, capacity, slru.capacity. intros H1 H2 H3. lia.
Qed.

Lemma change_capacity_within_int (n : Z) c c' :
  n <= int_max -> change_capacity n c = Some (inr c') -> within_int c'.
Proof.
  intros Hn Hc. unfold change_capacity in Hc. case_bool_decide; [done|].
  destruct (evict_window_loop _ _) as [c1|] eqn:Hw; simpl in Hc; [|done].
  destruct (evict_main_loop _ _) as [c2|] eqn:Hm; simpl in Hc; [|done].
  simplify_eq.
  pose proof (evict_main_loop_not_full _ _ _ Hm) as (_ & _ & Hm3).
  pose proof (evict_main_loop_safe _ _ _ Hm) as [Hsf Hpc].
  pose proof (evict_window_loop_main _ _ _ Hw) as [Hmain Hwc].
  simpl in Hmain, Hwc.
  pose proof (get_window_capacity_ge_1 n) as Hw1.
  pose proof (get_window_capacity_le n ltac:(lia)) as Hw2.
  pose proof (safe_share_le (n - get_window_capacity n) ltac:(lia)) as Hsh.
  unfold within_int, capacity, slru.capacity.
  rewrite Hsf, Hpc, Hmain, Hm3, Hwc.
  unfold slru.set_capacity, lru.set_capacity, lru.capacity. simpl. lia.
Qed.

Lemma step_within_int o c c' :
  int_call o -> step o c = Some c' -> within_int c -> within_int c'.
Proof.
  intros Ho Hs. destruct o as [k|k d|k|n]; simpl in Hs.
  - destruct (get k c) as [[c2 r]|] eqn:Hg; simpl in Hs; [|done]. simplify_eq.
    apply within_int_same.
    + by eapply get_keeps_window_capacity.
    + unfold get in Hg. simpl in Hg.
      destruct (m_page_map c !! k) as [pos|]; [|by simplify_eq].
      destruct (handle_hit pos _) as [c2|] eqn:Hh; simpl in Hg; [|done].
      destruct (nodes c2 !! pos); simpl in Hg; [|done]. simplify_eq.
      by apply handle_hit_safe in Hh as [-> _].
    + apply get_resized in Hg as (_ & _ & H3 & H4). unfold capacity. lia.
  - apply within_int_same.
    + by eapply insert_window_capacity.
    + by apply insert_safe in Hs as [-> _].
    + by eapply insert_capacity.
  - apply within_int_same.
    + by eapply erase_window_capacity.
    + by apply erase_safe in Hs as [-> _].
    + by eapply erase_capacity.
  - destruct (change_capacity n c) as [[e|c1]|] eqn:Hc; simpl in Hs; [| |done].
    + by simplify_eq.
    + simplify_eq. intros _. by eapply change_capacity_within_int.
Qed.

Lemma run_within_int os c c' :
  Forall int_call os -> run os c = Some c' -> within_int c -> within_int c'.
Proof.
  revert c. induction os as [|o os IH]; intros c Hos Hr Hc; simpl in Hr.
  { by simplify_eq. }
  destruct (step o c) as [c1|] eqn:Hs; simpl in Hr; [|done].
  apply Forall_cons in Hos as [Ho Hos].
  eapply IH; [done|done|]. by eapply step_within_int.
Qed.

(** Within [int] the sums of the embedding are the sums of the
    program. *)
Lemma within_int_sums c :
  within_int c -> bounded c ->
  size_int c = Some (size c) /\ capacity_int c = Some (capacity c).
Proof.
  unfold within_int, bounded, size_int, capacity_int, slru_capacity_int,
    int_add, capacity, size, slru.capacity, slru.size, lru.size,
    int_min, int_max.
  intros (H1 & H2 & H3 & H4) [H5 H6].
  change (2 ^ 31) with 2147483648 in *.
  rewrite !bool_decide_eq_true_2 by lia. simpl.
  rewrite !bool_decide_eq_true_2 by lia. done.
Qed.

(** The caches reached from a constructor with a capacity from 1 to
    [2^31 - 1024], by calls a program can make. *)
Lemma reached_within_int (S : Z) os c :
  1 <= S <= 2 ^ 31 - 1024 -> Forall int_call os ->
  run os (new S) = Some c ->
  size_int c = Some (size c) /\ capacity_int c = Some (capacity c).
Proof.
  intros HS Hos Hr. apply within_int_sums.
  - apply (run_within_int os (new S)); [done|done|]. by apply new_within_int.
  - apply (run_sound os (new S)); [apply new_sound; lia|done].
Qed.



(** X6: on every cache reached from a constructor with a capacity [S],
    [3 <= S <= 2^31 - 1024], by any calls (changes of capacity to an
    [int] among them), [get] and [insert] are defined for every key: no
    victim is taken from an empty list and no iterator is used with a list
    it does not point into.  [change_capacity(n)] with [n > 0] is defined
    exactly when the safe segment alone holds fewer pages than
    [n - get_window_capacity(n)], the main cache's new capacity.  (Below 3
    the main cache is constructed with the capacity 0; above the bound the
    [int] sum of [capacity()] can overflow.) *)
Theorem reached_cache_calls_defined (S : Z) os c :
  3 <= S <= 2 ^ 31 - 1024 ->
  Forall int_call os ->
  run os (new S) = Some c ->
  capacity_int c = Some (capacity c) /\
  (forall k, is_Some (get k c)) /\
  (forall k d, is_Some (insert k d c)) /\
  (forall n, 0 < n ->
     is_Some (change_capacity n c) <->
     lru.size (slru.m_safe (m_main c)) < n - get_window_capacity n).
Proof.
  intros HS Hos Hr.
  assert (Hs : steady c)
    by (apply (run_steady os (new S)); [apply new_steady; lia|done]).
  split; [apply (reached_within_int S os); [lia|done|done]|].
  split; [|split].
  - intros k. destruct (get_steady k c Hs) as (c' & r & -> & _). done.
  - intros k d. destruct (insert_steady k d c Hs) as (c' & -> & _). done.
  - intros n Hn. apply change_capacity_is_Some; [apply Hs|done].
Qed.

(** X7: on a cache reached from a constructor with a capacity [S],
    [1 <= S <= 2^31 - 1024], by calls with [int] arguments, the sums of
    [size()] and [capacity()] do not overflow, and [insert] is undefined
    exactly when the window is full, [size() >= capacity()] and the
    probationary segment is empty: the main cache's victim is then read
    from an empty list. *)
Theorem insert_undefined_iff (S : Z) os c k d :
  1 <= S <= 2 ^ 31 - 1024 ->
  Forall int_call os ->
  run os (new S) = Some c ->
  (size_int c = Some (size c) /\ capacity_int c = Some (capacity c)) /\
  (insert k d c = None <->
   lru.is_full (m_window c) = true /\ capacity c <= size c /\
   lru.size (slru.m_probationary (m_main c)) = 0).
Proof.
  intros HS Hos Hr. split; [by apply (reached_within_int S os)|].
  assert (Hs : sound c)
    by (apply (run_sound os (new S)); [apply new_sound; lia|done]).
  destruct Hs as (Hwf & _ & Hw).
  pose proof (insert_is_Some k d c Hwf Hw) as Hiff.
  assert (Hnil : segment probationary c = [] <->
                 lru.size (slru.m_probationary (m_main c)) = 0).
  { unfold segment, lru.size.
    destruct (lru.m_lru (slru.m_probationary (m_main c))); simpl; split;
      intros; (done || lia). }
  rewrite <- Hnil. split.
  - intros Hnone. rewrite Hnone in Hiff.
    destruct (lru.is_full (m_window c)) eqn:Hf;
      [|exfalso; apply (is_Some_None (A:=wtinylfu_cache.t K V F));
        apply Hiff; by intros [? _]].
    destruct (Z_le_gt_dec (capacity c) (size c)) as [Hle|Hgt];
      [|exfalso; apply (is_Some_None (A:=wtinylfu_cache.t K V F));
        apply Hiff; intros (_ & ? & _); lia].
    destruct (segment probationary c) as [|x l] eqn:Hp; [done|].
    exfalso. apply (is_Some_None (A:=wtinylfu_cache.t K V F)).
    apply Hiff. by intros (_ & _ & ?).
  - intros Hcond. destruct (insert k d c) eqn:Hi; [|done].
    exfalso. apply (proj1 Hiff); [by eexists|done].
Qed.

(** X8: on a cache reached from a constructor with a capacity [S],
    [1 <= S <= 2^31 - 1024], by calls with [int] arguments, an [insert] of
    a key that is not cached grows [size()] by one while the cache is not
    full, and leaves [size()] at [capacity()] when it is (one entry is
    evicted for the new one); [capacity()] is as before, and both sums are
    made without overflow before and after the call. *)
Theorem insert_new_key_size (S : Z) os c k d c' :
  1 <= S <= 2 ^ 31 - 1024 ->
  Forall int_call os ->
  run os (new S) = Some c ->
  contains k c = false ->
  insert k d c = Some c' ->
  size c' = Z.min (size c + 1) (capacity c) /\ capacity c' = capacity c /\
  capacity_int c = Some (capacity c) /\
  size_int c' = Some (size c') /\ capacity_int c' = Some (capacity c').
Proof.
  intros HS Hos Hr Hk%contains_false Hi.
  assert (Hint : capacity_int c = Some (capacity c))
    by (by apply (reached_within_int S os)).
  assert (Hint' : size_int c' = Some (size c') /\
                  capacity_int c' = Some (capacity c')).
  { apply (reached_within_int S (os ++ [Insert k d])); [done| |].
    - apply Forall_app. split; [done|]. by apply Forall_singleton.
    - clear Hint. revert Hr Hi. generalize (new S : wtinylfu_cache.t K V F).
      induction os as [|o os IH]; intros c0 Hr Hi; simpl in *.
      + simplify_eq. by rewrite Hi.
      + destruct (step o c0) as [c1|]; simpl in *; [|done].
        apply IH; [by apply Forall_cons in Hos as [_ ?]|done|done]. }
  assert (Hs : sound c)
    by (apply (run_sound os (new S)); [apply new_sound; lia|done]).
  destruct Hs as (_ & [Hbw Hbm] & _).
  split; [|split; [by eapply insert_capacity|done]].
  unfold insert in Hi. destruct (lru.is_full (m_window c)) eqn:Hf.
  - destruct (evict c) as [c1|] eqn:He; simpl in Hi; [|done].
    assert (Hk1 : m_page_map c1 !! k = None).
    { destruct (evict_page_map _ _ He) as [->|(_ & wk & mk_ & _ & _ & ->)];
        [done|].
      destruct (decide (k = if bool_decide
                  (get_frequency (m_filter c) mk_
                   < get_frequency (m_filter c) wk) then mk_ else wk))
        as [->|Hne]; [apply lookup_delete_eq|].
      by rewrite lookup_delete_ne. }
    apply (assign_or_emplace_new_size _ _ _ _ Hk1) in Hi
      as (Hi1 & Hi2 & Hi3 & Hi4).
    unfold evict in He. unfold size, capacity in *. case_bool_decide.
    + apply evict_from_window_or_main_resized in He as (? & ? & ? & ?). lia.
    + apply transfer_window_victim_resized in He as (? & ? & ? & ?). lia.
  - simpl in Hi.
    apply (assign_or_emplace_new_size _ _ _ _ Hk) in Hi
      as (Hi1 & Hi2 & Hi3 & Hi4).
    unfold lru.is_full in Hf. apply bool_decide_eq_false in Hf.
    unfold size, capacity in *. lia.
Qed.

(** X11: [get_and_insert_if_missing(k, loader)] on a cache reached from a
    constructor with a capacity [S], [3 <= S <= 2^31 - 1024], by calls
    with [int] arguments is defined; it returns the cached value on a hit
    and [loader(k)] on a miss, a [get(k)] made right after it returns that
    same value, and the sketch has recorded one access of [k]. *)
Theorem get_and_insert_if_missing_caches (S : Z) os c k (loader : K -> V) :
  3 <= S <= 2 ^ 31 - 1024 ->
  Forall int_call os ->
  run os (new S) = Some c ->
  capacity_int c = Some (capacity c) /\
  exists c' v,
    get_and_insert_if_missing k loader c = Some (c', v) /\
    (exists r, snd <$> get k c = Some r /\ v = default (loader k) r) /\
    (exists c'', get k c' = Some (c'', Some v)) /\
    m_filter c' = record_access k (m_filter c).
Proof.
  intros HS Hos Hr.
  split; [apply (reached_within_int S os); [lia|done|done]|].
  assert (Hs : steady c)
    by (apply (run_steady os (new S)); [apply new_steady; lia|done]).
  destruct (get_steady k c Hs) as (c1 & r & Hg & Hs1).
  pose proof (get_cached _ _ _ _ Hg) as [Hrv Hsame].
  pose proof (get_filter _ _ _ _ Hg) as Hf.
  assert (Hwf1 : wf c1) by apply Hs1.
  unfold get_and_insert_if_missing. rewrite Hg. cbn [mbind option_bind].
  destruct r as [v|].
  - exists c1, v. split; [done|]. split; [by exists (Some v)|].
    split; [|done].
    destruct (get_result k c1 Hwf1) as [c2 Hg2]. exists c2.
    by rewrite Hg2, Hsame, <- Hrv.
  - destruct (insert_steady k (loader k) c1 Hs1) as (c2 & Hi & Hs2).
    rewrite Hi. cbn [mbind option_bind].
    exists c2, (loader k). split; [done|]. split; [by exists None|].
    split.
    + destruct (get_result k c2) as [c3 Hg3]; [apply Hs2|]. exists c3.
      by rewrite Hg3, (proj1 (insert_cached _ _ _ _ Hwf1 Hi)).
    + by rewrite (insert_filter _ _ _ _ Hi).
Qed.

End cache_int.
(* ------------------------------------------------------------------ *)
(** ** Closed instances of the further properties *)
(* ------------------------------------------------------------------ *)

Section further_instances.
Import wtinylfu_cache.

Lemma six_inserts_int_calls : Forall int_call six_inserts.
Proof. unfold six_inserts. repeat constructor. Qed.

Lemma hits_and_inserts_int_calls : Forall int_call hits_and_inserts.
Proof. unfold hits_and_inserts. repeat constructor. Qed.



Lemma get_after_insert_witness :
  snd <$> (insert 7 70 full_cache ≫= get 7) = Some (Some 70).
Proof.
  destruct (insert 7 70 full_cache) as [c1|] eqn:Hi.
  - destruct (get_after_insert 6 six_inserts full_cache 7 70 c1
                full_cache_run Hi) as [c2 Hg].
    simpl. by rewrite Hg.
  - by vm_compute in Hi.
Defined.

Lemma get_returns_last_insert_witness :
  snd <$> get 2 hot_cache = Some (Some 20) /\
  written 2 hits_and_inserts None = Some 20.
Proof.
  assert (Hv : snd <$> get 2 hot_cache = Some (Some 20)) by (by vm_compute).
  split; [exact Hv|].
  destruct (get 2 hot_cache) as [[c' r]|] eqn:Hg; [|done].
  simpl in Hv. injection Hv as ->.
  exact (get_returns_last_insert 6 hits_and_inserts hot_cache 2 c' 20
           hot_cache_run Hg).
Defined.

Lemma other_keys_keep_their_values_witness :
  snd <$> (step (Insert 7 70) full_cache ≫= get 3)
  = snd <$> get 3 full_cache.
Proof.
  destruct (step (Insert 7 70) full_cache) as [c1|] eqn:Hs;
    [|by vm_compute in Hs].
  simpl.
  apply (other_keys_keep_their_values 6 six_inserts full_cache
           (Insert 7 70) c1 3 full_cache_run Hs).
  - intros d. discriminate.
  - intros (_ & _ & _ & wk & mk_ & Hwk & Hmk & Heq).
    vm_compute in Hwk. vm_compute in Hmk. simplify_eq; by vm_compute in Heq.
Defined.

Lemma size_counts_keys_witness :
  size hot_cache = Z.of_nat (base.size (m_page_map hot_cache)).
Proof.
  exact (size_counts_keys 6 hits_and_inserts hot_cache hot_cache_run).
Defined.

(** The bound 3 cannot be lowered: the main cache of a cache constructed
    with a capacity of 2 has the capacity 0. *)
Lemma reached_cache_calls_defined_witness :
  (capacity_int hot_cache = Some (capacity hot_cache) /\
   (forall k, is_Some (get k hot_cache)) /\
   (forall k d, is_Some (insert k d hot_cache)) /\
   (forall n, 0 < n ->
      is_Some (change_capacity n hot_cache) <->
      lru.size (slru.m_safe (m_main hot_cache))
      < n - get_window_capacity n)) /\
  run [Insert 1 10; Insert 2 20] (new 2 : zcache) = None.
Proof.
  split; [|by vm_compute].
  exact (reached_cache_calls_defined 6 hits_and_inserts hot_cache
           ltac:(by vm_compute) hits_and_inserts_int_calls hot_cache_run).
Defined.

Lemma insert_undefined_iff_witness :
  exists c : zcache,
    run [Insert 1 10] (new 1) = Some c /\
    (size_int c = Some (size c) /\ capacity_int c = Some (capacity c)) /\
    (insert 2 20 c = None <->
     lru.is_full (m_window c) = true /\ capacity c <= size c /\
     lru.size (slru.m_probationary (m_main c)) = 0).
Proof.
  destruct (run [Insert 1 10] (new 1 : zcache)) as [c|] eqn:Hr;
    [|by vm_compute in Hr].
  exists c. split; [done|].
  apply (insert_undefined_iff 1 [Insert 1 10] c 2 20);
    [by vm_compute|repeat constructor|exact Hr].
Defined.

Lemma change_capacity_resizes_witness :
  exists c' : zcache,
    change_capacity 3 full_cache = Some (inr c') /\
    capacity c' = 3 /\
    lru.capacity (m_window c') = get_window_capacity 3 /\
    lru.size (m_window c') < lru.capacity (m_window c') /\
    slru.size (m_main c') < slru.capacity (m_main c') /\
    m_page_map c' ⊆ m_page_map full_cache /\
    (forall k, contains k c' = true ->
       snd <$> get k c' = snd <$> get k full_cache).
Proof.
  destruct (change_capacity 3 full_cache) as [[e|c']|] eqn:Hc;
    [by vm_compute in Hc| |by vm_compute in Hc].
  exists c'. split; [done|].
  exact (change_capacity_resizes 6 six_inserts full_cache 3 c'
           full_cache_run Hc).
Defined.

Lemma sketch_sees_gets_only_witness :
  m_filter hot_cache
  = sketch_after hits_and_inserts (m_filter (new 6 : zcache)).
Proof.
  exact (sketch_sees_gets_only hits_and_inserts (new 6) hot_cache
           hot_cache_run).
Defined.

Lemma hit_moves_to_mru_witness :
  exists (c' : zcache) pos p0 p,
    get 5 hot_cache = Some (c', Some 50) /\
    m_page_map c' !! 5 = Some pos /\
    nodes hot_cache !! pos = Some p0 /\ nodes c' !! pos = Some p /\
    data p = 50 /\
    (cache_type p0 = window <-> cache_type p = window) /\
    head (segment (cache_type p) c') = Some pos /\
    (cache_type p0 = window ->
     m_main c' = m_main hot_cache /\
     exists l', unlink pos (segment window hot_cache) = Some l' /\
                segment window c' = pos :: l').
Proof.
  assert (Hv : snd <$> get 5 hot_cache = Some (Some 50)) by (by vm_compute).
  destruct (get 5 hot_cache) as [[c' r]|] eqn:Hg; [|done].
  simpl in Hv. injection Hv as ->.
  destruct (hit_moves_to_mru 5 hot_cache c' 50 Hg) as (pos & p0 & p & Hh).
  by exists c', pos, p0, p.
Defined.

Lemma get_and_insert_if_missing_caches_witness :
  capacity_int hot_cache = Some (capacity hot_cache) /\
  exists (c' : zcache) v,
    get_and_insert_if_missing 9 (λ k, k * 10) hot_cache = Some (c', v) /\
    (exists r, snd <$> get 9 hot_cache = Some r /\ v = default (9 * 10) r) /\
    (exists c'', get 9 c' = Some (c'', Some v)) /\
    m_filter c' = record_access 9 (m_filter hot_cache).
Proof.
  exact (get_and_insert_if_missing_caches 6 hits_and_inserts hot_cache 9
           (λ k, k * 10) ltac:(by vm_compute) hits_and_inserts_int_calls
           hot_cache_run).
Defined.

Lemma window_capacity_one_percent_witness :
  get_window_capacity 13107200 = Z.max 1 ((13107200 + 99) / 100) /\
  get_window_capacity 13107201 = 131072.
Proof.
  split; [|by vm_compute].
  apply (window_capacity_one_percent 13107200). lia.
Defined.

Lemma set_capacity_split_witness :
  lru.capacity (slru.m_safe (slru.set_capacity 99 (slru.new 0))) = 4 * 99 / 5 /\
  lru.capacity (slru.m_probationary (slru.set_capacity 99 (slru.new 0)))
  = 99 - 4 * 99 / 5 /\
  lru.m_lru (slru.m_safe (slru.set_capacity 99 (slru.new 0)))
  = lru.m_lru (slru.m_safe (slru.new 0)) /\
  lru.m_lru (slru.m_probationary (slru.set_capacity 99 (slru.new 0)))
  = lru.m_lru (slru.m_probationary (slru.new 0)).
Proof. apply (set_capacity_split 99 (slru.new 0)). lia. Defined.

Lemma constructed_capacity_within_one_witness :
  100 - 1 <= capacity (new 100 : zcache) <= 100 /\
  size (new 100 : zcache) = 0 /\
  forall k, contains k (new 100 : zcache) = false.
Proof. apply (constructed_capacity_within_one 100). lia. Defined.

Lemma contains_iff_get_hits_witness :
  contains 3 hot_cache = true <->
  exists c' v, get 3 hot_cache = Some (c', Some v).
Proof.
  exact (contains_iff_get_hits 6 hits_and_inserts hot_cache 3 hot_cache_run).
Defined.

Lemma constructed_capacity_exact_witness :
  capacity (new 100 : zcache)
  = if decide ((100 - get_window_capacity 100) mod 5 = 0)
    then 100 else 100 - 1.
Proof. apply (constructed_capacity_exact 100). lia. Defined.

Lemma get_keeps_keys_and_sizes_witness :
  exists (c' : zcache) r,
    get 4 hot_cache = Some (c', r) /\
    m_page_map c' = m_page_map hot_cache /\ size c' = size hot_cache /\
    capacity c' = capacity hot_cache.
Proof.
  destruct (get 4 hot_cache) as [[c' r]|] eqn:Hg; [|by vm_compute in Hg].
  exists c', r. split; [done|].
  exact (get_keeps_keys_and_sizes 4 hot_cache c' r Hg).
Defined.

Lemma insert_new_key_size_witness :
  exists c' : zcache,
    insert 7 70 full_cache = Some c' /\
    size c' = Z.min (size full_cache + 1) (capacity full_cache) /\
    capacity c' = capacity full_cache /\
    capacity_int full_cache = Some (capacity full_cache) /\
    size_int c' = Some (size c') /\ capacity_int c' = Some (capacity c').
Proof.
  destruct (insert 7 70 full_cache) as [c'|] eqn:Hi; [|by vm_compute in Hi].
  exists c'. split; [done|].
  apply (insert_new_key_size 6 six_inserts full_cache 7 70 c');
    [by vm_compute|exact six_inserts_int_calls|exact full_cache_run
    |by vm_compute|exact Hi].
Defined.

Lemma capacity_changes_only_by_change_capacity_witness :
  capacity hot_cache = capacity (new 6 : zcache).
Proof.
  apply (capacity_changes_only_by_change_capacity hits_and_inserts
           (new 6) hot_cache hot_cache_run).
  intros n Hn. unfold hits_and_inserts in Hn.
  repeat (apply elem_of_cons in Hn as [Hn|Hn]; [discriminate|]).
  by apply elem_of_nil in Hn.
Defined.

Lemma safe_segment_never_full_witness :
  lru.size (slru.m_safe (m_main hot_cache)) = 0 \/
  lru.is_full (slru.m_safe (m_main hot_cache)) = false.
Proof.
  apply (safe_segment_never_full 6 hits_and_inserts hot_cache hot_cache_run).
  intros n Hn. unfold hits_and_inserts in Hn.
  repeat (apply elem_of_cons in Hn as [Hn|Hn]; [discriminate|]).
  by apply elem_of_nil in Hn.
Defined.

End further_instances.
